(** * Portfolio site behaviour layer: a shallow embedding and its properties

    The modules of the site (security.js, validation.js, notifications.js,
    email.js, projects.js, language.js, constants.js) are embedded as Rocq
    functions.  JavaScript strings are sequences of UTF-16 code units; the
    DOM, the console, the timer table and the EmailJS client are explicit
    state or explicit traces of events.

    The embedding follows version 2.0.0 of the code: the modules under
    js/ and the second, identical copy in portfolio.js.  The first copy
    in portfolio.js is the superseded script the README keeps as legacy
    support; it is not modelled. *)

From Stdlib Require Import String Ascii List NArith ZArith Bool Lia Arith.
From Stdlib Require DecimalString.
From Stdlib Require DecimalN DecimalPos.
Import ListNotations.

(** ** JavaScript strings and values *)

Module Js.

(** A string is a list of UTF-16 code units. *)
Definition jsstring := list N.

(** ASCII literal to JavaScript string. *)
Definition js (s : string) : jsstring :=
  map N_of_ascii (list_ascii_of_string s).

Definition str_eqb (a b : jsstring) : bool :=
  if list_eq_dec N.eq_dec a b then true else false.

(** The values the string-typed parameters of the site's functions can
    take: a string, or one of the two nullish values. *)
Inductive value :=
| JUndefined
| JNull
| JStr (s : jsstring).

(** ToBoolean: nullish values and the empty string are falsy. *)
Definition truthy (v : value) : bool :=
  match v with
  | JStr (_ :: _) => true
  | _ => false
  end.

(** ToString, as performed by [String(v)] and by template literals. *)
Definition to_string (v : value) : jsstring :=
  match v with
  | JUndefined => js "undefined"
  | JNull => js "null"
  | JStr s => s
  end.

(** [v ?? d] *)
Definition nullish_or (v : value) (d : value) : value :=
  match v with
  | JUndefined | JNull => d
  | _ => v
  end.

(** A parameter default [p = d] applies when the argument is undefined. *)
Definition param_default (v : value) (d : value) : value :=
  match v with
  | JUndefined => d
  | _ => v
  end.

Definition is_string (v : value) : bool :=
  match v with JStr _ => true | _ => false end.

(** WhiteSpace and LineTerminator code units: what [String.prototype.trim]
    strips and what the regular-expression class [\s] matches. *)
Definition is_space (c : N) : bool :=
  ((9 <=? c) && (c <=? 13) || (c =? 32) || (c =? 160) || (c =? 5760)
   || (8192 <=? c) && (c <=? 8202) || (c =? 8232) || (c =? 8233)
   || (c =? 8239) || (c =? 8287) || (c =? 12288) || (c =? 65279))%N.

Fixpoint trimStart (s : jsstring) : jsstring :=
  match s with
  | c :: s' => if is_space c then trimStart s' else s
  | [] => []
  end.

Definition trimEnd (s : jsstring) : jsstring := rev (trimStart (rev s)).

Definition trim (s : jsstring) : jsstring := trimEnd (trimStart s).

(** [Array.prototype.join] *)
Fixpoint join (sep : jsstring) (l : list jsstring) : jsstring :=
  match l with
  | [] => []
  | [x] => x
  | x :: l' => x ++ sep ++ join sep l'
  end.

(** Decimal rendering of a non-negative integer (Number to string). *)
Definition dec (n : N) : jsstring :=
  js (DecimalString.NilZero.string_of_uint (N.to_uint n)).

End Js.
Import Js.

(** ** Regular expressions

    The patterns of the site use character classes, concatenation,
    alternation and (bounded) repetition, and are all anchored at both
    ends.  [regex_test] decides whether the whole string is in the
    language, by Brzozowski derivatives. *)

Module Regex.

Inductive regex :=
| Void
| Eps
| Cls (p : N -> bool)
| Cat (r1 r2 : regex)
| Alt (r1 r2 : regex)
| Star (r : regex).

Fixpoint nullable (r : regex) : bool :=
  match r with
  | Void => false
  | Eps => true
  | Cls _ => false
  | Cat r1 r2 => nullable r1 && nullable r2
  | Alt r1 r2 => nullable r1 || nullable r2
  | Star _ => true
  end.

Fixpoint deriv (c : N) (r : regex) : regex :=
  match r with
  | Void => Void
  | Eps => Void
  | Cls p => if p c then Eps else Void
  | Cat r1 r2 =>
      if nullable r1 then Alt (Cat (deriv c r1) r2) (deriv c r2)
      else Cat (deriv c r1) r2
  | Alt r1 r2 => Alt (deriv c r1) (deriv c r2)
  | Star r1 => Cat (deriv c r1) (Star r1)
  end.

(** [/^r$/.test(s)] *)
Fixpoint regex_test (r : regex) (s : jsstring) : bool :=
  match s with
  | [] => nullable r
  | c :: s' => regex_test (deriv c r) s'
  end.

Definition Chr (c : N) : regex := Cls (N.eqb c).
Definition Plus (r : regex) : regex := Cat r (Star r).
Definition Opt (r : regex) : regex := Alt r Eps.

(** The literal string [s]. *)
Fixpoint Lit (s : jsstring) : regex :=
  match s with
  | [] => Eps
  | c :: s' => Cat (Chr c) (Lit s')
  end.

(** [r{n}] *)
Fixpoint Rep (n : nat) (r : regex) : regex :=
  match n with
  | O => Eps
  | S n' => Cat r (Rep n' r)
  end.

(** [r{0,n}] *)
Fixpoint RepUpTo (n : nat) (r : regex) : regex :=
  match n with
  | O => Eps
  | S n' => Opt (Cat r (RepUpTo n' r))
  end.

(** [r{lo,hi}] *)
Definition RepRange (lo hi : nat) (r : regex) : regex :=
  Cat (Rep lo r) (RepUpTo (hi - lo) r).

(** The language of a pattern. *)
Inductive matches : regex -> jsstring -> Prop :=
| MEps : matches Eps []
| MCls p c : p c = true -> matches (Cls p) [c]
| MCat r1 r2 s1 s2 :
    matches r1 s1 -> matches r2 s2 -> matches (Cat r1 r2) (s1 ++ s2)
| MAltL r1 r2 s : matches r1 s -> matches (Alt r1 r2) s
| MAltR r1 r2 s : matches r2 s -> matches (Alt r1 r2) s
| MStar0 r : matches (Star r) []
| MStarS r s1 s2 :
    matches r s1 -> matches (Star r) s2 -> matches (Star r) (s1 ++ s2).

End Regex.
Import Regex.

(** ** constants.js *)

Module Constants.

Definition PROJECT_STATE_LARGE : Z := 1.
Definition PROJECT_STATE_SMALL : Z := 0.
Definition PROJECT_TYPE_PERSONAL : Z := 1.
Definition PROJECT_TYPE_SCHOOL : Z := 0.
Definition LANGUAGE_ENGLISH : Z := 1.
Definition LANGUAGE_FRENCH : Z := 0.

(** [incrementProjectCounter]: pre-increment of the module-level counter;
    returns the new value together with the new counter. *)
Definition incrementProjectCounter (projectCounter : N) : N * N :=
  (N.succ projectCounter, N.succ projectCounter).

End Constants.
Import Constants.

(** ** Observable effects

    Calls that leave the module under study are recorded in a trace. *)

Inductive kind := KError | KSuccess | KInfo.

Definition kind_eqb (a b : kind) : bool :=
  match a, b with
  | KError, KError | KSuccess, KSuccess | KInfo, KInfo => true
  | _, _ => false
  end.

(** The type argument [showMessage] receives from its three wrappers. *)
Definition kind_name (k : kind) : jsstring :=
  match k with
  | KError => js "error"
  | KSuccess => js "success"
  | KInfo => js "info"
  end.

Inductive level := LvLog | LvWarn | LvError.

(** An argument of a console call. *)
Inductive logarg :=
| AStr (s : jsstring)
| AVal (v : value)
| APayload (target title : value) (content : jsstring).

(** The template parameters handed to [emailjs.send]. *)
Record templateParams := {
  to_email : value;
  from_name : jsstring;
  message : jsstring;
  reply_to : value
}.

Inductive event :=
| Notify (k : kind) (msg : jsstring)
| Console (lv : level) (args : list logarg)
| EmailInit (key : value)
| EmailSend (service template : value) (params : templateParams)
| FormReset.

Definition showError (msg : jsstring) : event := Notify KError msg.
Definition showSuccess (msg : jsstring) : event := Notify KSuccess msg.
Definition showInfo (msg : jsstring) : event := Notify KInfo msg.

(** ** security.js *)

Module Security.

Definition amp : N := 38.
Definition lt : N := 60.
Definition gt : N := 62.
Definition quot : N := 34.
Definition apos : N := 39.
Definition backslash : N := 92.

(** The replacement table [map] of [escapeHtml]; [None] for a code unit
    the character class of its pattern (ampersand, less-than,
    greater-than, double quote, apostrophe) does not match. *)
Definition html_entity (c : N) : option jsstring :=
  if (c =? amp)%N then Some (js "&amp;")
  else if (c =? lt)%N then Some (js "&lt;")
  else if (c =? gt)%N then Some (js "&gt;")
  else if (c =? quot)%N then Some (js "&quot;")
  else if (c =? apos)%N then Some (js "&#039;")
  else None.

(** [safeText.replace(/[...]/g, char => map[char])] *)
Fixpoint replace_entities (s : jsstring) : jsstring :=
  match s with
  | [] => []
  | c :: s' =>
      match html_entity c with
      | Some e => e ++ replace_entities s'
      | None => c :: replace_entities s'
      end
  end.

(** [escapeHtml(text)]: [String(text ?? '')] followed by the global
    replacement. *)
Definition escapeHtml (text : value) : jsstring :=
  replace_entities (to_string (nullish_or text (JStr []))).

End Security.
Import Security.

(** ** validation.js *)

Module Validation.

Definition at_sign : N := 64.
Definition dot : N := 46.
Definition plus_sign : N := 43.

(** The class written [^\s@] in the source. *)
Definition not_space_at (c : N) : bool :=
  negb (is_space c) && negb (c =? at_sign)%N.

(** [/^[^\s@]+@[^\s@]+\.[^\s@]+$/] *)
Definition emailRegex : regex :=
  Cat (Plus (Cls not_space_at))
      (Cat (Chr at_sign)
           (Cat (Plus (Cls not_space_at))
                (Cat (Chr dot) (Plus (Cls not_space_at))))).

Definition isValidEmail (email : value) : bool :=
  if negb (truthy email) || negb (is_string email) then false
  else regex_test emailRegex (trim (to_string email)).

Definition digit (c : N) : bool := ((48 <=? c) && (c <=? 57))%N.
Definition digit19 (c : N) : bool := ((49 <=? c) && (c <=? 57))%N.

(** The class of the cleaning pattern: whitespace, dash, dot and the
    two parentheses. *)
Definition phone_separator (c : N) : bool :=
  (is_space c || (c =? 45) || (c =? dot) || (c =? 40) || (c =? 41))%N.

(** [/^(\+33[1-9][0-9]{8}|0[1-9][0-9]{8}|\+[1-9][0-9]{1,2}[0-9]{6,14})$/] *)
Definition phoneRegex : regex :=
  Alt (Cat (Lit (js "+33")) (Cat (Cls digit19) (Rep 8 (Cls digit))))
      (Alt (Cat (Lit (js "0")) (Cat (Cls digit19) (Rep 8 (Cls digit))))
           (Cat (Chr plus_sign)
                (Cat (Cls digit19)
                     (Cat (RepRange 1 2 (Cls digit))
                          (RepRange 6 14 (Cls digit)))))).

Definition isValidPhoneNumber (phone : value) : bool :=
  if negb (truthy phone) || negb (is_string phone) then false
  else
    let cleaned :=
      filter (fun c => negb (phone_separator c)) (to_string phone) in
    regex_test phoneRegex cleaned.

(** [v.trim()] for a string receiver.  On a nullish receiver the call
    raises a TypeError; every use in this module sits behind a
    truthiness test, and the model gives the empty string there. *)
Definition trim_of (v : value) : jsstring :=
  match v with
  | JStr s => trim s
  | _ => []
  end.

(** [!v || v.trim() === ''] *)
Definition blank (v : value) : bool :=
  negb (truthy v) || str_eqb (trim_of v) [].

(** The object returned on success. *)
Record submission := {
  success : bool;
  name : jsstring;
  email : jsstring;
  phoneNumber : jsstring;
  company : jsstring;
  finalComment : jsstring
}.

Definition msg_name_required := js "Name is required".
Definition msg_company_required := js "Company is required".
Definition msg_contact_required :=
  js "Please provide either an email or phone number".
Definition msg_invalid_email := js "Please provide a valid email address".
Definition msg_invalid_phone :=
  js "Please provide a valid phone number (French +33 or international format)".

Definition default_comment_tail := js " was interested in your portfolio".

(** [validateContactForm]: the trace of notifications it raises and its
    result; [None] stands for the returned [false]. *)
Definition validateContactForm (name email phoneNumber company comment : value)
  : list event * option submission :=
  if blank name then ([showError msg_name_required], None)
  else if blank company then ([showError msg_company_required], None)
  else if blank email && blank phoneNumber
  then ([showError msg_contact_required], None)
  else if negb (blank email) && negb (isValidEmail email)
  then ([showError msg_invalid_email], None)
  else if negb (blank phoneNumber) && negb (isValidPhoneNumber phoneNumber)
  then ([showError msg_invalid_phone], None)
  else
    let finalComment :=
      if negb (blank comment) then to_string comment
      else to_string name ++ js " from " ++ to_string company
           ++ default_comment_tail in
    ([], Some {| success := true;
                 name := trim_of name;
                 email := if truthy email then trim_of email else [];
                 phoneNumber :=
                   if truthy phoneNumber then trim_of phoneNumber else [];
                 company := trim_of company;
                 finalComment := finalComment |}).

End Validation.
Import Validation.

(** ** email.js *)

Module Email.

(** What [sendEmail] reads from its surroundings: whether the EmailJS
    global is defined, [location.hostname], and the three credential
    constants the site operator writes into the function body. *)
Record emailEnv := {
  emailjs_loaded : bool;
  hostname : jsstring;
  serviceID : value;
  templateID : value;
  publicKey : value
}.

Definition placeholder_service := js "service_id".
Definition placeholder_template := js "template_id".
Definition placeholder_key := js "public_key".

(** The credentials as they stand in the source. *)
Definition shipped_env (loaded : bool) (host : jsstring) : emailEnv :=
  {| emailjs_loaded := loaded;
     hostname := host;
     serviceID := JStr placeholder_service;
     templateID := JStr placeholder_template;
     publicKey := JStr placeholder_key |}.

(** [v === s] for a string literal [s]. *)
Definition is_literal (v : value) (s : jsstring) : bool :=
  match v with
  | JStr x => str_eqb x s
  | _ => false
  end.

Definition isValidCredentials (env : emailEnv) : bool :=
  truthy (serviceID env) && truthy (templateID env) && truthy (publicKey env)
  && negb (is_literal (serviceID env) placeholder_service)
  && negb (is_literal (templateID env) placeholder_template)
  && negb (is_literal (publicKey env) placeholder_key).

Definition isLocalDev (env : emailEnv) : bool :=
  str_eqb (hostname env) (js "localhost")
  || str_eqb (hostname env) (js "127.0.0.1").

Definition msg_unavailable :=
  js "Email service is not available. Please try again later.".
Definition msg_invalid_recipient := js "Invalid recipient email address.".
(** The preview notice; its dash is U+2014. *)
Definition msg_preview :=
  js "Preview only " ++ [8212%N]
  ++ js " no email was sent. EmailJS is not configured.".
Definition msg_sent := js "Email sent successfully!".
Definition msg_failed := js "Failed to send email. Please try again later.".

Definition newline : N := 10.

(** The body assembled from the content and the contact footer. *)
Definition emailContent (content senderEmail senderPhone : value) : jsstring :=
  let sanitizedContent := escapeHtml content in
  let contactInfo :=
    (if truthy senderEmail
     then [js "Email: " ++ escapeHtml senderEmail] else [])
    ++ (if truthy senderPhone
        then [js "Phone: " ++ escapeHtml senderPhone] else []) in
  join [newline]
       ([sanitizedContent; []; js "---"; js "Contact Information:"]
        ++ contactInfo).

Definition credential_warnings (env : emailEnv) : list event :=
  [Console LvWarn
     [AStr (js "EmailJS credentials are not configured. Missing or placeholder values detected:")]]
  ++ (if is_literal (serviceID env) placeholder_service
         || negb (truthy (serviceID env))
      then [Console LvWarn [AStr (js "  - serviceID is missing or placeholder")]]
      else [])
  ++ (if is_literal (templateID env) placeholder_template
         || negb (truthy (templateID env))
      then [Console LvWarn [AStr (js "  - templateID is missing or placeholder")]]
      else [])
  ++ (if is_literal (publicKey env) placeholder_key
         || negb (truthy (publicKey env))
      then [Console LvWarn [AStr (js "  - publicKey is missing or placeholder")]]
      else []).

(** [sendEmail]: the trace of the synchronous part of the call and the
    new value of the module variable [emailJsInitialized]. *)
Definition sendEmail (env : emailEnv) (emailJsInitialized : bool)
    (target title content senderEmail0 senderPhone0 : value)
  : list event * bool :=
  let senderEmail := param_default senderEmail0 (JStr []) in
  let senderPhone := param_default senderPhone0 (JStr []) in
  if negb (emailjs_loaded env) then
    ([showError msg_unavailable;
      Console LvError [AStr (js "EmailJS is not loaded.")]],
     emailJsInitialized)
  else if negb (truthy target) || negb (isValidEmail target) then
    ([showError msg_invalid_recipient;
      Console LvError [AStr (js "Invalid target email:"); AVal target]],
     emailJsInitialized)
  else
    let body := emailContent content senderEmail senderPhone in
    if negb (isValidCredentials env) then
      (credential_warnings env
       ++ (if isLocalDev env
           then [Console LvLog
                   [AStr (js "Email would be sent with the following content:")];
                 Console LvLog [APayload target title body]]
           else [])
       ++ [showInfo msg_preview],
       emailJsInitialized)
    else
      let params := {| to_email := target;
                       from_name := escapeHtml title;
                       message := body;
                       reply_to := senderEmail |} in
      ((if negb emailJsInitialized then [EmailInit (publicKey env)] else [])
       ++ [EmailSend (serviceID env) (templateID env) params],
       true).

(** The two continuations attached to the promise of [emailjs.send]. *)
Definition on_send_fulfilled : list event :=
  [showSuccess msg_sent; FormReset].

Definition on_send_rejected (error : value) : list event :=
  [showError msg_failed;
   Console LvError [AStr (js "Email error:"); AVal error]].

(** An event that hands data to the delivery service. *)
Definition is_delivery (e : event) : bool :=
  match e with
  | EmailInit _ | EmailSend _ _ _ => true
  | _ => false
  end.

(** A console call that prints the would-be payload. *)
Definition logs_payload (e : event) : bool :=
  match e with
  | Console _ args =>
      existsb (fun a => match a with APayload _ _ _ => true | _ => false end)
              args
  | _ => false
  end.

End Email.
Import Email.

(** ** language.js *)

Module Language.

(** Canonicalisation of the case-insensitive flag on the ASCII range;
    a code unit outside it never canonicalises to an ASCII letter. *)
Definition ascii_upper (c : N) : N :=
  if ((97 <=? c) && (c <=? 122))%N then (c - 32)%N else c.

Definition eq_ci (p c : N) : bool := (ascii_upper p =? ascii_upper c)%N.

Fixpoint all2 (f : N -> N -> bool) (p s : jsstring) : bool :=
  match p, s with
  | [], [] => true
  | a :: p', b :: s' => f a b && all2 f p' s'
  | _, _ => false
  end.

(** [/lit$/i.test(s)] for a literal [lit]. *)
Definition ends_with_ci (lit s : jsstring) : bool :=
  (length lit <=? length s)%nat
  && all2 eq_ci lit (skipn (length s - length lit) s).

(** [s.endsWith(lit)] *)
Definition endsWith (lit s : jsstring) : bool :=
  (length lit <=? length s)%nat
  && str_eqb lit (skipn (length s - length lit) s).

Definition ext_html := js ".html".
Definition fr_html := js "-fr.html".

(** Default a route that does not name a page to its index page. *)
Definition normalizePath (currentPath : jsstring) : jsstring :=
  if negb (ends_with_ci ext_html currentPath) then
    (if negb (endsWith (js "/") currentPath)
     then currentPath ++ js "/" else currentPath) ++ js "index.html"
  else currentPath.

(** [p.replace(/-fr(\.html)$/i, '$1')] *)
Definition removeFr (p : jsstring) : jsstring :=
  if ends_with_ci fr_html p
  then firstn (length p - 8) p ++ skipn (length p - 5) p
  else p.

(** [p.replace(/(\.html)$/i, '-fr$1')] *)
Definition addFr (p : jsstring) : jsstring :=
  if ends_with_ci ext_html p
  then firstn (length p - 5) p ++ js "-fr" ++ skipn (length p - 5) p
  else p.

(** The path computed for the requested language. *)
Definition newPath (lang : Z) (currentPath : jsstring) : jsstring :=
  let normalizedPath := normalizePath currentPath in
  if (lang =? LANGUAGE_ENGLISH)%Z then removeFr normalizedPath
  else if negb (ends_with_ci fr_html normalizedPath)
       then addFr normalizedPath
       else normalizedPath.

(** The parts of [new URL(window.location.href)] the function touches. *)
Record url := {
  origin : jsstring;
  pathname : jsstring;
  search : jsstring;
  hash : jsstring
}.

(** [url.toString()] *)
Definition href (u : url) : jsstring :=
  origin u ++ pathname u ++ search u ++ hash u.

Definition msg_invalid_language :=
  js "Invalid language parameter. Use LANGUAGE.ENGLISH or LANGUAGE.FRENCH".

(** [switchLanguage]: the console trace and the URL assigned to
    [window.location.href], if any.  The new path is the current,
    already serialised, path with ASCII text inserted or removed, and
    the [pathname] setter is taken to store it as given. *)
Definition switchLanguage (lang : Z) (current : url)
  : list event * option url :=
  if negb (lang =? LANGUAGE_ENGLISH)%Z && negb (lang =? LANGUAGE_FRENCH)%Z
  then ([Console LvError [AStr msg_invalid_language]], None)
  else
    let currentPath := pathname current in
    let target := newPath lang currentPath in
    if negb (str_eqb target currentPath)
    then ([], Some {| origin := origin current;
                      pathname := target;
                      search := search current;
                      hash := hash current |})
    else ([], None).

End Language.
Import Language.

(** ** Platform functions used by projects.js and security.js

    [encodeURIComponent] (ECMAScript), [CSS.escape] (CSSOM), the string
    token of a selector (CSS Syntax) and the double-quoted attribute
    value of the HTML tokenizer, each on the inputs the site gives them. *)

Module Platform.

Definition is_high_surrogate (c : N) : bool := ((55296 <=? c) && (c <=? 56319))%N.
Definition is_low_surrogate (c : N) : bool := ((56320 <=? c) && (c <=? 57343))%N.
Definition is_surrogate (c : N) : bool := ((55296 <=? c) && (c <=? 57343))%N.

Definition is_upper (c : N) : bool := ((65 <=? c) && (c <=? 90))%N.
Definition is_lower (c : N) : bool := ((97 <=? c) && (c <=? 122))%N.
Definition is_alnum (c : N) : bool := is_upper c || is_lower c || digit c.

(** The code point of a surrogate pair. *)
Definition code_point (hi lo : N) : N :=
  ((hi - 55296) * 1024 + (lo - 56320) + 65536)%N.

(** UTF-16 encoding of a code point. *)
Definition utf16 (cp : N) : jsstring :=
  if (cp <? 65536)%N then [cp]
  else [(55296 + (cp - 65536) / 1024)%N; (56320 + (cp - 65536) mod 1024)%N].

(** UTF-8 encoding of a code point, as a list of octets. *)
Definition utf8 (cp : N) : list N :=
  (if cp <? 128 then [cp]
   else if cp <? 2048 then [192 + cp / 64; 128 + cp mod 64]
   else if cp <? 65536 then
     [224 + cp / 4096; 128 + (cp / 64) mod 64; 128 + cp mod 64]
   else
     [240 + (cp / 262144) mod 8; 128 + (cp / 4096) mod 64;
      128 + (cp / 64) mod 64; 128 + cp mod 64])%N.

Definition hex_upper_digit (d : N) : N :=
  if (d <? 10)%N then (48 + d)%N else (55 + d)%N.

Definition hex_lower_digit (d : N) : N :=
  if (d <? 10)%N then (48 + d)%N else (87 + d)%N.

Definition percent : N := 37.

(** One octet as a percent escape with two upper-case digits. *)
Definition pct (octet : N) : jsstring :=
  [percent; hex_upper_digit ((octet / 16) mod 16);
   hex_upper_digit (octet mod 16)].

(** The characters [encodeURIComponent] leaves alone: letters, digits
    and the marks - _ . ! ~ * ' ( ) *)
Definition uri_unreserved (c : N) : bool :=
  (is_alnum c || (c =? 45) || (c =? 95) || (c =? 46) || (c =? 33)
   || (c =? 126) || (c =? 42) || (c =? 39) || (c =? 40) || (c =? 41))%N.

Definition prepend {A} (pre : list A) (r : option (list A)) : option (list A) :=
  option_map (app pre) r.

(** [encodeURIComponent(s)]; [None] when it raises a URIError on an
    unpaired surrogate. *)
Fixpoint encodeURIComponent (s : jsstring) : option jsstring :=
  match s with
  | [] => Some []
  | c :: s' =>
      if uri_unreserved c then prepend [c] (encodeURIComponent s')
      else if is_high_surrogate c then
        match s' with
        | c2 :: s'' =>
            if is_low_surrogate c2
            then prepend (concat (map pct (utf8 (code_point c c2))))
                         (encodeURIComponent s'')
            else None
        | [] => None
        end
      else if is_low_surrogate c then None
      else prepend (concat (map pct (utf8 c))) (encodeURIComponent s')
  end.

(** A code unit below 0x100 in lower-case hexadecimal, without padding. *)
Definition hex_lower (c : N) : jsstring :=
  if (c <? 16)%N then [hex_lower_digit c]
  else [hex_lower_digit ((c / 16) mod 16); hex_lower_digit (c mod 16)].

(** CSSOM: escape a character as code point. *)
Definition escape_as_code_point (c : N) : jsstring :=
  backslash :: hex_lower c ++ [32%N].

(** CSSOM, serialize an identifier: the treatment of the code unit at
    index [idx] of a string of length [len] whose first unit is [first]. *)
Definition css_escape_unit (idx : nat) (first : N) (len : nat) (c : N)
  : jsstring :=
  if (c =? 0)%N then [65533%N]
  else if ((1 <=? c) && (c <=? 31) || (c =? 127))%N
  then escape_as_code_point c
  else if (idx =? 0)%nat && digit c then escape_as_code_point c
  else if (idx =? 1)%nat && digit c && (first =? 45)%N
  then escape_as_code_point c
  else if (idx =? 0)%nat && (len =? 1)%nat && (c =? 45)%N
  then [backslash; c]
  else if ((128 <=? c) || (c =? 45) || (c =? 95))%N || is_alnum c then [c]
  else [backslash; c].

Fixpoint css_escape_from (idx : nat) (first : N) (len : nat) (s : jsstring)
  : jsstring :=
  match s with
  | [] => []
  | c :: s' =>
      css_escape_unit idx first len c ++ css_escape_from (S idx) first len s'
  end.

(** [CSS.escape(s)] *)
Definition CSS_escape (s : jsstring) : jsstring :=
  css_escape_from 0 (hd 0%N s) (length s) s.

(** CSS Syntax, preprocessing of the input stream. *)
Fixpoint css_preprocess (s : jsstring) : jsstring :=
  match s with
  | [] => []
  | c :: s' =>
      if (c =? 13)%N then
        match s' with
        | c2 :: s'' =>
            if (c2 =? 10)%N then 10%N :: css_preprocess s''
            else 10%N :: css_preprocess s'
        | [] => [10%N]
        end
      else if (c =? 12)%N then 10%N :: css_preprocess s'
      else if (c =? 0)%N then 65533%N :: css_preprocess s'
      else if is_high_surrogate c then
        match s' with
        | c2 :: s'' =>
            if is_low_surrogate c2 then c :: c2 :: css_preprocess s''
            else 65533%N :: css_preprocess s'
        | [] => [65533%N]
        end
      else if is_low_surrogate c then 65533%N :: css_preprocess s'
      else c :: css_preprocess s'
  end.

Definition hex_value (c : N) : option N :=
  if digit c then Some (c - 48)%N
  else if ((97 <=? c) && (c <=? 102))%N then Some (c - 87)%N
  else if ((65 <=? c) && (c <=? 70))%N then Some (c - 55)%N
  else None.

Definition css_whitespace (c : N) : bool :=
  ((c =? 10) || (c =? 9) || (c =? 32))%N.

(** The code point a hexadecimal escape stands for. *)
Definition escaped_code_point (v : N) : jsstring :=
  if ((v =? 0) || is_surrogate v || (1114111 <? v))%N then [65533%N]
  else utf16 v.

(** Where the tokenizer is inside a string token: between characters,
    right after a backslash, or inside a hexadecimal escape of which [n]
    digits with value [v] have been read. *)
Inductive tstate :=
| TPlain
| TEsc
| THex (n : nat) (v : N).

(** Put [pre] in front of the value of a token that is being read. *)
Definition with_value (pre : jsstring) (r : option (jsstring * jsstring))
  : option (jsstring * jsstring) :=
  match pre with
  | [] => r
  | _ =>
      match r with
      | Some (v, rest) => Some (pre ++ v, rest)
      | None => None
      end
  end.

(** CSS Syntax, consume a string token ended by a double quote: the
    value of the token and the input after the closing quote.  [None]
    for a bad string (a raw newline) and for a string the input ends
    inside of. *)
Fixpoint consume_string (st : tstate) (l : jsstring)
  : option (jsstring * jsstring) :=
  match l with
  | [] => None
  | c :: l' =>
      let plain (pre : jsstring) :=
        if (c =? quot)%N then Some (pre, l')
        else if (c =? 10)%N then None
        else if (c =? backslash)%N
        then with_value pre (consume_string TEsc l')
        else with_value (pre ++ [c]) (consume_string TPlain l') in
      match st with
      | TPlain => plain []
      | TEsc =>
          match hex_value c with
          | Some d => consume_string (THex 1 d) l'
          | None =>
              if (c =? 10)%N then consume_string TPlain l'
              else with_value [c] (consume_string TPlain l')
          end
      | THex n v =>
          match hex_value c with
          | Some d =>
              if (n <? 6)%nat
              then consume_string (THex (S n) (16 * v + d)%N) l'
              else plain (escaped_code_point v)
          | None =>
              if css_whitespace c
              then with_value (escaped_code_point v)
                              (consume_string TPlain l')
              else plain (escaped_code_point v)
          end
      end
  end.

(** [strip_prefix p s]: the rest of [s] after its prefix [p]. *)
Fixpoint strip_prefix (p s : jsstring) : option jsstring :=
  match p, s with
  | [], _ => Some s
  | a :: p', b :: s' => if (a =? b)%N then strip_prefix p' s' else None
  | _ :: _, [] => None
  end.

(** The opening of the selector that [highlightSkill] builds, up to and
    including the quote that starts the string token. *)
Definition selector_open : jsstring := js "[data-skill=" ++ [quot].

(** The value a selector of the form [[data-skill="..."]] compares the
    attribute with; [None] for any text that is not of this form
    (whether the browser rejects it or reads it as another selector). *)
Definition attr_selector_value (selector : jsstring) : option jsstring :=
  match strip_prefix selector_open (css_preprocess selector) with
  | Some body =>
      match consume_string TPlain body with
      | Some (v, rest) => if str_eqb rest (js "]") then Some v else None
      | None => None
      end
  | None => None
  end.

(** HTML tokenizer, attribute value (double-quoted) state: the value
    and the input after the closing quote.  [None] where a character
    reference or a carriage return would have to be interpreted, and
    where the input ends inside the value. *)
Fixpoint html_attr_value (s : jsstring) : option (jsstring * jsstring) :=
  match s with
  | [] => None
  | c :: s' =>
      if (c =? quot)%N then Some ([], s')
      else if ((c =? amp) || (c =? 13))%N then None
      else if (c =? 0)%N then with_value [65533%N] (html_attr_value s')
      else with_value [c] (html_attr_value s')
  end.

End Platform.
Import Platform.

(** ** security.js, continued: keys and selector values *)

Module Keys.

(** [normalizeSkillKey(skill)]: [encodeURIComponent(String(skill))];
    [None] when the encoder raises a URIError. *)
Definition normalizeSkillKey (skill : value) : option jsstring :=
  encodeURIComponent (to_string skill).

(** The class of the fallback pattern of [safeCssEscape]: the ASCII
    punctuation except dash and underscore. *)
Definition css_special (c : N) : bool :=
  ((33 <=? c) && (c <=? 47) && negb (c =? 45)
   || (58 <=? c) && (c <=? 64)
   || (91 <=? c) && (c <=? 94)
   || (c =? 96)
   || (123 <=? c) && (c <=? 126))%N.

(** The fallback replacement: a backslash before each special character. *)
Fixpoint fallback_escape (s : jsstring) : jsstring :=
  match s with
  | [] => []
  | c :: s' =>
      if css_special c then backslash :: c :: fallback_escape s'
      else c :: fallback_escape s'
  end.

(** [safeCssEscape(value)]; [has_css_escape] tells whether the browser
    provides [CSS.escape]. *)
Definition safeCssEscape (has_css_escape : bool) (v : value) : jsstring :=
  let stringValue := to_string (nullish_or v (JStr [])) in
  if has_css_escape then CSS_escape stringValue
  else fallback_escape stringValue.

End Keys.
Import Keys.

(** ** projects.js *)

Module Projects.

(** The part of a DOM element the module reads and writes: the
    [data-expanded] and [data-skill] attributes and the class list. *)
Record element := {
  data_expanded : option jsstring;
  data_skill : option jsstring;
  classList : list jsstring
}.

Definition contains (tok : jsstring) (l : list jsstring) : bool :=
  existsb (str_eqb tok) l.

(** [classList.add(tok)] *)
Definition class_add (tok : jsstring) (l : list jsstring) : list jsstring :=
  if contains tok l then l else l ++ [tok].

(** [classList.remove(tok)] *)
Definition class_remove (tok : jsstring) (l : list jsstring) : list jsstring :=
  filter (fun t => negb (str_eqb tok t)) l.

(** [classList.toggle(tok, force)] *)
Definition class_toggle (tok : jsstring) (force : bool) (l : list jsstring)
  : list jsstring :=
  if force then class_add tok l else class_remove tok l.

Definition project_large := js "project-large".
Definition project_small := js "project-small".
Definition project_box := js "project-box".
Definition skill_highlighted := js "skill-highlighted".

Definition is_one (v : option jsstring) : bool :=
  match v with
  | Some s => str_eqb s (js "1")
  | None => false
  end.

(** [toggleProjectBox(projectElement)]; [None] is a null or undefined
    reference, and the result is the element as the call leaves it. *)
Definition toggleProjectBox (projectElement : option element)
  : option element :=
  match projectElement with
  | None => None
  | Some e =>
      let isExpanded := is_one (data_expanded e) in
      Some {| data_expanded := Some (if isExpanded then js "0" else js "1");
              data_skill := data_skill e;
              classList :=
                class_toggle project_small isExpanded
                  (class_toggle project_large (negb isExpanded)
                     (classList e)) |}
  end.

(** The skill list argument: absent, null, or an array of strings. *)
Inductive skillArg :=
| SkUndefined
| SkNull
| SkArray (l : list jsstring).

(** What [developProject] reads from its surroundings: the result of
    [crypto.randomUUID()] when the browser has it, and [Date.now()]. *)
Record renderEnv := {
  randomUUID : option jsstring;
  dateNow : N
}.

Inductive outcome (A : Type) :=
| Returned (a : A)
| ThrewURIError.
Arguments Returned {A} a.
Arguments ThrewURIError {A}.

Definition attr (name : string) (v : jsstring) : jsstring :=
  js name ++ js "=" ++ [quot] ++ v ++ [quot].

Definition nl : jsstring := [10%N].
Definition spaces (n : nat) : jsstring := repeat 32%N n.

(** The markup of one skill tag, given its key. *)
Definition skill_tag (skillKey safeText : jsstring) : jsstring :=
  js "<span " ++ attr "class" (js "skill-tag") ++ js " "
  ++ attr "data-skill" skillKey ++ js ">" ++ safeText ++ js "</span>".

(** The callback mapped over the skill list. *)
Definition render_skill (skill : jsstring) : option jsstring :=
  let safeText := escapeHtml (JStr (to_string (JStr skill))) in
  match normalizeSkillKey (JStr skill) with
  | Some skillKey => Some (skill_tag skillKey safeText)
  | None => None
  end.

Fixpoint render_skills (l : list jsstring) : option (list jsstring) :=
  match l with
  | [] => Some []
  | skill :: l' =>
      match render_skill skill with
      | Some tag =>
          match render_skills l' with
          | Some tags => Some (tag :: tags)
          | None => None
          end
      | None => None
      end
  end.

Definition sizeClass (big : Z) : jsstring :=
  if (big =? PROJECT_STATE_LARGE)%Z then project_large else project_small.

(** The template literal of the card. *)
Definition card_html (projectId : jsstring) (big : Z)
    (escapedCategory typeLabel escapedContent skillsHtml : jsstring)
  : jsstring :=
  nl ++ spaces 8 ++ js "<div " ++ attr "id" projectId ++ js " "
  ++ attr "class" (project_box ++ js " " ++ sizeClass big) ++ js " "
  ++ attr "data-expanded" (dec (Z.to_N big)) ++ js " "
  ++ attr "data-toggle" (js "project") ++ js ">"
  ++ nl ++ spaces 12 ++ js "<div " ++ attr "class" (js "project-header")
  ++ js ">"
  ++ nl ++ spaces 16 ++ js "<h3 " ++ attr "class" (js "project-title")
  ++ js ">" ++ escapedCategory ++ js "</h3>"
  ++ nl ++ spaces 16 ++ js "<span " ++ attr "class" (js "project-type")
  ++ js ">" ++ typeLabel ++ js "</span>"
  ++ nl ++ spaces 12 ++ js "</div>"
  ++ nl ++ spaces 12 ++ js "<div " ++ attr "class" (js "project-content")
  ++ js ">"
  ++ nl ++ spaces 16 ++ escapedContent
  ++ nl ++ spaces 12 ++ js "</div>"
  ++ nl ++ spaces 12 ++ skillsHtml
  ++ nl ++ spaces 8 ++ js "</div>"
  ++ nl ++ spaces 4.

Definition console_error (msg : string) : event :=
  Console LvError [AStr (js msg)].

(** [developProject]: the console trace, the markup (or the exception
    raised while encoding a skill) and the new value of the counter. *)
Definition developProject (env : renderEnv) (projectCounter : N)
    (big type : Z) (category shortInfo longInfo : value)
    (skillList0 : skillArg)
  : list event * outcome jsstring * N :=
  let skillList :=
    match skillList0 with SkUndefined => SkArray [] | _ => skillList0 end in
  if negb (big =? PROJECT_STATE_LARGE)%Z && negb (big =? PROJECT_STATE_SMALL)%Z
  then ([console_error "Invalid size parameter. Use PROJECT_STATE.LARGE or PROJECT_STATE.SMALL"],
        Returned [], projectCounter)
  else if negb (type =? PROJECT_TYPE_PERSONAL)%Z
          && negb (type =? PROJECT_TYPE_SCHOOL)%Z
  then ([console_error "Invalid type parameter. Use PROJECT_TYPE.PERSONAL or PROJECT_TYPE.SCHOOL"],
        Returned [], projectCounter)
  else if negb (truthy category) || negb (is_string category)
  then ([console_error "Category is required and must be a string"],
        Returned [], projectCounter)
  else if negb (truthy shortInfo) || negb (is_string shortInfo)
  then ([console_error "Short info is required and must be a string"],
        Returned [], projectCounter)
  else if negb (truthy longInfo) || negb (is_string longInfo)
  then ([console_error "Long info is required and must be a string"],
        Returned [], projectCounter)
  else
    match skillList with
    | SkArray skills =>
        let '(uniqueId, counter') :=
          match randomUUID env with
          | Some u => (u, projectCounter)
          | None =>
              let '(n, c) := incrementProjectCounter projectCounter in
              (dec (dateNow env) ++ js "-" ++ dec n, c)
          end in
        let projectId := js "project-" ++ uniqueId in
        let content :=
          if (big =? PROJECT_STATE_LARGE)%Z then longInfo else shortInfo in
        let typeLabel :=
          if (type =? PROJECT_TYPE_PERSONAL)%Z
          then js "Personal Project" else js "School Project" in
        let escapedCategory := escapeHtml category in
        let escapedContent := escapeHtml content in
        match render_skills skills with
        | None => ([], ThrewURIError, counter')
        | Some tags =>
            let skillsHtml :=
              match skills with
              | [] => []
              | _ => js "<div " ++ attr "class" (js "skills-container")
                     ++ js ">" ++ join [] tags ++ js "</div>"
              end in
            ([], Returned (card_html projectId big escapedCategory typeLabel
                             escapedContent skillsHtml), counter')
        end
    | _ => ([console_error "Skill list must be an array"],
            Returned [], projectCounter)
    end.

(** The element the HTML parser builds from the root tag of the card
    markup: its class attribute and its [data-expanded] attribute. *)
Definition card_element (big : Z) : element :=
  {| data_expanded := Some (dec (Z.to_N big));
     data_skill := None;
     classList := [project_box; sizeClass big] |}.

(** The opening of a skill tag up to the quote that starts the value of
    its [data-skill] attribute. *)
Definition skill_tag_open : jsstring :=
  js "<span " ++ attr "class" (js "skill-tag") ++ js " data-skill=" ++ [quot].

(** The element the HTML parser builds from the markup of one skill
    tag; [None] for markup that is not of that form. *)
Definition skill_element (markup : jsstring) : option element :=
  match strip_prefix skill_tag_open markup with
  | Some rest =>
      match html_attr_value rest with
      | Some (v, _) =>
          Some {| data_expanded := None;
                  data_skill := Some v;
                  classList := [js "skill-tag"] |}
      | None => None
      end
  | None => None
  end.

(** A document, as far as the module sees it: its elements in tree order. *)
Definition document := list element.

Definition has_skill (v : jsstring) (e : element) : bool :=
  match data_skill e with
  | Some k => str_eqb k v
  | None => false
  end.

(** [document.querySelectorAll(selector)] as a membership test, for a
    selector of the form the module builds. *)
Definition querySelectorAll (selector : jsstring) : option (element -> bool) :=
  option_map has_skill (attr_selector_value selector).

Definition set_highlight (isHovering : bool) (e : element) : element :=
  {| data_expanded := data_expanded e;
     data_skill := data_skill e;
     classList :=
       if isHovering then class_add skill_highlighted (classList e)
       else class_remove skill_highlighted (classList e) |}.

(** How a call of [highlightSkill] ends, with the document as it leaves
    it: normally, by the URIError of the encoder, or with a selector
    that is outside the form [attr_selector_value] reads. *)
Inductive completion :=
| Done (d : document)
| URIError (d : document)
| SelectorOther (d : document).

(** The selector text built for one skill. *)
Definition skill_selector (has_css_escape : bool) (skillKey : jsstring)
  : jsstring :=
  js "[" ++ attr "data-skill" (safeCssEscape has_css_escape (JStr skillKey))
  ++ js "]".

Fixpoint highlight_each (has_css_escape isHovering : bool)
    (skills : list jsstring) (d : document) : completion :=
  match skills with
  | [] => Done d
  | skill :: rest =>
      match normalizeSkillKey (JStr skill) with
      | None => URIError d
      | Some skillKey =>
          match querySelectorAll (skill_selector has_css_escape skillKey) with
          | None => SelectorOther d
          | Some selected =>
              highlight_each has_css_escape isHovering rest
                (map (fun e => if selected e
                               then set_highlight isHovering e else e) d)
          end
      end
  end.

(** [highlightSkill(projectElement, skillList, isHovering)] *)
Definition highlightSkill (has_css_escape : bool)
    (projectElement : option element) (skillList : skillArg)
    (isHovering : bool) (d : document) : completion :=
  match projectElement, skillList with
  | Some _, SkArray ((_ :: _) as skills) =>
      highlight_each has_css_escape isHovering skills d
  | _, _ => Done d
  end.

End Projects.
Import Projects.

(** ** notifications.js

    The module keeps a table of timer handles, one slot per message
    kind.  Its surroundings are the message elements (objects on a heap,
    found through [getElementById] once inserted), the browser's table
    of pending timeouts, the listeners waiting for DOMContentLoaded and
    a clock. *)

Module Notifications.

Inductive display := DisplayUnset | DisplayBlock | DisplayNone.

Record div := {
  div_id : jsstring;
  className : jsstring;
  role : option jsstring;
  aria_live : option jsstring;
  textContent : jsstring;
  style_display : display
}.

(** A pending timeout: its handle, the time it is due, the element its
    callback hides, and the [type] argument of the call that set it. *)
Record timer := {
  timer_id : N;
  due : N;
  target : nat;
  for_kind : kind
}.

(** A listener registered for DOMContentLoaded, with the variables its
    closure captured. *)
Record listener := {
  l_kind : kind;
  l_message : jsstring;
  l_duration : N;
  l_div : nat
}.

Record state := {
  now : N;
  has_body : bool;
  loaded : bool;
  heap : nat -> div;
  next_ref : nat;
  by_id : jsstring -> option nat;
  messageTimers : kind -> option N;
  pending : list timer;
  next_timer : N;
  listeners : list listener
}.

Definition messageId (k : kind) : jsstring := kind_name k ++ js "-message".

Definition upd_heap (h : nat -> div) (r : nat) (d : div) : nat -> div :=
  fun r' => if (r' =? r)%nat then d else h r'.

Definition upd_id (m : jsstring -> option nat) (i : jsstring) (r : nat)
  : jsstring -> option nat :=
  fun i' => if str_eqb i' i then Some r else m i'.

Definition upd_timers (m : kind -> option N) (k : kind) (t : N)
  : kind -> option N :=
  fun k' => if kind_eqb k' k then Some t else m k'.

(** [document.createElement('div')] followed by the four assignments. *)
Definition new_div (k : kind) : div :=
  {| div_id := messageId k;
     className := kind_name k ++ js "-message";
     role := Some (js "alert");
     aria_live := Some (js "polite");
     textContent := [];
     style_display := DisplayUnset |}.

Definition with_text (message : jsstring) (d : div) : div :=
  {| div_id := div_id d; className := className d; role := role d;
     aria_live := aria_live d;
     textContent := message;
     style_display := DisplayBlock |}.

Definition hidden (d : div) : div :=
  {| div_id := div_id d; className := className d; role := role d;
     aria_live := aria_live d;
     textContent := textContent d;
     style_display := DisplayNone |}.

(** [clearTimeout(t)] *)
Definition clearTimeout (t : N) (l : list timer) : list timer :=
  filter (fun x => negb (timer_id x =? t)%N) l.

(** The guarded [clearTimeout(messageTimers[type])]: the slot is tested
    for truthiness first. *)
Definition clear_existing (slot : option N) (l : list timer) : list timer :=
  match slot with
  | Some t => if (t =? 0)%N then l else clearTimeout t l
  | None => l
  end.

(** The tail of [showMessage]: show the text, clear the timer recorded
    for the kind, set and record a new one. *)
Definition display_message (k : kind) (message : jsstring) (duration : N)
    (messageDiv : nat) (s : state) : state :=
  {| now := now s;
     has_body := has_body s;
     loaded := loaded s;
     heap := upd_heap (heap s) messageDiv (with_text message (heap s messageDiv));
     next_ref := next_ref s;
     by_id := by_id s;
     messageTimers := upd_timers (messageTimers s) k (next_timer s);
     pending :=
       clear_existing (messageTimers s k) (pending s)
       ++ [{| timer_id := next_timer s;
              due := (now s + duration)%N;
              target := messageDiv;
              for_kind := k |}];
     next_timer := N.succ (next_timer s);
     listeners := listeners s |}.

(** [showMessage(type, message, duration)] *)
Definition showMessage (k : kind) (message : jsstring) (duration : N)
    (s : state) : state :=
  match by_id s (messageId k) with
  | Some messageDiv => display_message k message duration messageDiv s
  | None =>
      let messageDiv := next_ref s in
      let heap' := upd_heap (heap s) messageDiv (new_div k) in
      if has_body s then
        display_message k message duration messageDiv
          {| now := now s; has_body := has_body s; loaded := loaded s;
             heap := heap';
             next_ref := S messageDiv;
             by_id := upd_id (by_id s) (messageId k) messageDiv;
             messageTimers := messageTimers s;
             pending := pending s;
             next_timer := next_timer s;
             listeners := listeners s |}
      else
        {| now := now s; has_body := has_body s; loaded := loaded s;
           heap := heap';
           next_ref := S messageDiv;
           by_id := by_id s;
           messageTimers := messageTimers s;
           pending := pending s;
           next_timer := next_timer s;
           listeners :=
             listeners s
             ++ [{| l_kind := k; l_message := message;
                    l_duration := duration; l_div := messageDiv |}] |}
  end.

Definition default_duration : N := 5000.

Definition show (k : kind) (message : jsstring) (s : state) : state :=
  showMessage k message default_duration s.

(** The body of the DOMContentLoaded listener. *)
Definition run_listener (l : listener) (s : state) : state :=
  match by_id s (messageId (l_kind l)) with
  | None =>
      if has_body s then
        {| now := now s; has_body := has_body s; loaded := loaded s;
           heap := upd_heap (heap s) (l_div l)
                     (with_text (l_message l) (heap s (l_div l)));
           next_ref := next_ref s;
           by_id := upd_id (by_id s) (messageId (l_kind l)) (l_div l);
           messageTimers :=
             upd_timers (messageTimers s) (l_kind l) (next_timer s);
           pending :=
             pending s
             ++ [{| timer_id := next_timer s;
                    due := (now s + l_duration l)%N;
                    target := l_div l;
                    for_kind := l_kind l |}];
           next_timer := N.succ (next_timer s);
           listeners := listeners s |}
      else s
  | Some _ => s
  end.

(** DOMContentLoaded: every registered listener runs once, in order of
    registration, and is removed. *)
Definition domContentLoaded (s : state) : state :=
  let s' := fold_left (fun acc l => run_listener l acc) (listeners s) s in
  {| now := now s'; has_body := has_body s'; loaded := true;
     heap := heap s'; next_ref := next_ref s'; by_id := by_id s';
     messageTimers := messageTimers s'; pending := pending s';
     next_timer := next_timer s'; listeners := [] |}.

(** A timeout fires: it leaves the table and its callback hides the
    element it captured. *)
Definition fire (t : timer) (s : state) : state :=
  {| now := now s; has_body := has_body s; loaded := loaded s;
     heap := upd_heap (heap s) (target t) (hidden (heap s (target t)));
     next_ref := next_ref s; by_id := by_id s;
     messageTimers := messageTimers s;
     pending := clearTimeout (timer_id t) (pending s);
     next_timer := next_timer s; listeners := listeners s |}.

Definition advance (dt : N) (s : state) : state :=
  {| now := (now s + dt)%N; has_body := has_body s; loaded := loaded s;
     heap := heap s; next_ref := next_ref s; by_id := by_id s;
     messageTimers := messageTimers s; pending := pending s;
     next_timer := next_timer s; listeners := listeners s |}.

Definition body_parsed (s : state) : state :=
  {| now := now s; has_body := true; loaded := loaded s;
     heap := heap s; next_ref := next_ref s; by_id := by_id s;
     messageTimers := messageTimers s; pending := pending s;
     next_timer := next_timer s; listeners := listeners s |}.

(** What can happen to the module on the single event-loop thread. *)
Inductive step : state -> state -> Prop :=
| step_show k message duration s :
    step s (showMessage k message duration s)
| step_fire t s :
    In t (pending s) -> (due t <= now s)%N -> step s (fire t s)
| step_advance dt s : step s (advance dt s)
| step_body s : step s (body_parsed s)
| step_loaded s : loaded s = false -> step s (domContentLoaded s).

(** The module as loaded: empty timer slots, no pending timeout of its
    own, no listener; elements already in the page have distinct
    references, allocated before [next_ref]. *)
Record initial (s : state) : Prop := {
  init_pending : pending s = [];
  init_listeners : listeners s = [];
  init_slots : forall k, messageTimers s k = None;
  init_next_timer : (1 <= next_timer s)%N;
  init_refs : forall i r, by_id s i = Some r -> (r < next_ref s)%nat;
  init_ids : forall i j r, by_id s i = Some r -> by_id s j = Some r -> i = j
}.

Inductive reachable : state -> Prop :=
| reach_init s : initial s -> reachable s
| reach_step s s' : reachable s -> step s s' -> reachable s'.

(** The pending timeouts set for kind [k]. *)
Definition pending_for (k : kind) (s : state) : list timer :=
  filter (fun t => kind_eqb (for_kind t) k) (pending s).

(** The message element of kind [k] in the page, if any. *)
Definition message_of (k : kind) (s : state) : option div :=
  option_map (heap s) (by_id s (messageId k)).

(** A start state with a parsed body and no message element. *)
Definition fresh_page : state :=
  {| now := 0; has_body := true; loaded := true;
     heap := fun _ => new_div KInfo; next_ref := 0;
     by_id := fun _ => None;
     messageTimers := fun _ => None;
     pending := []; next_timer := 1; listeners := [] |}.

End Notifications.
Import Notifications.

(** ** projects.js: hover listeners *)

Module Hover.

Inductive hoverEvent := MouseEnter | MouseLeave.

Definition hover_eqb (a b : hoverEvent) : bool :=
  match a, b with
  | MouseEnter, MouseEnter | MouseLeave, MouseLeave => true
  | _, _ => false
  end.

(** A listener added by [attachHighlightListeners]: the id of the
    element it is on, the event it waits for, and the element and the
    skill list its closure captured. *)
Record hoverListener := {
  h_id : jsstring;
  h_event : hoverEvent;
  h_element : element;
  h_skills : skillArg
}.

Definition skills_missing (skillList : skillArg) : bool :=
  match skillList with
  | SkArray (_ :: _) => false
  | _ => true
  end.

(** [attachHighlightListeners(projectId, skillList)]: the console trace
    and the listeners it adds; [getElementById] is the lookup of the
    document. *)
Definition attachHighlightListeners
    (getElementById : jsstring -> option element)
    (projectId : value) (skillList : skillArg)
  : list event * list hoverListener :=
  if negb (truthy projectId) || skills_missing skillList then ([], [])
  else
    match getElementById (to_string projectId) with
    | None =>
        ([Console LvWarn
            [AStr (js "Project element with ID " ++ [quot]
                   ++ to_string projectId ++ [quot] ++ js " not found")]],
         [])
    | Some projectElement =>
        ([],
         [{| h_id := to_string projectId; h_event := MouseEnter;
             h_element := projectElement; h_skills := skillList |};
          {| h_id := to_string projectId; h_event := MouseLeave;
             h_element := projectElement; h_skills := skillList |}])
    end.

(** The body of a listener. *)
Definition run_listener_body (has_css_escape : bool) (l : hoverListener)
    (d : document) : completion :=
  highlightSkill has_css_escape (Some (h_element l)) (h_skills l)
    (match h_event l with MouseEnter => true | MouseLeave => false end) d.

(** The event [ev] reaches the element with id [id]: its listeners for
    [ev] run in the order they were added.  An exception thrown by one
    listener is reported and does not keep the later ones from running. *)
Fixpoint dispatch (has_css_escape : bool) (id : jsstring) (ev : hoverEvent)
    (registry : list hoverListener) (d : document) : completion :=
  match registry with
  | [] => Done d
  | l :: rest =>
      if str_eqb (h_id l) id && hover_eqb (h_event l) ev then
        match run_listener_body has_css_escape l d with
        | Done d' => dispatch has_css_escape id ev rest d'
        | URIError d' =>
            match dispatch has_css_escape id ev rest d' with
            | Done d'' => URIError d''
            | other => other
            end
        | SelectorOther d' => SelectorOther d'
        end
      else dispatch has_css_escape id ev rest d
  end.

End Hover.
Import Hover.

(** ** main.js *)

Module Main.

(** An element of the page with, beside what projects.js uses, its
    [data-toggle] attribute. *)
Record node := {
  n_element : element;
  data_toggle : option jsstring
}.

(** The node matches [.project-box[data-toggle="project"]]. *)
Definition is_card_root (n : node) : bool :=
  contains project_box (classList (n_element n))
  && match data_toggle n with
     | Some v => str_eqb v (js "project")
     | None => false
     end.

(** [target.closest(selector)]: [path] lists the index of the target
    and of each of its ancestors, innermost first. *)
Definition closest (page : list node) (path : list nat) : option nat :=
  find (fun i => match nth_error page i with
                 | Some n => is_card_root n
                 | None => false
                 end) path.

Definition toggle_node (n : node) : node :=
  match toggleProjectBox (Some (n_element n)) with
  | Some e => {| n_element := e; data_toggle := data_toggle n |}
  | None => n
  end.

Fixpoint update_at (i : nat) (f : node -> node) (page : list node)
  : list node :=
  match page, i with
  | [], _ => []
  | n :: rest, O => f n :: rest
  | n :: rest, S j => n :: update_at j f rest
  end.

(** The click listener: the page and whether [preventDefault] was
    called, before and after. *)
Definition click_listener (path : list nat) (s : list node * bool)
  : list node * bool :=
  match closest (fst s) path with
  | Some i => (update_at i toggle_node (fst s), true)
  | None => s
  end.

(** The module variable and the click listeners on the document. *)
Record mainState := {
  isInitialized : bool;
  click_listeners : nat
}.

Definition loaded_module : mainState :=
  {| isInitialized := false; click_listeners := 0 |}.

Definition initProjectToggle (s : mainState) : list event * mainState :=
  if isInitialized s then
    ([Console LvWarn [AStr (js "Project toggle already initialized")]], s)
  else
    ([], {| isInitialized := true; click_listeners := S (click_listeners s) |}).

Definition init (s : mainState) : list event * mainState :=
  initProjectToggle s.

(** [init] called [k] times in a row. *)
Fixpoint inits (k : nat) (s : mainState) : list event * mainState :=
  match k with
  | O => ([], s)
  | S k' =>
      let '(tr, s') := init s in
      let '(tr', s'') := inits k' s' in
      (tr ++ tr', s'')
  end.

(** A click whose target has the ancestor chain [path]: every click
    listener on the document runs. *)
Definition click (s : mainState) (path : list nat) (page : list node)
  : list node * bool :=
  Nat.iter (click_listeners s) (click_listener path) (page, false).

End Main.
Import Main.

(** * Vocabulary of the properties *)

(** ** Strings and addresses *)

(** A string without leading or trailing white space. *)
Definition trimmed (s : jsstring) : Prop :=
  trimStart s = s /\ trimStart (rev s) = rev s.

(** An address of the shape local@domain.tld: three non-empty runs of
    characters that are neither white space nor the at sign. *)
Definition address (local domain tld : jsstring) : jsstring :=
  local ++ at_sign :: domain ++ dot :: tld.

(** A non-empty run of characters that the class of the email pattern
    accepts. *)
Definition run (s : jsstring) : Prop :=
  s <> [] /\ forallb not_space_at s = true.

(** ** Validation rules *)

(** The rule sequence as the specification words it: each rule is a
    test on the four checked fields and the message of its rejection,
    and a form is rejected by the first rule, in order, that fails. *)
Module ValidationSpec.

Record rule := {
  holds : value -> value -> value -> value -> bool;
  rejection : jsstring
}.

Definition name_rule : rule :=
  {| holds := fun name _ _ _ => negb (blank name);
     rejection := msg_name_required |}.

Definition company_rule : rule :=
  {| holds := fun _ _ _ company => negb (blank company);
     rejection := msg_company_required |}.

Definition contact_rule : rule :=
  {| holds := fun _ email phone _ => negb (blank email) || negb (blank phone);
     rejection := msg_contact_required |}.

Definition email_rule : rule :=
  {| holds := fun _ email _ _ => blank email || isValidEmail email;
     rejection := msg_invalid_email |}.

Definition phone_rule : rule :=
  {| holds := fun _ _ phone _ => blank phone || isValidPhoneNumber phone;
     rejection := msg_invalid_phone |}.

Definition rules_in_order : list rule :=
  [name_rule; company_rule; contact_rule; email_rule; phone_rule].

Definition first_failure (name email phone company : value) : option rule :=
  find (fun r => negb (holds r name email phone company)) rules_in_order.

End ValidationSpec.
Import ValidationSpec.

(** ** Markup, cards and credentials *)

(** The four markup characters that never survive escaping. *)
Definition is_markup (c : N) : bool :=
  ((c =? lt) || (c =? gt) || (c =? quot) || (c =? apos))%N.

(** What follows the ampersand in each of the five entities. *)
Definition entity_tails : list jsstring :=
  [js "amp;"; js "lt;"; js "gt;"; js "quot;"; js "#039;"].

(** A card whose size class agrees with its [data-expanded] attribute,
    as [developProject] renders it and as the toggle leaves it. *)
Definition consistent (e : element) : Prop :=
  (data_expanded e = Some (js "1")
   /\ contains project_large (classList e) = true
   /\ contains project_small (classList e) = false)
  \/ (data_expanded e = Some (js "0")
      /\ contains project_small (classList e) = true
      /\ contains project_large (classList e) = false).

(** A credential that is missing (falsy) or still the placeholder. *)
Definition missing_or_placeholder (v : value) (placeholder : jsstring) : Prop :=
  truthy v = false \/ v = JStr placeholder.

(** The email service is not configured: some credential is missing
    or a placeholder. *)
Definition unconfigured (env : emailEnv) : Prop :=
  missing_or_placeholder (serviceID env) placeholder_service
  \/ missing_or_placeholder (templateID env) placeholder_template
  \/ missing_or_placeholder (publicKey env) placeholder_key.

(** A user-visible notification. *)
Definition is_notify (e : event) : bool :=
  match e with Notify _ _ => true | _ => false end.

(** ** Notification states *)

(** What holds of every reachable state; [ls] is the list of listeners
    that have not run yet.  Every pending timer is the one recorded in
    the slot of its kind and hides the element registered under the id
    of its kind; handles and element references are allocated in
    increasing order; a waiting listener holds an element that is not in
    the page yet. *)
Record inv_with (ls : list listener) (s : state) : Prop := {
  inv_slot : forall t, In t (pending s) ->
               messageTimers s (for_kind t) = Some (timer_id t);
  inv_nodup : NoDup (map timer_id (pending s));
  inv_next : (1 <= next_timer s)%N;
  inv_slot_range : forall k t, messageTimers s k = Some t ->
                     (1 <= t < next_timer s)%N;
  inv_slot_inj : forall k1 k2 t, messageTimers s k1 = Some t ->
                   messageTimers s k2 = Some t -> k1 = k2;
  inv_pending_range : forall t, In t (pending s) ->
                        (timer_id t < next_timer s)%N;
  inv_target : forall t, In t (pending s) ->
                 by_id s (messageId (for_kind t)) = Some (target t);
  inv_refs : forall i r, by_id s i = Some r -> (r < next_ref s)%nat;
  inv_ids : forall i j r, by_id s i = Some r -> by_id s j = Some r -> i = j;
  inv_listener_refs : forall l, In l ls ->
                        (l_div l < next_ref s)%nat
                        /\ forall i, by_id s i <> Some (l_div l);
  inv_listener_nodup : NoDup (map l_div ls)
}.

Definition inv (s : state) : Prop := inv_with (listeners s) s.

(** The timer was set by a call for kind [k]. *)
Definition of_kind (k : kind) (t : timer) : bool := kind_eqb (for_kind t) k.

(** ** Keys and selectors *)

(** The alphabet of a normalised key: the characters the encoder leaves
    alone and the percent sign of its escapes. *)
Definition key_char (c : N) : bool := uri_unreserved c || (c =? percent)%N.

(** The code units below 128. *)
Definition ascii_range : list N := map N.of_nat (seq 0 128).

(** Code units the preprocessing of a style sheet leaves alone. *)
Definition css_plain (c : N) : bool :=
  negb (c =? 13)%N && negb (c =? 12)%N && negb (c =? 0)%N
  && negb (is_surrogate c).

(** The document after the elements tagged with key [k] have had the
    highlight class added or removed. *)
Definition mark (isHovering : bool) (k : jsstring) (d : document) : document :=
  map (fun e => if has_skill k e then set_highlight isHovering e else e) d.

(** ** Phone numbers *)

(** The text the phone pattern is tested on: the input without white
    space, dashes, dots and parentheses. *)
Definition cleaned (phone : jsstring) : jsstring :=
  filter (fun c => negb (phone_separator c)) phone.

(** The three alternatives of the phone pattern, as shapes of the
    cleaned text. *)
Definition french_international (s : jsstring) : Prop :=
  exists d ds, s = js "+33" ++ d :: ds /\ digit19 d = true
               /\ length ds = 8%nat /\ forallb digit ds = true.

Definition french_national (s : jsstring) : Prop :=
  exists d ds, s = js "0" ++ d :: ds /\ digit19 d = true
               /\ length ds = 8%nat /\ forallb digit ds = true.

Definition international (s : jsstring) : Prop :=
  exists d ds, s = plus_sign :: d :: ds /\ digit19 d = true
               /\ (7 <= length ds <= 16)%nat /\ forallb digit ds = true.

(** ** Sequences of calls of [sendEmail] *)

(** The arguments of one call. *)
Record sendCall := {
  c_target : value;
  c_title : value;
  c_content : value;
  c_senderEmail : value;
  c_senderPhone : value
}.

(** Calls made one after the other; the module variable
    [emailJsInitialized] is carried from each call to the next. *)
Fixpoint sendEmails (env : emailEnv) (emailJsInitialized : bool)
    (calls : list sendCall) : list event * bool :=
  match calls with
  | [] => ([], emailJsInitialized)
  | c :: rest =>
      let '(tr, flag) :=
        sendEmail env emailJsInitialized (c_target c) (c_title c)
                  (c_content c) (c_senderEmail c) (c_senderPhone c) in
      let '(tr', flag') := sendEmails env flag rest in
      (tr ++ tr', flag')
  end.

Definition is_send (e : event) : bool :=
  match e with EmailSend _ _ _ => true | _ => false end.

(** The text has none of the characters less-than, greater-than, double
    quote and apostrophe. *)
Definition markup_free (s : jsstring) : Prop :=
  forallb (fun c => negb (is_markup c)) s = true.

(** The text contains one of the five characters [escapeHtml] replaces. *)
Definition has_special (s : jsstring) : bool :=
  existsb (fun c => match html_entity c with Some _ => true | None => false end) s.

(** What an event hands on of the message body: the body and the
    subject of a delivery, the body of a logged payload. *)
Definition outgoing_texts (e : event) : list jsstring :=
  match e with
  | EmailSend _ _ p => [message p; from_name p]
  | Console _ args =>
      flat_map (fun a => match a with
                         | APayload _ _ content => [content]
                         | _ => []
                         end) args
  | _ => []
  end.

(** ** Rendering a card *)

(** [!v || typeof v !== 'string'] does not hold. *)
Definition required_text (v : value) : bool := truthy v && is_string v.

(** All the parameter checks of [developProject] pass. *)
Definition render_input_ok (big type : Z)
    (category shortInfo longInfo : value) (skillList : skillArg) : bool :=
  ((big =? PROJECT_STATE_LARGE) || (big =? PROJECT_STATE_SMALL))%Z
  && ((type =? PROJECT_TYPE_PERSONAL) || (type =? PROJECT_TYPE_SCHOOL))%Z
  && required_text category && required_text shortInfo
  && required_text longInfo
  && match skillList with SkNull => false | _ => true end.

(** The id a card gets when the browser has no [crypto.randomUUID]. *)
Definition fallback_id (now counter : N) : jsstring :=
  js "project-" ++ dec now ++ js "-" ++ dec counter.

(** The beginning of the markup of a card with the given id. *)
Definition card_open (projectId : jsstring) : jsstring :=
  nl ++ spaces 8 ++ js "<div id=" ++ [quot] ++ projectId ++ [quot].

(** The skills [developProject] renders: its default parameter value is
    the empty array. *)
Definition skills_of (skillList : skillArg) : list jsstring :=
  match skillList with
  | SkArray skills => skills
  | _ => []
  end.

(** The markup [developProject] puts around the tags of a non-empty
    skill list. *)
Definition skills_container (skills tags : list jsstring) : jsstring :=
  match skills with
  | [] => []
  | _ => js "<div " ++ attr "class" (js "skills-container")
         ++ js ">" ++ join [] tags ++ js "</div>"
  end.

(** ** Highlighting a list of skills *)

(** The element is tagged with one of the keys. *)
Definition tagged (keys : list jsstring) (e : element) : bool :=
  existsb (fun k => has_skill k e) keys.

(** The document after every element tagged with one of the keys has
    had the highlight class added or removed. *)
Definition mark_all (isHovering : bool) (keys : list jsstring) (d : document)
  : document :=
  map (fun e => if tagged keys e then set_highlight isHovering e else e) d.

(** ** Notifications raised by a trace *)

(** The calls of [showError], [showSuccess] and [showInfo] recorded in a
    trace, made on the notification module in order. *)
Definition deliver (tr : list event) (s : state) : state :=
  fold_left (fun acc e => match e with
                          | Notify k m => show k m acc
                          | _ => acc
                          end) tr s.

(** The five messages of [validateContactForm]. *)
Definition validation_messages : list jsstring :=
  [msg_name_required; msg_company_required; msg_contact_required;
   msg_invalid_email; msg_invalid_phone].

(** ** Strings that survive the selector *)

(** Code units [CSS.escape] can carry through a selector: all but NUL and
    the surrogates. *)
Definition escapable (c : N) : bool :=
  negb (c =? 0)%N && negb (is_surrogate c).

(** Code units the fallback of [safeCssEscape] can carry through a
    selector: all but NUL, the line breaks and the surrogates. *)
Definition fallback_safe (c : N) : bool :=
  css_plain c && negb (c =? 10)%N.

(** ** A call of [sendEmail] and the settlement of its promise *)

(** What [document.getElementById('contact-form')] gives
    [resetContactForm]: nothing, an element whose [reset] can be called,
    or an element whose [reset] is not callable, so that calling it
    raises the exception [thrown]. *)
Inductive contactForm :=
| NoForm
| Form
| NotResettable (thrown : value).

(** [resetContactForm()]: the exception it raises, if any. *)
Definition resetContactForm (form : contactForm) : option value :=
  match form with
  | NoForm => None
  | Form => None
  | NotResettable thrown => Some thrown
  end.

(** How the promise of [emailjs.send] settles; when it is fulfilled,
    the contact form the first continuation finds. *)
Inductive settlement :=
| Fulfilled (form : contactForm)
| Rejected (error : value).

(** The chain [.then(onFulfilled).catch(onRejected)]: the second
    continuation runs when the promise is rejected and also when the
    first continuation throws.  In the trace [FormReset] records the
    call of [resetContactForm], whatever that call then finds. *)
Definition continuations (r : settlement) : list event :=
  match r with
  | Fulfilled form =>
      on_send_fulfilled
      ++ match resetContactForm form with
         | Some thrown => on_send_rejected thrown
         | None => []
         end
  | Rejected error => on_send_rejected error
  end.

(** The whole trace of a call: its synchronous part and, when it handed
    a message to the service, the continuations the settlement of the
    promise runs. *)
Definition settled (sync : list event) (r : settlement) : list event :=
  sync ++ (if existsb is_send sync then continuations r else []).

(** ** Strings of code units *)

(** Every element is a UTF-16 code unit. *)
Definition code_units (s : jsstring) : Prop :=
  Forall (fun c => (c < 65536)%N) s.

(** * Properties *)

(** ** Strings *)

Section StringFacts.

Lemma str_eqb_eq (a b : jsstring) : str_eqb a b = true <-> a = b.
Proof.
  unfold str_eqb. destruct (list_eq_dec N.eq_dec a b); split; congruence.
Qed.

Lemma str_eqb_refl (a : jsstring) : str_eqb a a = true.
Proof. now apply str_eqb_eq. Qed.

Lemma str_eqb_neq (a b : jsstring) : str_eqb a b = false <-> a <> b.
Proof.
  unfold str_eqb. destruct (list_eq_dec N.eq_dec a b); split; congruence.
Qed.

Lemma str_eqb_sym (a b : jsstring) : str_eqb a b = str_eqb b a.
Proof.
  destruct (str_eqb b a) eqn:E.
  - apply str_eqb_eq in E. subst. apply str_eqb_refl.
  - apply str_eqb_neq in E. apply str_eqb_neq. congruence.
Qed.

Lemma kind_eqb_eq (a b : kind) : kind_eqb a b = true <-> a = b.
Proof. destruct a, b; simpl; split; congruence. Qed.

Lemma kind_eq_dec (a b : kind) : {a = b} + {a <> b}.
Proof. decide equality. Qed.

Lemma kind_eqb_refl (a : kind) : kind_eqb a a = true.
Proof. now destruct a. Qed.

Lemma kind_eqb_neq (a b : kind) : kind_eqb a b = false <-> a <> b.
Proof. destruct a, b; simpl; split; congruence. Qed.

Lemma kind_eqb_sym (a b : kind) : kind_eqb a b = kind_eqb b a.
Proof. now destruct a, b. Qed.

Lemma trimStart_spaces (ws s : jsstring) :
  forallb is_space ws = true -> trimStart (ws ++ s) = trimStart s.
Proof.
  induction ws as [|c ws IH]; simpl; auto.
  intros H. apply andb_true_iff in H as [Hc Hws]. now rewrite Hc, IH.
Qed.

Lemma trimStart_split (s : jsstring) :
  exists ws, s = ws ++ trimStart s /\ forallb is_space ws = true.
Proof.
  induction s as [|c s [ws [E F]]]; simpl.
  - now exists [].
  - destruct (is_space c) eqn:Hc.
    + exists (c :: ws). simpl. rewrite Hc, F. split; [congruence | reflexivity].
    + now exists [].
Qed.

Lemma trimStart_head (s : jsstring) :
  trimStart s = [] \/
  exists c t, trimStart s = c :: t /\ is_space c = false.
Proof.
  induction s as [|c s IH]; simpl; auto.
  destruct (is_space c) eqn:Hc; auto.
  right. now exists c, s.
Qed.

Lemma trimStart_fixed (c : N) (t : jsstring) :
  is_space c = false -> trimStart (c :: t) = c :: t.
Proof. intros H. simpl. now rewrite H. Qed.

Lemma trimStart_idem (s : jsstring) : trimStart (trimStart s) = trimStart s.
Proof.
  destruct (trimStart_head s) as [E | (c & t & E & Hc)]; rewrite E; auto.
  now apply trimStart_fixed.
Qed.

Lemma trimStart_app_fixed (s t : jsstring) :
  s <> [] -> trimStart s = s -> trimStart (s ++ t) = s ++ t.
Proof.
  destruct s as [|c s]; [congruence|]. intros _. simpl.
  destruct (is_space c) eqn:Hc; auto.
  intros E. exfalso.
  destruct (trimStart_split s) as (ws & E' & _).
  apply (f_equal (@length N)) in E, E'. rewrite length_app in E'.
  simpl in E. lia.
Qed.

Lemma forallb_rev_eq (f : N -> bool) (l : jsstring) :
  forallb f (rev l) = forallb f l.
Proof.
  induction l as [|c l IH]; simpl; auto.
  rewrite forallb_app, IH. simpl. rewrite andb_true_r. apply andb_comm.
Qed.

(** Padding a string that has no white space at either end, and
    trimming it, gives the string back. *)
Lemma trim_padded (ws1 s ws2 : jsstring) :
  forallb is_space ws1 = true -> forallb is_space ws2 = true ->
  trimmed s -> trim (ws1 ++ s ++ ws2) = s.
Proof.
  intros H1 H2 [Hs Hr]. unfold trim, trimEnd.
  rewrite trimStart_spaces by assumption.
  destruct s as [|c s].
  - simpl. destruct (trimStart_head ws2) as [E | (c & t & E & Hc)].
    + now rewrite E.
    + exfalso. destruct (trimStart_split ws2) as (ws & E' & _).
      rewrite E' in H2. rewrite forallb_app, E in H2. simpl in H2.
      rewrite Hc in H2. rewrite andb_false_r in H2. discriminate.
  - rewrite trimStart_app_fixed by (congruence || assumption).
    rewrite rev_app_distr, trimStart_spaces
      by (rewrite forallb_rev_eq; assumption).
    rewrite Hr. apply rev_involutive.
Qed.

Lemma trim_trimmed (s : jsstring) : trimmed (trim s).
Proof.
  unfold trimmed, trim, trimEnd. rewrite rev_involutive, trimStart_idem.
  split; auto.
  set (a := trimStart s).
  destruct (trimStart_split (rev a)) as (ws & E & F).
  set (b := trimStart (rev a)) in *.
  assert (Ea : a = rev b ++ rev ws).
  { rewrite <- rev_app_distr, <- E. symmetry. apply rev_involutive. }
  destruct (rev b) as [|c t] eqn:Eb; auto.
  destruct (trimStart_head s) as [E0 | (c0 & t0 & E0 & Hc)]; fold a in E0.
  - rewrite E0 in Ea. discriminate.
  - rewrite E0 in Ea. simpl in Ea. injection Ea as -> _.
    now apply trimStart_fixed.
Qed.

Lemma trimmed_trim (s : jsstring) : trimmed s -> trim s = s.
Proof.
  intros H. pose proof (trim_padded [] s [] eq_refl eq_refl H) as E.
  simpl in E. now rewrite app_nil_r in E.
Qed.

Lemma trim_idem (s : jsstring) : trim (trim s) = trim s.
Proof. apply trimmed_trim, trim_trimmed. Qed.

Lemma trimmed_nil : trimmed [].
Proof. now split. Qed.

End StringFacts.

(** ** The derivative matcher decides the language of a pattern *)

Section RegexFacts.

Lemma nullable_matches (r : regex) : nullable r = true <-> matches r [].
Proof.
  split.
  - induction r; simpl; intros H; try discriminate.
    + constructor.
    + apply andb_true_iff in H as [H1 H2].
      change (@nil N) with (@nil N ++ @nil N). constructor; auto.
    + apply orb_true_iff in H as [H | H];
        [apply MAltL | apply MAltR]; auto.
    + constructor.
  - intros H. remember [] as s eqn:Es.
    induction H; simpl; auto; try discriminate.
    + apply app_eq_nil in Es as [-> ->]. now rewrite IHmatches1, IHmatches2.
    + now rewrite IHmatches.
    + rewrite IHmatches; auto. apply orb_true_r.
Qed.

Lemma deriv_sound (r : regex) :
  forall c s, matches (deriv c r) s -> matches r (c :: s).
Proof.
  induction r; simpl; intros c s H.
  - inversion H.
  - inversion H.
  - destruct (p c) eqn:Hp; inversion H; subst. now constructor.
  - destruct (nullable r1) eqn:Hn.
    + inversion H as [| | | ? ? ? HL | ? ? ? HR | |]; subst.
      * inversion HL; subst.
        change (c :: s1 ++ s2) with ((c :: s1) ++ s2). constructor; auto.
      * change (c :: s) with ([] ++ c :: s). constructor; auto.
        now apply nullable_matches.
    + inversion H; subst.
      change (c :: s1 ++ s2) with ((c :: s1) ++ s2). constructor; auto.
  - inversion H; subst; [apply MAltL | apply MAltR]; auto.
  - inversion H; subst.
    change (c :: s1 ++ s2) with ((c :: s1) ++ s2). constructor; auto.
Qed.

Lemma deriv_complete (r : regex) (s0 : jsstring) :
  matches r s0 -> forall c s, s0 = c :: s -> matches (deriv c r) s.
Proof.
  induction 1 as [ | p c0 Hp | r1 r2 s1 s2 H1 IH1 H2 IH2 | r1 r2 s1 H1 IH1
                 | r1 r2 s2 H2 IH2 | r | r s1 s2 H1 IH1 H2 IH2 ];
    intros c s E; simpl.
  - discriminate.
  - injection E as -> <-. rewrite Hp. constructor.
  - destruct s1 as [|c1 s1]; simpl in E.
    + apply nullable_matches in H1. rewrite H1. apply MAltR. now apply IH2.
    + injection E as -> <-.
      destruct (nullable r1); [apply MAltL|]; constructor; auto.
  - apply MAltL. now apply IH1.
  - apply MAltR. now apply IH2.
  - discriminate.
  - destruct s1 as [|c1 s1]; simpl in E.
    + now apply IH2.
    + injection E as -> <-. constructor; auto.
Qed.

Theorem regex_test_matches (r : regex) (s : jsstring) :
  regex_test r s = true <-> matches r s.
Proof.
  revert r. induction s as [|c s IH]; intros r; simpl.
  - apply nullable_matches.
  - rewrite IH. split.
    + apply deriv_sound.
    + intros H. now apply (deriv_complete r (c :: s) H).
Qed.

Lemma matches_star_cls (p : N -> bool) (s : jsstring) :
  matches (Star (Cls p)) s <-> forallb p s = true.
Proof.
  split.
  - intros H. remember (Star (Cls p)) as r eqn:Er.
    induction H; try discriminate; auto.
    injection Er as ->. rewrite forallb_app, IHmatches2 by reflexivity.
    inversion H as [| ? ? Hp | | | | |]; subst. simpl. now rewrite Hp.
  - induction s as [|c s IH]; simpl; intros H.
    + constructor.
    + apply andb_true_iff in H as [Hc Hs].
      change (c :: s) with ([c] ++ s). constructor; auto. now constructor.
Qed.

Lemma matches_plus_cls (p : N -> bool) (s : jsstring) :
  matches (Plus (Cls p)) s <-> s <> [] /\ forallb p s = true.
Proof.
  unfold Plus. split.
  - intros H. inversion H as [| | ? ? s1 s2 H1 H2 | | | |]; subst.
    inversion H1 as [| ? ? Hp | | | | |]; subst.
    apply matches_star_cls in H2. simpl.
    split; [discriminate|]. now rewrite Hp, H2.
  - intros [Hne H]. destruct s as [|c s]; [congruence|]. simpl in H.
    apply andb_true_iff in H as [Hc Hs].
    change (c :: s) with ([c] ++ s). constructor.
    + now constructor.
    + now apply matches_star_cls.
Qed.

Lemma matches_chr (c : N) (s : jsstring) : matches (Chr c) s <-> s = [c].
Proof.
  unfold Chr. split.
  - intros H. inversion H as [| ? ? Hp | | | | |]; subst.
    apply N.eqb_eq in Hp. now subst.
  - intros ->. constructor. apply N.eqb_refl.
Qed.

End RegexFacts.

(** ** validation.js: the shape of an accepted address *)

Section EmailFacts.

Lemma emailRegex_shape (s : jsstring) :
  regex_test emailRegex s = true <->
  exists local domain tld,
    s = address local domain tld /\ run local /\ run domain /\ run tld.
Proof.
  rewrite regex_test_matches. unfold emailRegex, address, run. split.
  - intros H.
    inversion H as [| | ? ? l x1 Hl H1 | | | |]; subst.
    inversion H1 as [| | ? ? a x2 Ha H2 | | | |]; subst.
    inversion H2 as [| | ? ? d x3 Hd H3 | | | |]; subst.
    inversion H3 as [| | ? ? b t Hb Ht | | | |]; subst.
    apply matches_chr in Ha, Hb. subst.
    apply matches_plus_cls in Hl, Hd, Ht.
    exists l, d, t. simpl. auto.
  - intros (l & d & t & -> & Hl & Hd & Ht).
    constructor; [now apply matches_plus_cls|].
    change (at_sign :: d ++ dot :: t) with ([at_sign] ++ d ++ [dot] ++ t).
    constructor; [now apply matches_chr|].
    constructor; [now apply matches_plus_cls|].
    constructor; [now apply matches_chr | now apply matches_plus_cls].
Qed.

Lemma not_space_at_space (c : N) : not_space_at c = true -> is_space c = false.
Proof.
  unfold not_space_at. intros H. apply andb_true_iff in H as [H _].
  now apply negb_true_iff.
Qed.

Lemma run_head (s t : jsstring) : run s -> trimStart (s ++ t) = s ++ t.
Proof.
  intros [Hne H]. destruct s as [|c s]; [congruence|]. simpl in H.
  apply andb_true_iff in H as [Hc _]. simpl.
  now rewrite (not_space_at_space _ Hc).
Qed.

Lemma address_trimmed (local domain tld : jsstring) :
  run local -> run domain -> run tld -> trimmed (address local domain tld).
Proof.
  intros Hl Hd Ht. unfold trimmed, address. split.
  - now apply run_head.
  - replace (local ++ at_sign :: domain ++ dot :: tld)
      with ((local ++ at_sign :: domain ++ [dot]) ++ tld)
      by (rewrite <- app_assoc; simpl; now rewrite <- app_assoc).
    rewrite rev_app_distr. apply run_head.
    destruct Ht as [Hne H]. split.
    + intros E. apply Hne. apply (f_equal (@rev N)) in E.
      now rewrite rev_involutive in E.
    + now rewrite forallb_rev_eq.
Qed.

Lemma address_no_space (local domain tld : jsstring) :
  run local -> run domain -> run tld ->
  forallb (fun c => negb (is_space c)) (address local domain tld) = true.
Proof.
  intros [_ Hl] [_ Hd] [_ Ht]. unfold address.
  assert (A : forall s, forallb not_space_at s = true ->
                        forallb (fun c => negb (is_space c)) s = true).
  { induction s as [|c s IH]; simpl; auto. intros H.
    apply andb_true_iff in H as [Hc Hs].
    now rewrite (not_space_at_space _ Hc), IH. }
  rewrite forallb_app. simpl. rewrite forallb_app. simpl.
  now rewrite !A.
Qed.

End EmailFacts.

(** ** validation.js: the order of the rules *)

Section ValidationFacts.

Lemma rejections_distinct : NoDup (map rejection rules_in_order).
Proof.
  repeat constructor; simpl; intuition discriminate.
Qed.

Lemma blank_false_string (v : value) :
  blank v = false -> exists s, v = JStr s /\ trim s <> [] /\ truthy v = true.
Proof.
  unfold blank. destruct v as [| | [|c s]]; simpl; try discriminate.
  intros H. apply str_eqb_neq in H. now exists (c :: s).
Qed.

Lemma trim_of_trimmed (v : value) : trimmed (trim_of v).
Proof.
  destruct v; simpl; try apply trimmed_nil. apply trim_trimmed.
Qed.

End ValidationFacts.

(** C1.  [validateContactForm] checks its rules in the fixed order name,
    company, contact method, email format, phone format: when some rule
    fails, the call returns the rejection and raises exactly one
    notification, the error message of the first failing rule, and no
    message of any other rule; when none fails, it returns a submission
    and raises nothing.  In particular a blank name always yields the
    name-required rejection, whatever the other fields are. *)
Theorem validateContactForm_first_failing_rule
    (name email phoneNumber company comment : value) :
  (forall r,
      first_failure name email phoneNumber company = Some r ->
      validateContactForm name email phoneNumber company comment
      = ([showError (rejection r)], None)
      /\ forall r', In r' rules_in_order -> rejection r' <> rejection r ->
           ~ In (showError (rejection r'))
                (fst (validateContactForm name email phoneNumber company
                                          comment)))
  /\ (first_failure name email phoneNumber company = None ->
      exists sub,
        validateContactForm name email phoneNumber company comment
        = ([], Some sub))
  /\ (blank name = true ->
      validateContactForm name email phoneNumber company comment
      = ([showError msg_name_required], None)).
Proof.
  assert (Hfirst : forall r,
    first_failure name email phoneNumber company = Some r ->
    validateContactForm name email phoneNumber company comment
    = ([showError (rejection r)], None)).
  { unfold first_failure, validateContactForm. simpl.
    destruct (blank name), (blank company), (blank email),
      (blank phoneNumber), (isValidEmail email),
      (isValidPhoneNumber phoneNumber); simpl;
      intros r E; inversion E; subst; reflexivity. }
  split; [|split].
  - intros r E. split; [now apply Hfirst|].
    rewrite (Hfirst r E). simpl. intros r' _ Hne [H | []].
    unfold showError in H. congruence.
  - unfold first_failure, validateContactForm. simpl.
    destruct (blank name), (blank company), (blank email),
      (blank phoneNumber), (isValidEmail email),
      (isValidPhoneNumber phoneNumber); simpl;
      intros E; try discriminate; eexists; reflexivity.
  - unfold validateContactForm. now intros ->.
Qed.

Lemma validateContactForm_first_failing_rule_witness :
  validateContactForm (JStr []) (JStr (js "a@b.com")) (JStr [])
                      (JStr (js "Acme")) (JStr [])
  = ([showError msg_name_required], None)
  /\ validateContactForm (JStr (js "Jo")) (JStr (js "not-an-email")) (JStr [])
                         (JStr (js "Acme")) (JStr (js "hi"))
     = ([showError msg_invalid_email], None)
  /\ exists sub,
       validateContactForm (JStr (js "Jo")) (JStr (js "jo@x.com")) (JStr [])
                           (JStr (js "Acme")) (JStr (js "custom text"))
       = ([], Some sub).
Proof.
  split; [|split].
  - apply (validateContactForm_first_failing_rule
             (JStr []) (JStr (js "a@b.com")) (JStr [])
             (JStr (js "Acme")) (JStr [])).
    reflexivity.
  - apply (proj1 (validateContactForm_first_failing_rule
             (JStr (js "Jo")) (JStr (js "not-an-email")) (JStr [])
             (JStr (js "Acme")) (JStr (js "hi"))) email_rule).
    vm_compute. reflexivity.
  - apply (validateContactForm_first_failing_rule
             (JStr (js "Jo")) (JStr (js "jo@x.com")) (JStr [])
             (JStr (js "Acme")) (JStr (js "custom text"))).
    vm_compute. reflexivity.
Defined.

(** C2, as the code has it.  Whenever all rules pass, the call raises no
    notification and returns a record whose name, email, phoneNumber and
    company are the trimmed inputs (the empty string for an absent email
    or phone), and whose comment is the input comment verbatim, not
    trimmed, when that is not blank, and otherwise the default text made
    of the name and company as given, joined by " from " and followed by
    " was interested in your portfolio". *)
Theorem validateContactForm_success_record
    (name0 email0 phone0 company0 comment0 : value)
    (tr : list event) (sub : submission) :
  validateContactForm name0 email0 phone0 company0 comment0 = (tr, Some sub) ->
  tr = [] /\ success sub = true
  /\ (exists n c,
        name0 = JStr n /\ company0 = JStr c
        /\ name sub = trim n /\ company sub = trim c
        /\ finalComment sub
           = if blank comment0
             then n ++ js " from " ++ c ++ js " was interested in your portfolio"
             else to_string comment0)
  /\ email sub = (if truthy email0 then trim_of email0 else [])
  /\ phoneNumber sub = (if truthy phone0 then trim_of phone0 else [])
  /\ trimmed (name sub) /\ trimmed (email sub)
  /\ trimmed (phoneNumber sub) /\ trimmed (company sub).
Proof.
  unfold validateContactForm.
  destruct (blank name0) eqn:Bn; [discriminate|].
  destruct (blank company0) eqn:Bc; [discriminate|].
  destruct (blank email0 && blank phone0); [discriminate|].
  destruct (negb (blank email0) && negb (isValidEmail email0));
    [discriminate|].
  destruct (negb (blank phone0) && negb (isValidPhoneNumber phone0));
    [discriminate|].
  intros E. injection E as <- <-. simpl.
  destruct (blank_false_string _ Bn) as (n & -> & _ & _).
  destruct (blank_false_string _ Bc) as (c & -> & _ & _).
  do 2 (split; [reflexivity|]).
  split.
  { exists n, c. do 4 (split; [reflexivity|]).
    now destruct (blank comment0). }
  do 2 (split; [reflexivity|]).
  split; [apply trim_trimmed|].
  split; [destruct (truthy email0);
          [apply trim_of_trimmed | apply trimmed_nil]|].
  split; [destruct (truthy phone0);
          [apply trim_of_trimmed | apply trimmed_nil]|].
  apply trim_trimmed.
Qed.

Lemma validateContactForm_success_record_witness :
  exists sub,
    validateContactForm (JStr (js "Jo")) (JStr []) (JStr (js "0612345678"))
                        (JStr (js "Acme")) (JStr [])
    = ([], Some sub)
    /\ finalComment sub = js "Jo from Acme was interested in your portfolio"
    /\ name sub = js "Jo" /\ company sub = js "Acme"
    /\ email sub = [] /\ phoneNumber sub = js "0612345678"
    /\ trimmed (phoneNumber sub).
Proof.
  eexists. split; [vm_compute; reflexivity|].
  destruct (validateContactForm_success_record
              (JStr (js "Jo")) (JStr []) (JStr (js "0612345678"))
              (JStr (js "Acme")) (JStr []) [] _ eq_refl)
    as (_ & _ & (n & c & En & Ec & Hn & Hc & Hf) & He & Hp & _ & _ & Ht & _).
  injection En as <-. injection Ec as <-.
  split; [exact Hf|]. split; [exact Hn|]. split; [exact Hc|].
  split; [exact He|]. split; [exact Hp | exact Ht].
Defined.

(** C2 as stated fails: a comment with white space around it comes back
    verbatim, so the comment field of the record is not trimmed. *)
Lemma validateContactForm_comment_not_trimmed :
  exists sub,
    validateContactForm (JStr (js "Jo")) (JStr (js "jo@x.com")) (JStr [])
                        (JStr (js "Acme")) (JStr (js " hi "))
    = ([], Some sub)
    /\ finalComment sub = js " hi "
    /\ ~ trimmed (finalComment sub).
Proof.
  eexists. split; [vm_compute; reflexivity|]. split; [reflexivity|].
  intros [H _]. vm_compute in H. discriminate.
Qed.

(** Refute membership of an event in an explicit trace. *)
Ltac not_in_trace :=
  cbn [fst In app];
  let H := fresh "H" in
  intro H;
  repeat match type of H with
         | _ \/ _ => destruct H as [H | H]; [vm_compute in H; discriminate|]
         end;
  try contradiction.

(** C9.  [isValidEmail] trims before it matches: an address of the shape
    local@domain.tld with white space around it is accepted, although
    the pattern alone rejects the padded text.  So the email rule of
    [validateContactForm] lets the padded address through (the record
    carries it trimmed), and the target check of [sendEmail] does not
    raise its invalid-recipient error. *)
Theorem isValidEmail_accepts_padded
    (local domain tld ws1 ws2 : jsstring) :
  run local -> run domain -> run tld ->
  forallb is_space ws1 = true -> forallb is_space ws2 = true ->
  let addr := address local domain tld in
  let padded := JStr (ws1 ++ addr ++ ws2) in
  isValidEmail padded = true
  /\ (ws1 ++ ws2 <> [] -> regex_test emailRegex (ws1 ++ addr ++ ws2) = false)
  /\ (forall name phone company comment,
        ~ In (showError msg_invalid_email)
             (fst (validateContactForm name padded phone company comment)))
  /\ (forall name phone company comment,
        blank name = false -> blank company = false -> blank phone = true ->
        exists sub,
          validateContactForm name padded phone company comment
          = ([], Some sub)
          /\ email sub = addr)
  /\ (forall env init title content senderEmail senderPhone,
        ~ In (showError msg_invalid_recipient)
             (fst (sendEmail env init padded title content
                             senderEmail senderPhone))).
Proof.
  intros Hl Hd Ht H1 H2 addr padded.
  assert (Htrim : trim (ws1 ++ addr ++ ws2) = addr)
    by (apply trim_padded; auto; now apply address_trimmed).
  assert (Hne : exists c t, ws1 ++ addr ++ ws2 = c :: t).
  { destruct ws1 as [|w ws1]; [|now exists w, (ws1 ++ addr ++ ws2)].
    destruct Hl as [Hl _]. unfold addr, address.
    destruct local as [|c l]; [congruence|]. simpl. eauto. }
  assert (Hshape : regex_test emailRegex addr = true)
    by (apply emailRegex_shape; now exists local, domain, tld).
  assert (Hvalid : isValidEmail padded = true).
  { unfold isValidEmail, padded. destruct Hne as (c & t & E).
    simpl. rewrite Htrim. rewrite E. simpl. exact Hshape. }
  assert (Hblank : blank padded = false).
  { unfold blank, padded. destruct Hne as (c & t & E). simpl.
    rewrite Htrim. rewrite E. simpl. apply str_eqb_neq.
    destruct Hl as [Hl _]. unfold addr, address.
    destruct local; [congruence | discriminate]. }
  split; [exact Hvalid|]. split; [|split; [|split]].
  - intros Hpad.
    destruct (regex_test emailRegex (ws1 ++ addr ++ ws2)) eqn:E; auto.
    exfalso. apply emailRegex_shape in E as (l & d & t & E & Rl & Rd & Rt).
    pose proof (address_no_space l d t Rl Rd Rt) as A. rewrite <- E in A.
    rewrite !forallb_app in A.
    apply andb_true_iff in A as [A1 A]. apply andb_true_iff in A as [_ A2].
    destruct ws1 as [|w ws1].
    + destruct ws2 as [|w ws2]; [now apply Hpad|].
      simpl in H2, A2. destruct (is_space w); discriminate.
    + simpl in H1, A1. destruct (is_space w); discriminate.
  - intros name phone company comment. unfold validateContactForm.
    rewrite Hblank, Hvalid. simpl.
    destruct (blank name), (blank company),
      (negb (blank phone) && negb (isValidPhoneNumber phone));
      cbn [negb andb orb]; not_in_trace.
  - intros name phone company comment Bn Bc Bp. unfold validateContactForm.
    rewrite Hblank, Hvalid, Bn, Bc, Bp. simpl.
    eexists. split; [reflexivity|]. simpl.
    destruct Hne as (c & t & E). unfold padded. rewrite E. simpl.
    rewrite <- E. exact Htrim.
  - intros env init title content senderEmail senderPhone.
    assert (Htruthy : truthy padded = true)
      by (destruct Hne as (c & t & E); unfold padded; now rewrite E).
    unfold sendEmail. rewrite Hvalid, Htruthy.
    destruct (emailjs_loaded env); cbn [negb orb andb].
    + unfold credential_warnings.
      destruct (isValidCredentials env), (isLocalDev env), init,
        (is_literal (serviceID env) placeholder_service
         || negb (truthy (serviceID env))),
        (is_literal (templateID env) placeholder_template
         || negb (truthy (templateID env))),
        (is_literal (publicKey env) placeholder_key
         || negb (truthy (publicKey env)));
        cbn [negb andb orb]; not_in_trace.
    + not_in_trace.
Qed.

Lemma isValidEmail_accepts_padded_witness :
  isValidEmail (JStr (js "  jo@x.com ")) = true
  /\ regex_test emailRegex (js "  jo@x.com ") = false.
Proof.
  destruct (isValidEmail_accepts_padded
              (js "jo") (js "x") (js "com") (js "  ") (js " "))
    as (H & R & _).
  - split; [discriminate | reflexivity].
  - split; [discriminate | reflexivity].
  - split; [discriminate | reflexivity].
  - reflexivity.
  - reflexivity.
  - split; [exact H | apply R; discriminate].
Defined.

(** ** security.js: [escapeHtml] *)

Section EscapeFacts.

Lemma html_entity_some (c : N) (e : jsstring) :
  html_entity c = Some e ->
  exists tail,
    e = amp :: tail /\ In tail entity_tails /\ ~ In amp tail
    /\ forallb (fun x => negb (is_markup x)) e = true.
Proof.
  unfold html_entity.
  destruct (c =? amp)%N; [|destruct (c =? lt)%N; [|destruct (c =? gt)%N;
    [|destruct (c =? quot)%N; [|destruct (c =? apos)%N]]]];
    intros E; try discriminate; injection E as <-;
    eexists; (split; [reflexivity|]);
    (split; [simpl; tauto|]);
    (split; [|reflexivity]);
    vm_compute; intuition discriminate.
Qed.

Lemma html_entity_none (c : N) :
  html_entity c = None <->
  c <> amp /\ c <> lt /\ c <> gt /\ c <> quot /\ c <> apos.
Proof.
  unfold html_entity.
  destruct (N.eqb_spec c amp), (N.eqb_spec c lt), (N.eqb_spec c gt),
    (N.eqb_spec c quot), (N.eqb_spec c apos);
    split; try discriminate; try tauto; intuition congruence.
Qed.

Lemma replace_entities_no_markup (s : jsstring) :
  forallb (fun x => negb (is_markup x)) (replace_entities s) = true.
Proof.
  induction s as [|c s IH]; simpl; auto.
  destruct (html_entity c) as [e|] eqn:E.
  - destruct (html_entity_some _ _ E) as (tail & _ & _ & _ & F).
    now rewrite forallb_app, F, IH.
  - apply html_entity_none in E as (_ & E1 & E2 & E3 & E4).
    simpl. rewrite IH, andb_true_r. unfold is_markup.
    apply N.eqb_neq in E1, E2, E3, E4. now rewrite E1, E2, E3, E4.
Qed.



End EscapeFacts.



(** ** projects.js: the size toggle *)

Section ToggleFacts.

Lemma contains_add_same (tok : jsstring) (l : list jsstring) :
  contains tok (class_add tok l) = true.
Proof.
  unfold class_add. destruct (contains tok l) eqn:E; auto.
  unfold contains. rewrite existsb_app. simpl.
  rewrite str_eqb_refl. apply orb_true_r.
Qed.

Lemma contains_add_other (t tok : jsstring) (l : list jsstring) :
  t <> tok -> contains t (class_add tok l) = contains t l.
Proof.
  intros Hne. unfold class_add. destruct (contains tok l); auto.
  unfold contains. rewrite existsb_app. simpl.
  apply str_eqb_neq in Hne. rewrite Hne. simpl. apply orb_false_r.
Qed.

Lemma contains_remove_same (tok : jsstring) (l : list jsstring) :
  contains tok (class_remove tok l) = false.
Proof.
  unfold contains, class_remove. induction l as [|a l IH]; simpl; auto.
  destruct (str_eqb tok a) eqn:E; simpl; auto. now rewrite E.
Qed.

Lemma contains_remove_other (t tok : jsstring) (l : list jsstring) :
  t <> tok -> contains t (class_remove tok l) = contains t l.
Proof.
  intros Hne. unfold contains, class_remove.
  induction l as [|a l IH]; simpl; auto.
  destruct (str_eqb tok a) eqn:E; simpl.
  - apply str_eqb_eq in E. subst a. apply str_eqb_neq in Hne.
    now rewrite Hne.
  - now rewrite IH.
Qed.

Lemma contains_toggle (t tok : jsstring) (force : bool) (l : list jsstring) :
  contains t (class_toggle tok force l)
  = if str_eqb t tok then force else contains t l.
Proof.
  unfold class_toggle. destruct (str_eqb t tok) eqn:E.
  - apply str_eqb_eq in E. subst.
    destruct force; [apply contains_add_same | apply contains_remove_same].
  - apply str_eqb_neq in E.
    destruct force;
      [now apply contains_add_other | now apply contains_remove_other].
Qed.

Lemma card_element_consistent (big : Z) :
  big = PROJECT_STATE_LARGE \/ big = PROJECT_STATE_SMALL ->
  consistent (card_element big).
Proof.
  intros [-> | ->]; [left | right]; repeat split.
Qed.

Lemma large_small_distinct : project_large <> project_small.
Proof. discriminate. Qed.

End ToggleFacts.

Section ToggleProofs.

Lemma toggled_classes (small large : bool) (l : list jsstring)
    (t : jsstring) :
  contains t (class_toggle project_small small
                (class_toggle project_large large l))
  = if str_eqb t project_small then small
    else if str_eqb t project_large then large
         else contains t l.
Proof. now rewrite !contains_toggle. Qed.

Lemma toggle_result_consistent (e : element) :
  exists e', toggleProjectBox (Some e) = Some e' /\ consistent e'.
Proof.
  eexists. split; [reflexivity|]. unfold consistent. simpl.
  rewrite !toggled_classes.
  destruct (is_one (data_expanded e)); simpl; [right | left]; auto.
Qed.

Lemma is_one_flip (b : bool) :
  is_one (Some (if b then js "0" else js "1")) = negb b.
Proof. now destruct b. Qed.

End ToggleProofs.

(** C7.  [toggleProjectBox] is its own inverse on a card whose
    [data-expanded] is 1 or 0: one call flips the attribute and leaves
    the matching size class in place of the other, two calls give the
    attribute back, and, when the classes agreed with the attribute to
    begin with (as on every rendered card), the same set of classes.  On
    the element rendered by [developProject] two calls give back the very
    same class list.  A null reference is left alone. *)
Theorem toggleProjectBox_involutive :
  toggleProjectBox None = None
  /\ (forall e,
        data_expanded e = Some (js "1") \/ data_expanded e = Some (js "0") ->
        exists e1 e2,
          toggleProjectBox (Some e) = Some e1
          /\ toggleProjectBox (Some e1) = Some e2
          /\ (data_expanded e = Some (js "1") ->
              data_expanded e1 = Some (js "0")
              /\ contains project_small (classList e1) = true
              /\ contains project_large (classList e1) = false)
          /\ (data_expanded e = Some (js "0") ->
              data_expanded e1 = Some (js "1")
              /\ contains project_large (classList e1) = true
              /\ contains project_small (classList e1) = false)
          /\ data_expanded e2 = data_expanded e
          /\ data_skill e2 = data_skill e
          /\ (consistent e ->
              forall t, contains t (classList e2) = contains t (classList e)))
  /\ (forall big,
        big = PROJECT_STATE_LARGE \/ big = PROJECT_STATE_SMALL ->
        toggleProjectBox (toggleProjectBox (Some (card_element big)))
        = Some (card_element big)).
Proof.
  split; [reflexivity|]. split.
  - intros e He. do 2 eexists.
    split; [reflexivity|]. split; [reflexivity|].
    cbn [data_expanded classList data_skill].
    rewrite is_one_flip, negb_involutive, !toggled_classes.
    split; [|split; [|split; [|split]]].
    + intros E. rewrite E. simpl. auto.
    + intros E. rewrite E. simpl. auto.
    + destruct He as [E | E]; rewrite E; reflexivity.
    + reflexivity.
    + intros Hc t. rewrite !toggled_classes.
      destruct (str_eqb t project_small) eqn:Es.
      * apply str_eqb_eq in Es. subst t.
        destruct Hc as [(E & _ & Hs) | (E & Hs & _)]; rewrite E, Hs;
          reflexivity.
      * destruct (str_eqb t project_large) eqn:El; auto.
        apply str_eqb_eq in El. subst t.
        destruct Hc as [(E & Hl & _) | (E & _ & Hl)]; rewrite E, Hl;
          reflexivity.
  - intros big [-> | ->]; reflexivity.
Qed.

Lemma toggleProjectBox_involutive_witness :
  toggleProjectBox (toggleProjectBox (Some (card_element 1)))
  = Some (card_element 1)
  /\ exists e1 e2,
       toggleProjectBox (Some (card_element 0)) = Some e1
       /\ toggleProjectBox (Some e1) = Some e2
       /\ data_expanded e1 = Some (js "1")
       /\ data_expanded e2 = data_expanded (card_element 0)
       /\ forall t, contains t (classList e2)
                    = contains t (classList (card_element 0)).
Proof.
  destruct toggleProjectBox_involutive as (_ & Hflip & Hcard).
  split.
  - apply Hcard. now left.
  - destruct (Hflip (card_element 0) (or_intror eq_refl))
      as (e1 & e2 & E1 & E2 & _ & H0 & Hback & _ & Hcls).
    exists e1, e2. repeat split; auto.
    + now apply H0.
    + apply Hcls. apply card_element_consistent. now right.
Defined.

(** C10.  One call of [toggleProjectBox] on any element, whatever its
    [data-expanded] attribute and classes were, leaves [data-expanded]
    equal to 0 or 1 and exactly one of the two size classes:
    [project-large] with 1, [project-small] with 0. *)
Theorem toggleProjectBox_establishes_consistency (e : element) :
  exists e',
    toggleProjectBox (Some e) = Some e'
    /\ ((data_expanded e' = Some (js "1")
         /\ contains project_large (classList e') = true
         /\ contains project_small (classList e') = false)
        \/ (data_expanded e' = Some (js "0")
            /\ contains project_small (classList e') = true
            /\ contains project_large (classList e') = false))
    /\ (contains project_large (classList e') = true
        <-> data_expanded e' = Some (js "1")).
Proof.
  destruct (toggle_result_consistent e) as (e' & E & Hc).
  exists e'. split; [exact E|]. split; [exact Hc|].
  destruct Hc as [(Hd & Hl & _) | (Hd & _ & Hl)]; rewrite Hd, Hl;
    split; auto; discriminate.
Qed.

Lemma toggleProjectBox_establishes_consistency_witness :
  exists e',
    toggleProjectBox
      (Some {| data_expanded := Some (js "yes");
               data_skill := None;
               classList := [project_small; project_large; project_box] |})
    = Some e'
    /\ data_expanded e' = Some (js "1")
    /\ contains project_large (classList e') = true
    /\ contains project_small (classList e') = false.
Proof.
  destruct (toggleProjectBox_establishes_consistency
              {| data_expanded := Some (js "yes");
                 data_skill := None;
                 classList := [project_small; project_large; project_box] |})
    as (e' & E & [Large | (Hd & _)] & _).
  - exists e'. split; [exact E | exact Large].
  - exfalso. injection E as <-. discriminate Hd.
Defined.

(** ** language.js: the path for the other locale *)

Section LanguageFacts.

Lemma skipn_length_app (a b : jsstring) : skipn (length a) (a ++ b) = b.
Proof. induction a; simpl; auto. Qed.

Lemma firstn_length_app (a b : jsstring) : firstn (length a) (a ++ b) = a.
Proof. induction a; simpl; congruence. Qed.

Lemma all2_length (f : N -> N -> bool) (p s : jsstring) :
  all2 f p s = true -> length p = length s.
Proof.
  revert s. induction p as [|a p IH]; destruct s as [|b s]; simpl;
    try discriminate; auto.
  intros H. apply andb_true_iff in H as [_ H]. f_equal. now apply IH.
Qed.

Lemma all2_app (f : N -> N -> bool) (p1 p2 s1 s2 : jsstring) :
  all2 f p1 s1 = true -> all2 f p2 s2 = true ->
  all2 f (p1 ++ p2) (s1 ++ s2) = true.
Proof.
  revert s1. induction p1 as [|a p IH]; destruct s1 as [|b s]; simpl;
    try discriminate; auto.
  intros H H2. apply andb_true_iff in H as [H0 H].
  rewrite H0. simpl. now apply IH.
Qed.

Lemma all2_split (f : N -> N -> bool) (p1 p2 s : jsstring) :
  all2 f (p1 ++ p2) s = true ->
  exists s1 s2, s = s1 ++ s2 /\ all2 f p1 s1 = true /\ all2 f p2 s2 = true.
Proof.
  revert s. induction p1 as [|a p IH]; simpl; intros s H.
  - now exists [], s.
  - destruct s as [|b s]; [discriminate|].
    apply andb_true_iff in H as [H0 H].
    destruct (IH s H) as (s1 & s2 & -> & H1 & H2).
    exists (b :: s1), s2. simpl. now rewrite H0, H1.
Qed.

Lemma ends_with_ci_app (lit stem ext : jsstring) :
  all2 eq_ci lit ext = true -> ends_with_ci lit (stem ++ ext) = true.
Proof.
  intros H. pose proof (all2_length _ _ _ H) as L.
  unfold ends_with_ci. rewrite length_app, L.
  replace (length stem + length ext - length ext)%nat with (length stem)
    by lia.
  rewrite skipn_length_app, H, andb_true_r. apply Nat.leb_le. lia.
Qed.

Lemma ends_with_ci_split (lit s : jsstring) :
  ends_with_ci lit s = true ->
  exists stem ext,
    s = stem ++ ext /\ all2 eq_ci lit ext = true
    /\ length stem = (length s - length lit)%nat.
Proof.
  unfold ends_with_ci. intros H. apply andb_true_iff in H as [L H].
  apply Nat.leb_le in L.
  exists (firstn (length s - length lit) s),
         (skipn (length s - length lit) s).
  rewrite firstn_skipn, length_firstn. repeat split; auto. lia.
Qed.

Lemma fr_page_is_page (p : jsstring) :
  ends_with_ci fr_html p = true -> ends_with_ci ext_html p = true.
Proof.
  intros H. destruct (ends_with_ci_split _ _ H) as (stem & x & -> & A & _).
  change fr_html with (js "-fr" ++ ext_html) in A.
  destruct (all2_split _ _ _ _ A) as (x1 & x2 & -> & _ & A2).
  rewrite app_assoc. now apply ends_with_ci_app.
Qed.

Lemma normalizePath_page (p : jsstring) :
  ends_with_ci ext_html p = true -> normalizePath p = p.
Proof. unfold normalizePath. now intros ->. Qed.

Lemma normalizePath_is_page (p : jsstring) :
  ends_with_ci ext_html (normalizePath p) = true.
Proof.
  unfold normalizePath. destruct (ends_with_ci ext_html p) eqn:E; auto.
  simpl. change (js "index.html") with (js "index" ++ ext_html).
  rewrite app_assoc. now apply ends_with_ci_app.
Qed.

Lemma addFr_app (stem ext : jsstring) :
  all2 eq_ci ext_html ext = true ->
  addFr (stem ++ ext) = stem ++ js "-fr" ++ ext.
Proof.
  intros A. unfold addFr. rewrite (ends_with_ci_app _ stem _ A).
  pose proof (all2_length _ _ _ A) as L. change (length ext_html) with 5%nat in L.
  rewrite length_app, <- L.
  replace (length stem + 5 - 5)%nat with (length stem) by lia.
  now rewrite firstn_length_app, skipn_length_app.
Qed.

Lemma removeFr_app (stem fr ext : jsstring) :
  all2 eq_ci (js "-fr") fr = true -> all2 eq_ci ext_html ext = true ->
  removeFr (stem ++ fr ++ ext) = stem ++ ext.
Proof.
  intros F A. unfold removeFr.
  assert (E : ends_with_ci fr_html (stem ++ fr ++ ext) = true).
  { apply ends_with_ci_app. change fr_html with (js "-fr" ++ ext_html).
    now apply all2_app. }
  rewrite E.
  pose proof (all2_length _ _ _ A) as L. change (length ext_html) with 5%nat in L.
  pose proof (all2_length _ _ _ F) as L3. change (length (js "-fr")) with 3%nat in L3.
  rewrite !length_app, <- L, <- L3.
  replace (length stem + (3 + 5) - 8)%nat with (length stem) by lia.
  rewrite firstn_length_app.
  replace (length stem + (3 + 5) - 5)%nat with (length (stem ++ fr))
    by (rewrite length_app; lia).
  now rewrite app_assoc, skipn_length_app.
Qed.

Lemma removeFr_other (p : jsstring) :
  ends_with_ci fr_html p = false -> removeFr p = p.
Proof. unfold removeFr. now intros ->. Qed.

Lemma all2_eq_ci_refl (s : jsstring) : all2 eq_ci s s = true.
Proof.
  induction s as [|c s IH]; simpl; auto.
  unfold eq_ci at 1. now rewrite N.eqb_refl.
Qed.

End LanguageFacts.

(** C6.  The path for the other locale: French inserts -fr right before
    the .html extension (matched without regard to case) unless the page
    is already a French one, English removes it; a route that does not
    name a page is first turned into its index page; switching a page to
    French and back to English gives the page again.  The call navigates
    only when the computed path differs from the current one, and then
    to the same origin, query string and fragment. *)
Theorem switchLanguage_path_transform :
  (forall stem ext,
      all2 eq_ci ext_html ext = true ->
      ends_with_ci fr_html (stem ++ ext) = false ->
      newPath LANGUAGE_FRENCH (stem ++ ext) = stem ++ js "-fr" ++ ext)
  /\ (forall p, ends_with_ci fr_html p = true ->
        newPath LANGUAGE_FRENCH p = p)
  /\ (forall stem fr ext,
        all2 eq_ci (js "-fr") fr = true -> all2 eq_ci ext_html ext = true ->
        newPath LANGUAGE_ENGLISH (stem ++ fr ++ ext) = stem ++ ext)
  /\ (forall p,
        ends_with_ci ext_html p = true -> ends_with_ci fr_html p = false ->
        newPath LANGUAGE_ENGLISH p = p)
  /\ (forall lang p,
        ends_with_ci ext_html p = false ->
        newPath lang p
        = newPath lang ((if endsWith (js "/") p then p else p ++ js "/")
                        ++ js "index.html"))
  /\ (forall p,
        ends_with_ci ext_html p = true -> ends_with_ci fr_html p = false ->
        newPath LANGUAGE_ENGLISH (newPath LANGUAGE_FRENCH p) = p)
  /\ (forall lang u,
        lang = LANGUAGE_ENGLISH \/ lang = LANGUAGE_FRENCH ->
        (newPath lang (pathname u) = pathname u ->
         switchLanguage lang u = ([], None))
        /\ (newPath lang (pathname u) <> pathname u ->
            exists target,
              switchLanguage lang u = ([], Some target)
              /\ pathname target = newPath lang (pathname u)
              /\ origin target = origin u
              /\ search target = search u
              /\ hash target = hash u
              /\ href target
                 = origin u ++ newPath lang (pathname u)
                   ++ search u ++ hash u))
  /\ (newPath LANGUAGE_FRENCH (js "page.html") = js "page-fr.html"
      /\ newPath LANGUAGE_ENGLISH (js "page-fr.html") = js "page.html"
      /\ newPath LANGUAGE_FRENCH (js "page-fr.html") = js "page-fr.html").
Proof.
  assert (French : forall stem ext,
      all2 eq_ci ext_html ext = true ->
      ends_with_ci fr_html (stem ++ ext) = false ->
      newPath LANGUAGE_FRENCH (stem ++ ext) = stem ++ js "-fr" ++ ext).
  { intros stem ext A F. unfold newPath.
    rewrite (normalizePath_page _ (ends_with_ci_app _ stem _ A)), F.
    simpl. now apply addFr_app. }
  assert (English : forall stem fr ext,
      all2 eq_ci (js "-fr") fr = true -> all2 eq_ci ext_html ext = true ->
      newPath LANGUAGE_ENGLISH (stem ++ fr ++ ext) = stem ++ ext).
  { intros stem fr ext F A. unfold newPath.
    rewrite normalizePath_page.
    - simpl. now apply removeFr_app.
    - rewrite app_assoc. now apply ends_with_ci_app. }
  split; [exact French|]. split; [|split; [exact English|]].
  - intros p F. unfold newPath.
    rewrite (normalizePath_page _ (fr_page_is_page _ F)), F. reflexivity.
  - split; [|split; [|split; [|split]]].
    + intros p P F. unfold newPath. rewrite (normalizePath_page _ P).
      simpl. now apply removeFr_other.
    + intros lang p P.
      assert (E : normalizePath p
                  = (if endsWith (js "/") p then p else p ++ js "/")
                    ++ js "index.html").
      { unfold normalizePath. rewrite P. simpl.
        now destruct (endsWith (js "/") p). }
      rewrite <- E. unfold newPath.
      now rewrite (normalizePath_page _ (normalizePath_is_page p)).
    + intros p P F.
      destruct (ends_with_ci_split _ _ P) as (stem & ext & -> & A & _).
      rewrite (French stem ext A F).
      apply English; [apply all2_eq_ci_refl | exact A].
    + intros lang u Hlang. unfold switchLanguage.
      replace (negb (lang =? LANGUAGE_ENGLISH)%Z
               && negb (lang =? LANGUAGE_FRENCH)%Z) with false
        by (destruct Hlang as [-> | ->]; reflexivity).
      split.
      * intros ->. now rewrite str_eqb_refl.
      * intros Hne. apply str_eqb_neq in Hne. rewrite Hne. simpl.
        eexists. split; [reflexivity|]. repeat split.
    + repeat split.
Qed.

Lemma switchLanguage_path_transform_witness :
  newPath LANGUAGE_FRENCH (js "/docs/page" ++ js ".HTML")
  = js "/docs/page" ++ js "-fr" ++ js ".HTML"
  /\ newPath LANGUAGE_ENGLISH (newPath LANGUAGE_FRENCH (js "/page.html"))
     = js "/page.html"
  /\ switchLanguage LANGUAGE_FRENCH
       {| origin := js "https://example.org"; pathname := js "/page-fr.html";
          search := js "?a=1"; hash := js "#top" |} = ([], None)
  /\ exists target,
       switchLanguage LANGUAGE_FRENCH
         {| origin := js "https://example.org"; pathname := js "/";
            search := js "?a=1"; hash := js "#top" |} = ([], Some target)
       /\ pathname target = js "/index-fr.html"
       /\ search target = js "?a=1" /\ hash target = js "#top".
Proof.
  destruct switchLanguage_path_transform
    as (French & _ & _ & _ & _ & Round & Nav & _).
  split; [|split; [|split]].
  - apply French; reflexivity.
  - apply Round; reflexivity.
  - apply (Nav LANGUAGE_FRENCH
             {| origin := js "https://example.org";
                pathname := js "/page-fr.html";
                search := js "?a=1"; hash := js "#top" |}
             (or_intror eq_refl)).
    reflexivity.
  - destruct (Nav LANGUAGE_FRENCH
                {| origin := js "https://example.org"; pathname := js "/";
                   search := js "?a=1"; hash := js "#top" |}
                (or_intror eq_refl)) as (_ & Go).
    destruct Go as (target & E & Hp & _ & Hs & Hh & _); [discriminate|].
    exists target. repeat split; auto.
Defined.

(** ** email.js: the unconfigured service *)

Section EmailConfigFacts.

Lemma is_literal_eq (v : value) (s : jsstring) :
  is_literal v s = true <-> v = JStr s.
Proof.
  destruct v; simpl; try (split; discriminate).
  rewrite str_eqb_eq. split; congruence.
Qed.

Lemma credential_ok (v : value) (placeholder : jsstring) :
  truthy v && negb (is_literal v placeholder) = false
  <-> missing_or_placeholder v placeholder.
Proof.
  unfold missing_or_placeholder. rewrite <- is_literal_eq.
  destruct (truthy v), (is_literal v placeholder); simpl;
    intuition discriminate.
Qed.

Lemma unconfigured_iff (env : emailEnv) :
  unconfigured env <-> isValidCredentials env = false.
Proof.
  unfold unconfigured, isValidCredentials.
  rewrite <- !credential_ok.
  destruct (truthy (serviceID env)), (truthy (templateID env)),
    (truthy (publicKey env)),
    (is_literal (serviceID env) placeholder_service),
    (is_literal (templateID env) placeholder_template),
    (is_literal (publicKey env) placeholder_key); simpl; intuition.
Qed.

Lemma credential_warnings_plain (env : emailEnv) :
  forallb (fun e => negb (is_delivery e)) (credential_warnings env) = true
  /\ existsb logs_payload (credential_warnings env) = false
  /\ filter is_notify (credential_warnings env) = [].
Proof.
  unfold credential_warnings.
  destruct (is_literal (serviceID env) placeholder_service
            || negb (truthy (serviceID env))),
    (is_literal (templateID env) placeholder_template
     || negb (truthy (templateID env))),
    (is_literal (publicKey env) placeholder_key
     || negb (truthy (publicKey env))); repeat split.
Qed.

Lemma isLocalDev_iff (env : emailEnv) :
  isLocalDev env = true
  <-> hostname env = js "localhost" \/ hostname env = js "127.0.0.1".
Proof.
  unfold isLocalDev. now rewrite orb_true_iff, !str_eqb_eq.
Qed.

End EmailConfigFacts.

(** C8, as the code has it.  With a credential missing or still the
    placeholder, [sendEmail] never initialises or calls the delivery
    service and leaves its initialisation flag alone.  When moreover the
    EmailJS library is loaded and the target address is valid, the call
    raises exactly one notification, the preview-only notice, after the
    credential warnings; it logs the would-be payload when, and only
    when, the host name is localhost or 127.0.0.1. *)
Theorem sendEmail_unconfigured_preview
    (env : emailEnv) (init : bool)
    (target title content senderEmail senderPhone : value) :
  unconfigured env ->
  let r := sendEmail env init target title content senderEmail senderPhone in
  let body := emailContent content (param_default senderEmail (JStr []))
                           (param_default senderPhone (JStr [])) in
  forallb (fun e => negb (is_delivery e)) (fst r) = true
  /\ snd r = init
  /\ (emailjs_loaded env = true -> truthy target = true ->
      isValidEmail target = true ->
      filter is_notify (fst r) = [showInfo msg_preview]
      /\ (hostname env = js "localhost" \/ hostname env = js "127.0.0.1" ->
          fst r
          = credential_warnings env
            ++ [Console LvLog
                  [AStr (js "Email would be sent with the following content:")];
                Console LvLog [APayload target title body]]
            ++ [showInfo msg_preview])
      /\ (hostname env <> js "localhost" -> hostname env <> js "127.0.0.1" ->
          fst r = credential_warnings env ++ [showInfo msg_preview]
          /\ existsb logs_payload (fst r) = false)).
Proof.
  intros Hun r body. apply unconfigured_iff in Hun.
  destruct (credential_warnings_plain env) as (Wd & Wp & Wn).
  subst r. unfold sendEmail. rewrite Hun. cbn [negb].
  destruct (emailjs_loaded env) eqn:Hl; cbn [negb].
  - destruct (negb (truthy target) || negb (isValidEmail target)) eqn:Ht.
    + split; [reflexivity|]. split; [reflexivity|].
      intros _ H1 H2. rewrite H1, H2 in Ht. discriminate.
    + cbn [fst snd]. split; [|split; [reflexivity|]].
      * rewrite !forallb_app, Wd. now destruct (isLocalDev env).
      * intros _ _ _. split; [|split].
        -- rewrite !filter_app, Wn. now destruct (isLocalDev env).
        -- intros Hh. apply isLocalDev_iff in Hh. now rewrite Hh.
        -- intros N1 N2.
           assert (Hh : isLocalDev env = false).
           { unfold isLocalDev. apply str_eqb_neq in N1, N2.
             now rewrite N1, N2. }
           rewrite Hh. split; [reflexivity|].
           cbn [app]. rewrite existsb_app, Wp. reflexivity.
  - split; [reflexivity|]. split; [reflexivity|]. discriminate.
Qed.

Lemma sendEmail_unconfigured_preview_witness :
  let target := JStr (js "owner@example.org") in
  let run host :=
    fst (sendEmail (shipped_env true host) false target
                   (JStr (js "Jo - Acme")) (JStr (js "hi"))
                   (JStr (js "jo@x.com")) JUndefined) in
  filter is_notify (run (js "example.org")) = [showInfo msg_preview]
  /\ existsb logs_payload (run (js "example.org")) = false
  /\ existsb logs_payload (run (js "localhost")) = true
  /\ forallb (fun e => negb (is_delivery e)) (run (js "localhost")) = true.
Proof.
  intros target run.
  assert (U : forall host, unconfigured (shipped_env true host))
    by (intros host; left; right; reflexivity).
  pose proof (fun host =>
    sendEmail_unconfigured_preview (shipped_env true host) false target
      (JStr (js "Jo - Acme")) (JStr (js "hi")) (JStr (js "jo@x.com"))
      JUndefined (U host)) as H.
  cbv zeta in H.
  destruct (H (js "example.org")) as (_ & _ & P).
  destruct (P eq_refl eq_refl eq_refl) as (N & _ & Q).
  destruct Q as (_ & Q); [discriminate | discriminate |].
  destruct (H (js "localhost")) as (D & _ & P').
  destruct (P' eq_refl eq_refl eq_refl) as (_ & L & _).
  split; [exact N|]. split; [exact Q|]. split; [|exact D].
  unfold run. rewrite (L (or_introl eq_refl)). reflexivity.
Defined.

(** C8 as stated fails: with the placeholder credentials and a target
    that is not an address, or without the EmailJS library, the call
    raises an error and no preview notice. *)
Lemma sendEmail_unconfigured_without_preview :
  unconfigured (shipped_env true (js "example.org"))
  /\ fst (sendEmail (shipped_env true (js "example.org")) false
                    (JStr (js "not-an-email")) (JStr (js "Jo - Acme"))
                    (JStr (js "hi")) (JStr (js "jo@x.com")) JUndefined)
     = [showError msg_invalid_recipient;
        Console LvError [AStr (js "Invalid target email:");
                         AVal (JStr (js "not-an-email"))]]
  /\ fst (sendEmail (shipped_env false (js "example.org")) false
                    (JStr (js "owner@example.org")) (JStr (js "Jo - Acme"))
                    (JStr (js "hi")) (JStr (js "jo@x.com")) JUndefined)
     = [showError msg_unavailable;
        Console LvError [AStr (js "EmailJS is not loaded.")]]
  /\ ~ In (showInfo msg_preview)
          (fst (sendEmail (shipped_env true (js "example.org")) false
                          (JStr (js "not-an-email")) (JStr (js "Jo - Acme"))
                          (JStr (js "hi")) (JStr (js "jo@x.com")) JUndefined)).
Proof.
  split; [left; right; reflexivity|].
  split; [reflexivity|]. split; [reflexivity|].
  vm_compute. intuition discriminate.
Qed.

(** ** notifications.js: one pending expiry per kind *)

Section NotificationFacts.

Lemma messageId_inj (k1 k2 : kind) : messageId k1 = messageId k2 -> k1 = k2.
Proof. destruct k1, k2; intros H; try reflexivity; discriminate. Qed.

Lemma in_clearTimeout (x : timer) (t : N) (l : list timer) :
  In x (clearTimeout t l) <-> In x l /\ timer_id x <> t.
Proof.
  unfold clearTimeout. rewrite filter_In, negb_true_iff, N.eqb_neq. tauto.
Qed.

Lemma in_clear_existing (x : timer) (slot : option N) (l : list timer) :
  In x (clear_existing slot l) ->
  In x l /\ forall t, slot = Some t -> (1 <= t)%N -> timer_id x <> t.
Proof.
  unfold clear_existing. destruct slot as [t|].
  - destruct (N.eqb_spec t 0).
    + intros H. split; auto. intros t' E. injection E as <-. lia.
    + intros H. apply in_clearTimeout in H as [H1 H2]. split; auto.
      intros t' E. now injection E as <-.
  - intros H. split; auto. discriminate.
Qed.

Lemma clear_existing_keeps (x : timer) (slot : option N) (l : list timer) :
  In x l -> slot <> Some (timer_id x) -> In x (clear_existing slot l).
Proof.
  unfold clear_existing. intros H Hs. destruct slot as [t|]; auto.
  destruct (t =? 0)%N; auto. apply in_clearTimeout. split; auto.
  congruence.
Qed.

Lemma NoDup_map_filter {A B : Type} (f : A -> B) (P : A -> bool) (l : list A) :
  NoDup (map f l) -> NoDup (map f (filter P l)).
Proof.
  induction l as [|a l IH]; simpl; auto.
  intros H. inversion H as [|? ? Hn Hd]; subst.
  destruct (P a); auto. simpl. constructor; auto.
  intros Hin. apply Hn. apply in_map_iff in Hin as (x & E & Hx).
  apply filter_In in Hx as [Hx _]. apply in_map_iff. now exists x.
Qed.

Lemma NoDup_map_clear_existing (slot : option N) (l : list timer) :
  NoDup (map timer_id l) -> NoDup (map timer_id (clear_existing slot l)).
Proof.
  unfold clear_existing, clearTimeout. destruct slot as [t|]; auto.
  destruct (t =? 0)%N; auto. apply NoDup_map_filter.
Qed.

Lemma filter_at_most_one {A B : Type} (f : A -> B) (P : A -> bool)
    (l : list A) :
  NoDup (map f l) ->
  (forall x y, In x l -> In y l -> P x = true -> P y = true -> f x = f y) ->
  (length (filter P l) <= 1)%nat.
Proof.
  induction l as [|a l IH]; simpl; auto.
  intros Hnd Hsame. inversion Hnd as [|? ? Hn Hd]; subst.
  destruct (P a) eqn:Pa.
  - destruct (filter P l) as [|b l'] eqn:E; simpl; auto.
    exfalso. assert (Hb : In b (filter P l)) by (rewrite E; now left).
    apply filter_In in Hb as [Hb Pb]. apply Hn.
    rewrite (Hsame a b); auto. now apply in_map.
  - apply IH; auto.
Qed.

Lemma initial_inv (s : state) : initial s -> inv s.
Proof.
  intros [Hp Hl Hs Hn Hr Hi]. unfold inv. rewrite Hl.
  constructor; rewrite ?Hp; simpl; try tauto; auto.
  - constructor.
  - intros k t E. rewrite Hs in E. discriminate.
  - intros k1 k2 t E. rewrite Hs in E. discriminate.
  - constructor.
Qed.

Lemma upd_timers_same (m : kind -> option N) (k : kind) (t : N) :
  upd_timers m k t k = Some t.
Proof. unfold upd_timers. now rewrite kind_eqb_refl. Qed.

Lemma upd_timers_other (m : kind -> option N) (k k' : kind) (t : N) :
  k' <> k -> upd_timers m k t k' = m k'.
Proof.
  intros H. unfold upd_timers. apply kind_eqb_neq in H. now rewrite H.
Qed.

Lemma upd_id_same (m : jsstring -> option nat) (i : jsstring) (r : nat) :
  upd_id m i r i = Some r.
Proof. unfold upd_id. now rewrite str_eqb_refl. Qed.

Lemma upd_id_other (m : jsstring -> option nat) (i i' : jsstring) (r : nat) :
  i' <> i -> upd_id m i r i' = m i'.
Proof.
  intros H. unfold upd_id. apply str_eqb_neq in H. now rewrite H.
Qed.

(** The timer part of the invariant after a new timer for kind [k] has
    been appended to a sublist [old] of the pending timers that holds no
    timer of kind [k]. *)
Lemma inv_set_timer (ls : list listener) (s s' : state) (k : kind)
    (old : list timer) (d : N) (r : nat) :
  inv_with ls s ->
  (forall t, In t old -> In t (pending s) /\ for_kind t <> k) ->
  NoDup (map timer_id old) ->
  pending s' = old ++ [{| timer_id := next_timer s; due := d;
                          target := r; for_kind := k |}] ->
  messageTimers s' = upd_timers (messageTimers s) k (next_timer s) ->
  next_timer s' = N.succ (next_timer s) ->
  by_id s' (messageId k) = Some r ->
  (forall i, i <> messageId k -> by_id s' i = by_id s i) ->
  (forall i r0, by_id s' i = Some r0 -> (r0 < next_ref s')%nat) ->
  (forall i j r0, by_id s' i = Some r0 -> by_id s' j = Some r0 -> i = j) ->
  (forall l, In l ls ->
     (l_div l < next_ref s')%nat /\ forall i, by_id s' i <> Some (l_div l)) ->
  NoDup (map l_div ls) ->
  inv_with ls s'.
Proof.
  intros I Hold Hnd Ep Em En Er Eo Hrefs Hinj Hls Hlnd.
  destruct I. constructor; auto; rewrite ?Ep, ?Em, ?En.
  - intros t Hin. apply in_app_iff in Hin as [Hin | [<- | []]]; simpl.
    + destruct (Hold t Hin) as [Hp Hk].
      rewrite upd_timers_other; auto.
    + apply upd_timers_same.
  - rewrite map_app. simpl. apply NoDup_app; auto.
    + repeat constructor. simpl. tauto.
    + intros x Hx [<- | []].
      apply in_map_iff in Hx as (t & E & Hin).
      destruct (Hold t Hin) as [Hp _].
      apply inv_pending_range0 in Hp. lia.
  - lia.
  - intros k' t. destruct (kind_eq_dec k' k) as [-> | E].
    + rewrite upd_timers_same. intros H. injection H as <-. lia.
    + rewrite upd_timers_other; auto. intros H.
      apply inv_slot_range0 in H. lia.
  - intros k1 k2 t.
    destruct (kind_eq_dec k1 k) as [-> | E1];
      destruct (kind_eq_dec k2 k) as [-> | E2]; auto;
      rewrite ?upd_timers_same, ?upd_timers_other by auto.
    + intros H1 H2. injection H1 as <-. apply inv_slot_range0 in H2. lia.
    + intros H1 H2. injection H2 as <-. apply inv_slot_range0 in H1. lia.
    + apply inv_slot_inj0.
  - intros t Hin. apply in_app_iff in Hin as [Hin | [<- | []]]; simpl.
    + destruct (Hold t Hin) as [Hp _]. apply inv_pending_range0 in Hp. lia.
    + lia.
  - intros t Hin. apply in_app_iff in Hin as [Hin | [<- | []]]; simpl.
    + destruct (Hold t Hin) as [Hp Hk]. rewrite Eo.
      * now apply inv_target0.
      * intros E. apply Hk. now apply messageId_inj.
    + exact Er.
Qed.

(** The timers that survive the guarded [clearTimeout] for kind [k] are
    of other kinds. *)
Lemma cleared_other_kinds (ls : list listener) (s : state) (k : kind)
    (t : timer) :
  inv_with ls s ->
  In t (clear_existing (messageTimers s k) (pending s)) ->
  In t (pending s) /\ for_kind t <> k.
Proof.
  intros I Hin. apply in_clear_existing in Hin as [Hin Hne].
  split; auto. intros E.
  pose proof (inv_slot _ _ I t Hin) as Hs. rewrite E in Hs.
  apply (Hne _ Hs); auto. apply (inv_slot_range _ _ I _ _ Hs).
Qed.

Lemma inv_display_message (ls : list listener) (k : kind) (m : jsstring)
    (d : N) (r : nat) (s : state) :
  inv_with ls s -> by_id s (messageId k) = Some r ->
  inv_with ls (display_message k m d r s).
Proof.
  intros I Hr.
  apply (inv_set_timer ls s _ k
           (clear_existing (messageTimers s k) (pending s))
           (now s + d)%N r I); simpl; auto.
  - intros t. now apply cleared_other_kinds with (ls := ls).
  - apply NoDup_map_clear_existing, I.
  - apply I.
  - apply I.
  - apply I.
  - apply I.
Qed.

Lemma inv_showMessage (k : kind) (m : jsstring) (d : N) (s : state) :
  inv s -> inv (showMessage k m d s).
Proof.
  unfold inv, showMessage. intros I.
  destruct (by_id s (messageId k)) as [r|] eqn:Er.
  - now apply inv_display_message.
  - destruct (has_body s).
    + apply inv_display_message; simpl; [|apply upd_id_same].
      destruct I. constructor; simpl; auto.
      * intros t Hin. rewrite upd_id_other; auto.
        intros E. apply messageId_inj in E.
        pose proof (inv_target0 t Hin) as H. rewrite E, Er in H.
        discriminate.
      * intros i r. unfold upd_id. destruct (str_eqb i (messageId k)).
        -- intros H. injection H as <-. lia.
        -- intros H. apply inv_refs0 in H. lia.
      * intros i j r. unfold upd_id.
        destruct (str_eqb i (messageId k)) eqn:Ei;
          destruct (str_eqb j (messageId k)) eqn:Ej.
        -- apply str_eqb_eq in Ei, Ej. congruence.
        -- intros H1 H2. injection H1 as <-. apply inv_refs0 in H2. lia.
        -- intros H1 H2. injection H2 as <-. apply inv_refs0 in H1. lia.
        -- apply inv_ids0.
      * intros l Hl. destruct (inv_listener_refs0 l Hl) as [H1 H2].
        split; [lia|]. intros i. unfold upd_id.
        destruct (str_eqb i (messageId k)); auto.
        intros H. injection H as H. lia.
    + destruct I. constructor; simpl; auto.
      * intros i r H. apply inv_refs0 in H. lia.
      * intros l Hl. apply in_app_iff in Hl as [Hl | [<- | []]]; simpl.
        -- destruct (inv_listener_refs0 l Hl). split; auto.
        -- split; [lia|]. intros i H. apply inv_refs0 in H. lia.
      * rewrite map_app. simpl. apply NoDup_app; auto.
        -- repeat constructor. simpl. tauto.
        -- intros x Hx [<- | []].
           apply in_map_iff in Hx as (l & E & Hl).
           destruct (inv_listener_refs0 l Hl). lia.
Qed.

Lemma inv_run_listener (l : listener) (ls : list listener) (s : state) :
  inv_with (l :: ls) s -> inv_with ls (run_listener l s).
Proof.
  intros I. unfold run_listener.
  assert (Weak : inv_with ls s).
  { destruct I. constructor; auto.
    - intros l' Hl'. apply inv_listener_refs0. now right.
    - now inversion inv_listener_nodup0. }
  destruct (by_id s (messageId (l_kind l))) eqn:Er; auto.
  destruct (has_body s); auto.
  destruct (inv_listener_refs _ _ I l (or_introl eq_refl)) as [Hlt Hfree].
  apply (inv_set_timer ls s _ (l_kind l) (pending s)
           (now s + l_duration l)%N (l_div l) Weak); simpl; auto.
  - intros t Hin. split; auto. intros E.
    pose proof (inv_target _ _ I t Hin) as H. rewrite E, Er in H.
    discriminate.
  - apply I.
  - apply upd_id_same.
  - intros i Hi. now apply upd_id_other.
  - intros i r. unfold upd_id. destruct (str_eqb i (messageId (l_kind l))).
    + intros H. now injection H as <-.
    + apply I.
  - intros i j r. unfold upd_id.
    destruct (str_eqb i (messageId (l_kind l))) eqn:Ei;
      destruct (str_eqb j (messageId (l_kind l))) eqn:Ej.
    + apply str_eqb_eq in Ei, Ej. congruence.
    + intros H1 H2. injection H1 as <-. now apply Hfree in H2.
    + intros H1 H2. injection H2 as <-. now apply Hfree in H1.
    + apply I.
  - intros l' Hl'.
    destruct (inv_listener_refs _ _ I l' (or_intror Hl')) as [H1 H2].
    split; auto. intros i. unfold upd_id.
    destruct (str_eqb i (messageId (l_kind l))); auto.
    intros H. injection H as H.
    pose proof (inv_listener_nodup _ _ I) as Hnd. simpl in Hnd.
    inversion Hnd as [|? ? Hn _]; subst. apply Hn. rewrite H.
    now apply in_map.
  - apply Weak.
Qed.

Lemma inv_run_listeners (ls : list listener) (s : state) :
  inv_with ls s ->
  inv_with [] (fold_left (fun acc l => run_listener l acc) ls s).
Proof.
  revert s. induction ls as [|l ls IH]; simpl; intros s I; auto.
  apply IH. now apply inv_run_listener.
Qed.

Lemma inv_step (s s' : state) : inv s -> step s s' -> inv s'.
Proof.
  intros I St. destruct St.
  - now apply inv_showMessage.
  - destruct I. constructor; simpl; auto.
    + intros x Hx. apply in_clearTimeout in Hx as [Hx _]. auto.
    + now apply NoDup_map_filter.
    + intros x Hx. apply in_clearTimeout in Hx as [Hx _]. auto.
    + intros x Hx. apply in_clearTimeout in Hx as [Hx _]. auto.
  - destruct I. constructor; simpl; auto.
  - destruct I. constructor; simpl; auto.
  - unfold inv, domContentLoaded. simpl.
    pose proof (inv_run_listeners _ _ I) as I'.
    destruct I'. constructor; simpl; auto.
Qed.

Lemma reachable_inv (s : state) : reachable s -> inv s.
Proof.
  induction 1 as [s Hi | s s' _ IH St].
  - now apply initial_inv.
  - exact (inv_step _ _ IH St).
Qed.

End NotificationFacts.

Section NotificationProofs.

Lemma at_most_one_pending (s : state) (k : kind) :
  inv s -> (length (pending_for k s) <= 1)%nat.
Proof.
  intros I. unfold pending_for.
  apply (filter_at_most_one timer_id); [apply I|].
  intros x y Hx Hy Px Py. apply kind_eqb_eq in Px, Py.
  pose proof (inv_slot _ _ I x Hx) as Sx.
  pose proof (inv_slot _ _ I y Hy) as Sy.
  rewrite Px in Sx. rewrite Py in Sy. congruence.
Qed.

Lemma filter_none {A : Type} (P : A -> bool) (l : list A) :
  (forall x, In x l -> P x = false) -> filter P l = [].
Proof.
  induction l as [|a l IH]; simpl; auto. intros H.
  rewrite (H a (or_introl eq_refl)). apply IH. intros x Hx. apply H. now right.
Qed.

Lemma filter_filter_keep {A : Type} (P Q : A -> bool) (l : list A) :
  (forall x, In x l -> P x = true -> Q x = true) ->
  filter P (filter Q l) = filter P l.
Proof.
  induction l as [|a l IH]; simpl; auto. intros H.
  assert (IH' : filter P (filter Q l) = filter P l)
    by (apply IH; intros x Hx; apply H; now right).
  destruct (Q a) eqn:Qa; simpl.
  - now rewrite IH'.
  - destruct (P a) eqn:Pa; auto.
    rewrite (H a (or_introl eq_refl) Pa) in Qa. discriminate.
Qed.

(** After the guarded [clearTimeout] for kind [k], no timer of kind [k]
    is left and every timer of another kind is. *)
Lemma cleared_pending_for (s : state) (k k' : kind) :
  inv s ->
  filter (of_kind k') (clear_existing (messageTimers s k) (pending s))
  = if kind_eqb k' k then [] else pending_for k' s.
Proof.
  intros I. destruct (kind_eqb k' k) eqn:E.
  - apply kind_eqb_eq in E. subst k'. apply filter_none.
    intros t Hin. apply (cleared_other_kinds _ _ _ _ I) in Hin as [_ Hk].
    now apply kind_eqb_neq.
  - apply kind_eqb_neq in E. unfold pending_for, clear_existing.
    destruct (messageTimers s k) as [t0|] eqn:Es; auto.
    destruct (t0 =? 0)%N; auto. unfold clearTimeout.
    apply filter_filter_keep. intros x Hx Px.
    apply kind_eqb_eq in Px. apply negb_true_iff, N.eqb_neq. intros Ex.
    pose proof (inv_slot _ _ I x Hx) as Sx. rewrite Px, Ex in Sx.
    apply E. exact (inv_slot_inj _ _ I _ _ _ Sx Es).
Qed.

Lemma showMessage_now (k : kind) (m : jsstring) (d : N) (s : state) :
  now (showMessage k m d s) = now s
  /\ has_body (showMessage k m d s) = has_body s.
Proof.
  unfold showMessage.
  destruct (by_id s (messageId k)); [now split|].
  destruct (has_body s) eqn:E; now split.
Qed.

(** What a call of [showMessage] that reaches its tail does to the
    timers and to the message of its kind. *)
Lemma showMessage_displayed (k : kind) (m : jsstring) (d : N) (s : state) :
  inv s ->
  has_body s = true \/ pending_for k s <> [] ->
  let s' := showMessage k m d s in
  exists r,
    pending s'
    = clear_existing (messageTimers s k) (pending s)
      ++ [{| timer_id := next_timer s; due := (now s + d)%N;
             target := r; for_kind := k |}]
    /\ messageTimers s' k = Some (next_timer s)
    /\ by_id s' (messageId k) = Some r
    /\ textContent (heap s' r) = m
    /\ style_display (heap s' r) = DisplayBlock.
Proof.
  intros I Hcase. unfold showMessage.
  destruct (by_id s (messageId k)) as [r|] eqn:Er.
  - exists r. simpl. rewrite upd_timers_same. unfold upd_heap.
    rewrite Nat.eqb_refl. auto.
  - assert (Hb : has_body s = true).
    { destruct Hcase as [Hb | Hp]; auto. exfalso.
      destruct (pending_for k s) as [|t l] eqn:E; [congruence|].
      assert (Hin : In t (pending_for k s)) by (rewrite E; now left).
      apply filter_In in Hin as [Hin Hk]. apply kind_eqb_eq in Hk.
      pose proof (inv_target _ _ I t Hin) as H. rewrite Hk, Er in H.
      discriminate. }
    rewrite Hb. exists (next_ref s). simpl.
    rewrite upd_timers_same, upd_id_same. unfold upd_heap.
    rewrite Nat.eqb_refl. auto.
Qed.

Lemma fire_other_kind (s : state) (t : timer) (k' : kind) :
  inv s -> In t (pending s) -> k' <> for_kind t ->
  message_of k' (fire t s) = message_of k' s.
Proof.
  intros I Hin Hk. unfold message_of, fire. simpl.
  destruct (by_id s (messageId k')) as [r|] eqn:Er; auto. simpl.
  unfold upd_heap. destruct (Nat.eqb_spec r (target t)) as [E | E]; auto.
  exfalso. apply Hk. apply messageId_inj.
  apply (inv_ids _ _ I _ _ r); auto.
  rewrite E. now apply (inv_target _ _ I).
Qed.

End NotificationProofs.

(** C5.  In every state the module can reach, each message kind has at
    most one pending expiry.  A call of [showMessage] for a kind whose
    message can be shown (the body exists, or an expiry of that kind is
    still pending) shows the text, cancels the expiry that was pending
    for the kind and schedules exactly one, due one duration after the
    call, without touching the expiries of the other kinds; so two calls
    of the same kind leave one expiry, timed from the second call.  The
    expiry of one kind leaves the message of every other kind as it
    was. *)
Theorem showMessage_single_expiry (s : state) :
  reachable s ->
  (forall k, (length (pending_for k s) <= 1)%nat)
  /\ (forall k m d,
        has_body s = true \/ pending_for k s <> [] ->
        exists t dv,
          pending_for k (showMessage k m d s) = [t]
          /\ due t = (now s + d)%N
          /\ messageTimers (showMessage k m d s) k = Some (timer_id t)
          /\ (forall t0, In t0 (pending_for k s) ->
                ~ In t0 (pending (showMessage k m d s)))
          /\ (forall k', k' <> k ->
                pending_for k' (showMessage k m d s) = pending_for k' s)
          /\ message_of k (showMessage k m d s) = Some dv
          /\ textContent dv = m /\ style_display dv = DisplayBlock)
  /\ (forall k m1 m2 dt,
        has_body s = true ->
        exists t,
          pending_for k (show k m2 (advance dt (show k m1 s))) = [t]
          /\ due t = (now s + dt + default_duration)%N)
  /\ (forall t k',
        In t (pending s) -> k' <> for_kind t ->
        message_of k' (fire t s) = message_of k' s).
Proof.
  intros R. pose proof (reachable_inv _ R) as I.
  assert (Shown : forall s0 k m d,
    inv s0 -> has_body s0 = true \/ pending_for k s0 <> [] ->
    exists t dv,
      pending_for k (showMessage k m d s0) = [t]
      /\ due t = (now s0 + d)%N
      /\ messageTimers (showMessage k m d s0) k = Some (timer_id t)
      /\ (forall t0, In t0 (pending_for k s0) ->
            ~ In t0 (pending (showMessage k m d s0)))
      /\ (forall k', k' <> k ->
            pending_for k' (showMessage k m d s0) = pending_for k' s0)
      /\ message_of k (showMessage k m d s0) = Some dv
      /\ textContent dv = m /\ style_display dv = DisplayBlock).
  { intros s0 k m d I0 Hcase.
    destruct (showMessage_displayed k m d s0 I0 Hcase)
      as (r & Ep & Es & Er & Et & Ed).
    assert (Ek : forall k',
      pending_for k' (showMessage k m d s0)
      = if kind_eqb k' k
        then [{| timer_id := next_timer s0; due := (now s0 + d)%N;
                 target := r; for_kind := k |}]
        else pending_for k' s0).
    { intros k'. unfold pending_for at 1. rewrite Ep, filter_app.
      fold (of_kind k'). rewrite (cleared_pending_for s0 k k' I0).
      simpl. unfold of_kind. simpl. rewrite (kind_eqb_sym k k').
      destruct (kind_eqb k' k); simpl; auto. apply app_nil_r. }
    eexists. exists (heap (showMessage k m d s0) r).
    split; [rewrite Ek, kind_eqb_refl; reflexivity|].
    split; [reflexivity|]. split; [exact Es|].
    split; [|split; [|split; [|split]]]; auto.
    - intros t0 H0 Hin.
      apply filter_In in H0 as [H0 K0].
      assert (Hk : In t0 (pending_for k (showMessage k m d s0)))
        by (apply filter_In; split; auto).
      rewrite Ek, kind_eqb_refl in Hk. destruct Hk as [<- | []].
      apply (inv_pending_range _ _ I0) in H0. simpl in H0. lia.
    - intros k' Hk. rewrite Ek. apply kind_eqb_neq in Hk. now rewrite Hk.
    - unfold message_of. now rewrite Er. }
  split; [intros k; now apply at_most_one_pending|].
  split; [intros k m d; now apply Shown|].
  split.
  - intros k m1 m2 dt Hb.
    set (s1 := show k m1 s). set (s2 := advance dt s1).
    assert (R2 : reachable s2).
    { apply reach_step with s1; [|constructor].
      apply reach_step with s; [exact R | constructor]. }
    destruct (showMessage_now k m1 default_duration s) as [En Eb].
    destruct (Shown s2 k m2 default_duration (reachable_inv _ R2))
      as (t & _ & Ep & Ed & _).
    + left. unfold s2, s1, show. simpl. congruence.
    + exists t. split; [exact Ep|]. rewrite Ed. unfold s2, s1, show.
      simpl. now rewrite En.
  - intros t k'. now apply fire_other_kind.
Qed.

Lemma fresh_page_initial : initial fresh_page.
Proof.
  constructor; simpl; auto; try discriminate; lia.
Qed.

Lemma showMessage_single_expiry_witness :
  (exists t,
     pending_for KError
       (show KError (js "x") (advance 1000 (show KError (js "x") fresh_page)))
     = [t] /\ due t = 6000%N)
  /\ (let s := show KSuccess (js "ok") (show KError (js "x") fresh_page) in
      let t := {| timer_id := 1; due := 5000; target := 0;
                  for_kind := KError |} in
      In t (pending s)
      /\ message_of KSuccess (fire t s) = message_of KSuccess s).
Proof.
  split.
  - destruct (showMessage_single_expiry fresh_page
                (reach_init _ fresh_page_initial)) as (_ & _ & Two & _).
    destruct (Two KError (js "x") (js "x") 1000%N eq_refl) as (t & E & D).
    exists t. split; [exact E | exact D].
  - cbv zeta.
    assert (R : reachable
                  (show KSuccess (js "ok") (show KError (js "x") fresh_page))).
    { apply reach_step with (show KError (js "x") fresh_page);
        [|constructor].
      apply reach_step with fresh_page; [|constructor].
      apply reach_init, fresh_page_initial. }
    destruct (showMessage_single_expiry _ R) as (_ & _ & _ & Fire).
    assert (Hin : In {| timer_id := 1; due := 5000; target := 0;
                        for_kind := KError |}
                     (pending (show KSuccess (js "ok")
                                    (show KError (js "x") fresh_page))))
      by (vm_compute; auto).
    split; [exact Hin|]. apply Fire; [exact Hin | discriminate].
Defined.

(** ** Keys, selectors and the elements they reach *)

Section KeyFacts.

Lemma key_char_ascii (c : N) : key_char c = true -> (c < 128)%N.
Proof.
  unfold key_char, uri_unreserved, is_alnum, is_upper, is_lower, digit,
    percent.
  rewrite !orb_true_iff, !andb_true_iff, !N.leb_le, !N.eqb_eq. lia.
Qed.

Lemma key_char_cases (c : N) :
  key_char c = true -> In c (filter key_char ascii_range).
Proof.
  intros H. apply filter_In. split; auto.
  apply in_map_iff. exists (N.to_nat c). split; [apply N2Nat.id|].
  apply in_seq. apply key_char_ascii in H. lia.
Qed.

(** Case analysis on a character of the key alphabet. *)
Ltac each_key_char H :=
  apply key_char_cases in H; vm_compute in H;
  repeat (destruct H as [<- | H]); try contradiction.

Lemma hex_upper_digit_key (d : N) :
  (d < 16)%N -> key_char (hex_upper_digit d) = true.
Proof.
  intros H.
  assert (E : (d = 0 \/ d = 1 \/ d = 2 \/ d = 3 \/ d = 4 \/ d = 5 \/ d = 6
               \/ d = 7 \/ d = 8 \/ d = 9 \/ d = 10 \/ d = 11 \/ d = 12
               \/ d = 13 \/ d = 14 \/ d = 15)%N) by lia.
  repeat (destruct E as [-> | E]; [reflexivity|]). now subst.
Qed.

Lemma pct_key_chars (octet : N) : forallb key_char (pct octet) = true.
Proof.
  unfold pct. simpl.
  rewrite !hex_upper_digit_key by (apply N.mod_lt; discriminate).
  reflexivity.
Qed.

Lemma pcts_key_chars (octets : list N) :
  forallb key_char (concat (map pct octets)) = true.
Proof.
  induction octets as [|o l IH]; simpl; auto.
  rewrite IH. pose proof (pct_key_chars o) as H. unfold pct in H.
  simpl in H. now rewrite H.
Qed.

Lemma prepend_some (pre s k : jsstring) (r : option jsstring) :
  prepend pre r = Some k -> exists k', r = Some k' /\ k = pre ++ k'.
Proof.
  destruct r as [k'|]; simpl; [|discriminate].
  intros H. injection H as <-. now exists k'.
Qed.

(** Every key is over the key alphabet. *)
Lemma encodeURIComponent_alphabet (s k : jsstring) :
  encodeURIComponent s = Some k -> forallb key_char k = true.
Proof.
  remember (length s) as n eqn:En. revert s k En.
  induction n as [n IH] using lt_wf_ind. intros s k En.
  destruct s as [|c s]; simpl.
  - intros H. now injection H as <-.
  - destruct (uri_unreserved c) eqn:Hu.
    + intros H. apply (prepend_some _ s) in H as (k' & H & ->).
      simpl. unfold key_char at 1. rewrite Hu. simpl.
      apply (IH (length s)) with (s := s); simpl in En; auto; lia.
    + destruct (is_high_surrogate c).
      * destruct s as [|c2 s]; [discriminate|].
        destruct (is_low_surrogate c2); [|discriminate].
        intros H. apply (prepend_some _ s) in H as (k' & H & ->).
        rewrite forallb_app, pcts_key_chars. simpl.
        apply (IH (length s)) with (s := s); simpl in En; auto; lia.
      * destruct (is_low_surrogate c); [discriminate|].
        intros H. apply (prepend_some _ s) in H as (k' & H & ->).
        rewrite forallb_app, pcts_key_chars. simpl.
        apply (IH (length s)) with (s := s); simpl in En; auto; lia.
Qed.

Lemma css_preprocess_plain (s : jsstring) :
  forallb css_plain s = true -> css_preprocess s = s.
Proof.
  induction s as [|c s IH]; simpl; auto.
  intros H. apply andb_true_iff in H as [Hc Hs].
  unfold css_plain in Hc.
  repeat (apply andb_true_iff in Hc as [Hc ?]).
  repeat match goal with
         | H : negb _ = true |- _ => apply negb_true_iff in H
         end.
  assert (Hh : is_high_surrogate c = false /\ is_low_surrogate c = false).
  { unfold is_surrogate, is_high_surrogate, is_low_surrogate in *.
    apply andb_false_iff in H. rewrite !N.leb_gt in H.
    split; apply andb_false_iff; rewrite !N.leb_gt; lia. }
  destruct Hh as [-> ->]. rewrite Hc, H1, H0. now rewrite IH.
Qed.

Lemma strip_prefix_app (p s : jsstring) : strip_prefix p (p ++ s) = Some s.
Proof.
  induction p as [|a p IH]; simpl; auto. now rewrite N.eqb_refl.
Qed.

(** One unit of a key, escaped by [CSS.escape], reads back as itself. *)
Lemma css_escape_unit_reads_back (c : N) :
  key_char c = true ->
  forall idx first len tail,
    consume_string TPlain (css_escape_unit idx first len c ++ tail)
    = with_value [c] (consume_string TPlain tail)
    /\ forallb css_plain (css_escape_unit idx first len c) = true.
Proof.
  intros H idx first len tail. unfold css_escape_unit.
  each_key_char H;
    destruct (idx =? 0)%nat, (idx =? 1)%nat, (len =? 1)%nat,
      (first =? 45)%N; split; reflexivity.
Qed.

(** One unit of a key, escaped by the fallback, reads back as itself. *)
Lemma fallback_unit_reads_back (c : N) :
  key_char c = true ->
  forall tail,
    consume_string TPlain
      ((if css_special c then [backslash; c] else [c]) ++ tail)
    = with_value [c] (consume_string TPlain tail)
    /\ forallb css_plain (if css_special c then [backslash; c] else [c])
       = true.
Proof.
  intros H tail. each_key_char H; split; reflexivity.
Qed.

Lemma with_value_cons (c : N) (k rest : jsstring) :
  with_value [c] (Some (k, rest)) = Some (c :: k, rest).
Proof. reflexivity. Qed.

Lemma CSS_escape_reads_back (k rest : jsstring) :
  forallb key_char k = true ->
  forall idx first len,
    consume_string TPlain (css_escape_from idx first len k ++ quot :: rest)
    = Some (k, rest)
    /\ forallb css_plain (css_escape_from idx first len k) = true.
Proof.
  induction k as [|c k IH]; simpl; intros H idx first len.
  - split; reflexivity.
  - apply andb_true_iff in H as [Hc Hk].
    destruct (css_escape_unit_reads_back c Hc idx first len
                (css_escape_from (S idx) first len k ++ quot :: rest))
      as [E P].
    destruct (IH Hk (S idx) first len) as [E' P'].
    rewrite <- app_assoc, E, E', forallb_app, P, P'. now split.
Qed.

Lemma fallback_escape_unfold (c : N) (k : jsstring) :
  fallback_escape (c :: k)
  = (if css_special c then [backslash; c] else [c]) ++ fallback_escape k.
Proof. simpl. now destruct (css_special c). Qed.

Lemma fallback_escape_reads_back (k rest : jsstring) :
  forallb key_char k = true ->
  consume_string TPlain (fallback_escape k ++ quot :: rest) = Some (k, rest)
  /\ forallb css_plain (fallback_escape k) = true.
Proof.
  induction k as [|c k IH]; intros H.
  - split; reflexivity.
  - simpl in H. apply andb_true_iff in H as [Hc Hk].
    rewrite fallback_escape_unfold.
    destruct (fallback_unit_reads_back c Hc
                (fallback_escape k ++ quot :: rest)) as [E P].
    destruct (IH Hk) as [E' P'].
    rewrite <- app_assoc, E, E', forallb_app, P, P'. now split.
Qed.

Lemma safeCssEscape_reads_back (has_css_escape : bool) (k rest : jsstring) :
  forallb key_char k = true ->
  consume_string TPlain
    (safeCssEscape has_css_escape (JStr k) ++ quot :: rest) = Some (k, rest)
  /\ forallb css_plain (safeCssEscape has_css_escape (JStr k)) = true.
Proof.
  intros H. unfold safeCssEscape. simpl. destruct has_css_escape.
  - now apply CSS_escape_reads_back.
  - now apply fallback_escape_reads_back.
Qed.

Lemma skill_selector_shape (has_css_escape : bool) (k : jsstring) :
  skill_selector has_css_escape k
  = selector_open ++ safeCssEscape has_css_escape (JStr k) ++ quot :: js "]".
Proof.
  unfold skill_selector, selector_open, attr.
  rewrite <- !app_assoc. reflexivity.
Qed.

(** The selector built for a key compares the attribute with the key. *)
Lemma attr_selector_value_key (has_css_escape : bool) (k : jsstring) :
  forallb key_char k = true ->
  attr_selector_value (skill_selector has_css_escape k) = Some k.
Proof.
  intros H. unfold attr_selector_value.
  destruct (safeCssEscape_reads_back has_css_escape k (js "]") H) as [E P].
  rewrite skill_selector_shape, css_preprocess_plain.
  - now rewrite strip_prefix_app, E.
  - rewrite forallb_app, forallb_app, P. reflexivity.
Qed.

Lemma html_attr_value_key (k rest : jsstring) :
  forallb key_char k = true ->
  html_attr_value (k ++ quot :: rest) = Some (k, rest).
Proof.
  induction k as [|c k IH]; simpl; intros H.
  - reflexivity.
  - apply andb_true_iff in H as [Hc Hk]. rewrite (IH Hk).
    each_key_char Hc; reflexivity.
Qed.

End KeyFacts.

Section HighlightFacts.

Lemma has_skill_iff (k : jsstring) (e : element) :
  has_skill k e = true <-> data_skill e = Some k.
Proof.
  unfold has_skill. destruct (data_skill e) as [x|].
  - rewrite str_eqb_eq. split; congruence.
  - split; discriminate.
Qed.

Lemma querySelectorAll_key (has_css_escape : bool) (k : jsstring) :
  forallb key_char k = true ->
  querySelectorAll (skill_selector has_css_escape k) = Some (has_skill k).
Proof.
  intros H. unfold querySelectorAll.
  now rewrite attr_selector_value_key.
Qed.

Lemma highlight_each_keys (has_css_escape isHovering : bool)
    (skills keys : list jsstring) (d : document) :
  map (fun s => normalizeSkillKey (JStr s)) skills = map Some keys ->
  highlight_each has_css_escape isHovering skills d
  = Done (fold_left (fun acc k => mark isHovering k acc) keys d).
Proof.
  revert keys d. induction skills as [|s skills IH]; intros keys d E.
  - destruct keys; [reflexivity | discriminate].
  - destruct keys as [|k keys]; [discriminate|]. simpl in E.
    injection E as Ek E. simpl. rewrite Ek.
    rewrite querySelectorAll_key
      by (apply (encodeURIComponent_alphabet _ _ Ek)).
    now apply IH.
Qed.

End HighlightFacts.

(** ** projects.js: the tags in the markup of a card *)

Section RenderedTags.

Lemma join_nil_concat (l : list jsstring) : join [] l = concat l.
Proof.
  induction l as [|x l IH]; [reflexivity|].
  destruct l as [|y l]; [simpl; now rewrite app_nil_r|].
  change (join [] (x :: y :: l)) with (x ++ [] ++ join [] (y :: l)).
  now rewrite IH.
Qed.

Lemma render_skills_all (skills : list jsstring) :
  (forall s, In s skills -> normalizeSkillKey (JStr s) <> None) ->
  exists tags, render_skills skills = Some tags.
Proof.
  induction skills as [|s skills IH]; intros H; [now exists []|].
  destruct IH as (tags & E); [intros x Hx; apply H; now right|].
  simpl. unfold render_skill.
  destruct (normalizeSkillKey (JStr s)) as [k|] eqn:Ek.
  - rewrite E. eexists. reflexivity.
  - exfalso. apply (H s); [now left | exact Ek].
Qed.

Lemma render_skills_none (skills : list jsstring) :
  render_skills skills = None <->
  exists s, In s skills /\ normalizeSkillKey (JStr s) = None.
Proof.
  induction skills as [|s skills IH]; simpl.
  - split; [discriminate | intros (s & [] & _)].
  - unfold render_skill at 1.
    destruct (normalizeSkillKey (JStr s)) as [k|] eqn:Ek.
    + destruct (render_skills skills) as [tags|].
      * split; [discriminate|]. intros (x & [<- | Hx] & En); [congruence|].
        assert (N : @None (list jsstring) = None) by reflexivity.
        destruct IH as [_ IH]. discriminate IH. now exists x.
      * split; [|reflexivity]. intros _.
        destruct IH as [IH _]. destruct (IH eq_refl) as (x & Hx & En).
        exists x. split; [now right | exact En].
    + split; [|reflexivity]. intros _. exists s. split; [now left | exact Ek].
Qed.

(** The tags are rendered in the order of the skills, one for each. *)
Lemma render_skills_in (skills tags : list jsstring) (s k : jsstring) :
  render_skills skills = Some tags -> In s skills ->
  normalizeSkillKey (JStr s) = Some k ->
  exists t1 t2,
    join [] tags = t1 ++ skill_tag k (escapeHtml (JStr s)) ++ t2.
Proof.
  rewrite join_nil_concat. revert tags.
  induction skills as [|x skills IH]; intros tags R Hin Ek; [destruct Hin|].
  simpl in R. destruct (render_skill x) as [tag|] eqn:Ex; [|discriminate].
  destruct (render_skills skills) as [tags'|] eqn:R'; [|discriminate].
  injection R as <-. destruct Hin as [-> | Hin].
  - unfold render_skill in Ex. rewrite Ek in Ex. injection Ex as <-.
    exists [], (concat tags'). reflexivity.
  - destruct (IH tags' eq_refl Hin Ek) as (t1 & t2 & E).
    exists (tag ++ t1), t2. simpl. now rewrite E, <- app_assoc.
Qed.

Lemma around_step (x : jsstring) (r : jsstring -> jsstring) :
  (exists a b, forall sk, r sk = a ++ sk ++ b) ->
  exists a b, forall sk, x ++ r sk = a ++ sk ++ b.
Proof.
  intros (a & b & H). exists (x ++ a), b. intros sk.
  now rewrite H, <- app_assoc.
Qed.

(** The markup of a card is the markup of its skills with a fixed text
    before and after it. *)
Lemma card_html_around (projectId : jsstring) (big : Z)
    (escapedCategory typeLabel escapedContent : jsstring) :
  exists a b, forall skillsHtml,
    card_html projectId big escapedCategory typeLabel escapedContent
              skillsHtml
    = a ++ skillsHtml ++ b.
Proof.
  unfold card_html.
  repeat match goal with
         | |- exists a b, forall sk, ?x ++ @?r sk = _ =>
             apply (around_step x r)
         end.
  exists [], (nl ++ spaces 8 ++ js "</div>" ++ nl ++ spaces 4).
  reflexivity.
Qed.

(** What [developProject] does once all its parameter checks pass. *)
Lemma developProject_passed (env : renderEnv) (counter : N) (big type : Z)
    (category shortInfo longInfo : value) (skillList : skillArg) :
  render_input_ok big type category shortInfo longInfo skillList = true ->
  exists projectId escapedCategory typeLabel escapedContent,
    developProject env counter big type category shortInfo longInfo skillList
    = ([],
       match render_skills (skills_of skillList) with
       | None => ThrewURIError
       | Some tags =>
           Returned (card_html projectId big escapedCategory typeLabel
                               escapedContent
                               (skills_container (skills_of skillList) tags))
       end,
       match randomUUID env with
       | Some _ => counter
       | None => N.succ counter
       end).
Proof.
  unfold render_input_ok, required_text, developProject. intros Ok.
  repeat (apply andb_true_iff in Ok as [Ok ?]).
  replace (negb (big =? PROJECT_STATE_LARGE)%Z
           && negb (big =? PROJECT_STATE_SMALL)%Z) with false
    by (destruct (big =? PROJECT_STATE_LARGE)%Z,
          (big =? PROJECT_STATE_SMALL)%Z; auto; discriminate).
  replace (negb (type =? PROJECT_TYPE_PERSONAL)%Z
           && negb (type =? PROJECT_TYPE_SCHOOL)%Z) with false
    by (destruct (type =? PROJECT_TYPE_PERSONAL)%Z,
          (type =? PROJECT_TYPE_SCHOOL)%Z; auto; discriminate).
  repeat match goal with
         | H : truthy ?v && is_string ?v = true |- _ =>
             apply andb_true_iff in H as [? ?]
         end.
  repeat match goal with
         | H : truthy ?v = true |- _ => rewrite H; clear H
         | H : is_string ?v = true |- _ => rewrite H; clear H
         end.
  cbn [negb orb incrementProjectCounter].
  destruct skillList as [| |l]; try discriminate;
    cbn [skills_of render_skills]; destruct (randomUUID env);
    try destruct (render_skills l);
    first [ do 4 eexists; reflexivity
          | exists [], [], [], []; reflexivity ].
Qed.

Lemma card_html_not_empty (projectId : jsstring) (big : Z)
    (escapedCategory typeLabel escapedContent skillsHtml : jsstring) :
  card_html projectId big escapedCategory typeLabel escapedContent skillsHtml
  <> [].
Proof. unfold card_html. discriminate. Qed.

(** A card that is returned holds the tag of each of its skills. *)
Lemma developProject_holds_tag (env : renderEnv) (counter : N) (big type : Z)
    (category shortInfo longInfo : value) (skills : list jsstring)
    (s k : jsstring) (tr : list event) (html : jsstring) (counter' : N) :
  render_input_ok big type category shortInfo longInfo (SkArray skills)
  = true ->
  In s skills -> normalizeSkillKey (JStr s) = Some k ->
  developProject env counter big type category shortInfo longInfo
                 (SkArray skills)
  = (tr, Returned html, counter') ->
  exists before after,
    html = before ++ skill_tag k (escapeHtml (JStr s)) ++ after.
Proof.
  intros Ok Hin Ek E.
  destruct (developProject_passed env counter big type category shortInfo
              longInfo (SkArray skills) Ok) as (pid & ec & tl & ect & E').
  rewrite E' in E. cbn [skills_of] in E.
  destruct (render_skills skills) as [tags|] eqn:R; [|discriminate].
  injection E as _ <- _.
  destruct (card_html_around pid big ec tl ect) as (a & b & ->).
  destruct (render_skills_in skills tags s k R Hin Ek) as (t1 & t2 & J).
  unfold skills_container. destruct skills as [|x skills]; [destruct Hin|].
  rewrite J.
  exists (a ++ js "<div " ++ attr "class" (js "skills-container")
            ++ js ">" ++ t1),
         (t2 ++ js "</div>" ++ b).
  rewrite <- !app_assoc. reflexivity.
Qed.

End RenderedTags.

(** C4.  For every skill [s], [normalizeSkillKey(s)] is the same at
    every call.  When it is a key [k]: the markup [developProject]
    returns for a card that lists [s] holds the tag rendered for [s],
    and it returns markup whenever every skill of the card has a key;
    that tag carries [k] as its [data-skill] attribute; the selector
    that [highlightSkill] builds from [safeCssEscape(k)], with
    [CSS.escape] or with the fallback, compares that attribute with [k],
    so it selects an element exactly when the element is tagged with
    [k]; and a call of [highlightSkill] adds or removes the highlight
    class on exactly those elements of the document.  When the encoder
    raises its URIError instead, no tag is rendered for [s],
    [developProject] ends with that error for every card that lists [s],
    and [highlightSkill] ends with the same error, the document
    untouched. *)
Theorem highlight_key_agrees_with_tag (has_css_escape : bool) (s : jsstring) :
  (forall s', s' = s ->
     normalizeSkillKey (JStr s') = normalizeSkillKey (JStr s))
  /\ (forall k,
        normalizeSkillKey (JStr s) = Some k ->
        render_skill s = Some (skill_tag k (escapeHtml (JStr s)))
        /\ (forall env counter big type category shortInfo longInfo skills
                   tr html counter',
              render_input_ok big type category shortInfo longInfo
                              (SkArray skills) = true ->
              In s skills ->
              developProject env counter big type category shortInfo
                             longInfo (SkArray skills)
              = (tr, Returned html, counter') ->
              exists before after,
                html = before ++ skill_tag k (escapeHtml (JStr s)) ++ after)
        /\ (forall env counter big type category shortInfo longInfo skills,
              render_input_ok big type category shortInfo longInfo
                              (SkArray skills) = true ->
              In s skills ->
              (forall s', In s' skills ->
                 normalizeSkillKey (JStr s') <> None) ->
              exists before after counter',
                developProject env counter big type category shortInfo
                               longInfo (SkArray skills)
                = ([], Returned (before ++ skill_tag k (escapeHtml (JStr s))
                                 ++ after), counter'))
        /\ (exists e,
              skill_element (skill_tag k (escapeHtml (JStr s))) = Some e
              /\ data_skill e = Some k)
        /\ attr_selector_value (skill_selector has_css_escape k) = Some k
        /\ (exists selected,
              querySelectorAll (skill_selector has_css_escape k)
              = Some selected
              /\ forall e, selected e = true <-> data_skill e = Some k)
        /\ (forall card isHovering d,
              highlightSkill has_css_escape (Some card) (SkArray [s])
                             isHovering d
              = Done (mark isHovering k d))
        /\ (forall isHovering d e,
              In e (mark isHovering k d) <->
              exists e0, In e0 d
                /\ e = if has_skill k e0
                       then set_highlight isHovering e0 else e0))
  /\ (normalizeSkillKey (JStr s) = None ->
      render_skill s = None
      /\ (forall env counter big type category shortInfo longInfo skills,
            render_input_ok big type category shortInfo longInfo
                            (SkArray skills) = true ->
            In s skills ->
            exists counter',
              developProject env counter big type category shortInfo
                             longInfo (SkArray skills)
              = ([], ThrewURIError, counter'))
      /\ forall card isHovering d,
           highlightSkill has_css_escape (Some card) (SkArray [s])
                          isHovering d
           = URIError d).
Proof.
  split; [now intros s' ->|]. split.
  - intros k Ek.
    pose proof (encodeURIComponent_alphabet _ _ Ek) as Hk.
    split; [unfold render_skill; now rewrite Ek|].
    split.
    { intros env counter big type category shortInfo longInfo skills tr html
             counter' Ok Hin E.
      exact (developProject_holds_tag env counter big type category shortInfo
               longInfo skills s k tr html counter' Ok Hin Ek E). }
    split.
    { intros env counter big type category shortInfo longInfo skills Ok Hin
             All.
      destruct (developProject_passed env counter big type category
                  shortInfo longInfo (SkArray skills) Ok)
        as (pid & ec & tl & ect & E).
      cbn [skills_of] in E.
      destruct (render_skills_all skills All) as (tags & R).
      rewrite R in E.
      destruct (developProject_holds_tag env counter big type category
                  shortInfo longInfo skills s k _ _ _ Ok Hin Ek E)
        as (before & after & Eh).
      exists before, after. eexists. rewrite E, Eh. reflexivity. }
    split.
    { unfold skill_element, skill_tag.
      replace (js "<span " ++ attr "class" (js "skill-tag") ++ js " "
               ++ attr "data-skill" k ++ js ">" ++ escapeHtml (JStr s)
               ++ js "</span>")
        with (skill_tag_open
              ++ k ++ quot :: js ">" ++ escapeHtml (JStr s) ++ js "</span>")
        by (unfold skill_tag_open, attr; rewrite <- !app_assoc; reflexivity).
      rewrite strip_prefix_app, html_attr_value_key by assumption.
      eexists. split; reflexivity. }
    split; [now apply attr_selector_value_key|].
    split.
    { exists (has_skill k). split; [now apply querySelectorAll_key|].
      intros e. apply has_skill_iff. }
    split.
    { intros card isHovering d. unfold highlightSkill.
      rewrite (highlight_each_keys _ _ [s] [k]); [reflexivity|].
      cbn [map]. now rewrite Ek. }
    intros isHovering d e. unfold mark. rewrite in_map_iff.
    split; intros (e0 & H1 & H2); exists e0; auto.
  - intros En. split; [unfold render_skill; now rewrite En|].
    split.
    { intros env counter big type category shortInfo longInfo skills Ok Hin.
      destruct (developProject_passed env counter big type category
                  shortInfo longInfo (SkArray skills) Ok)
        as (pid & ec & tl & ect & E).
      cbn [skills_of] in E.
      replace (render_skills skills) with (@None (list jsstring)) in E
        by (symmetry; apply render_skills_none; now exists s).
      eexists. exact E. }
    intros card isHovering d. unfold highlightSkill.
    cbn [highlight_each]. now rewrite En.
Qed.

Lemma highlight_key_agrees_with_tag_witness :
  normalizeSkillKey (JStr (js "C++")) = Some (js "C%2B%2B")
  /\ attr_selector_value (skill_selector true (js "C%2B%2B"))
     = Some (js "C%2B%2B")
  /\ attr_selector_value (skill_selector false (js "C%2B%2B"))
     = Some (js "C%2B%2B")
  /\ (exists e,
        skill_element
          (skill_tag (js "C%2B%2B") (escapeHtml (JStr (js "C++"))))
        = Some e
        /\ data_skill e = Some (js "C%2B%2B"))
  /\ exists before after counter',
       developProject {| randomUUID := None; dateNow := 5 |} 7 1 1
                      (JStr (js "Title")) (JStr (js "short"))
                      (JStr (js "long")) (SkArray [js "Rocq"; js "C++"])
       = ([], Returned (before
                        ++ skill_tag (js "C%2B%2B")
                                     (escapeHtml (JStr (js "C++")))
                        ++ after), counter').
Proof.
  assert (E : normalizeSkillKey (JStr (js "C++")) = Some (js "C%2B%2B"))
    by reflexivity.
  destruct (highlight_key_agrees_with_tag true (js "C++")) as (_ & K & _).
  destruct (K (js "C%2B%2B") E) as (_ & _ & Card & Tag & Sel & _).
  destruct (highlight_key_agrees_with_tag false (js "C++")) as (_ & K' & _).
  destruct (K' (js "C%2B%2B") E) as (_ & _ & _ & _ & Sel' & _).
  split; [exact E|]. split; [exact Sel|]. split; [exact Sel'|].
  split; [exact Tag|].
  apply Card; [reflexivity | right; left; reflexivity |].
  intros s' [<- | [<- | []]]; discriminate.
Defined.

(** * Further properties of the code *)

(** ** validation.js: what the two format checks accept *)

Section FormatFacts.

Lemma matches_lit (l s : jsstring) : matches (Lit l) s <-> s = l.
Proof.
  revert s. induction l as [|c l IH]; simpl; intros s.
  - split; [intros H; now inversion H | intros ->; constructor].
  - split.
    + intros H. inversion H as [| | ? ? s1 s2 H1 H2 | | | |]; subst.
      apply matches_chr in H1. apply IH in H2. now subst.
    + intros ->. change (c :: l) with ([c] ++ l). constructor.
      * now apply matches_chr.
      * now apply IH.
Qed.

Lemma matches_cls (p : N -> bool) (s : jsstring) :
  matches (Cls p) s <-> exists c, s = [c] /\ p c = true.
Proof.
  split.
  - intros H. inversion H; subst. eauto.
  - intros (c & -> & H). now constructor.
Qed.

Lemma matches_cat (r1 r2 : regex) (s : jsstring) :
  matches (Cat r1 r2) s <->
  exists s1 s2, s = s1 ++ s2 /\ matches r1 s1 /\ matches r2 s2.
Proof.
  split.
  - intros H. inversion H; subst. eauto.
  - intros (s1 & s2 & -> & H1 & H2). now constructor.
Qed.

Lemma matches_alt (r1 r2 : regex) (s : jsstring) :
  matches (Alt r1 r2) s <-> matches r1 s \/ matches r2 s.
Proof.
  split.
  - intros H. inversion H; subst; auto.
  - intros [H | H]; [now apply MAltL | now apply MAltR].
Qed.

Lemma matches_eps (s : jsstring) : matches Eps s <-> s = [].
Proof. split; [intros H; now inversion H | intros ->; constructor]. Qed.

Lemma matches_rep_cls (p : N -> bool) (n : nat) (s : jsstring) :
  matches (Rep n (Cls p)) s <-> length s = n /\ forallb p s = true.
Proof.
  revert s. induction n as [|n IH]; simpl; intros s.
  - rewrite matches_eps. split.
    + now intros ->.
    + intros [H _]. now destruct s.
  - rewrite matches_cat. split.
    + intros (s1 & s2 & -> & H1 & H2).
      apply matches_cls in H1 as (c & -> & Hc). apply IH in H2 as [L F].
      simpl. now rewrite L, Hc, F.
    + intros [L F]. destruct s as [|c s]; [discriminate|]. simpl in *.
      apply andb_true_iff in F as [Hc F].
      exists [c], s. repeat split.
      * apply matches_cls. eauto.
      * apply IH. split; congruence.
Qed.

Lemma matches_rep_up_to_cls (p : N -> bool) (n : nat) (s : jsstring) :
  matches (RepUpTo n (Cls p)) s <-> (length s <= n)%nat /\ forallb p s = true.
Proof.
  revert s. induction n as [|n IH]; simpl; intros s.
  - rewrite matches_eps. split.
    + now intros ->.
    + intros [H _]. destruct s; [reflexivity | simpl in H; lia].
  - unfold Opt. rewrite matches_alt, matches_cat, matches_eps. split.
    + intros [(s1 & s2 & -> & H1 & H2) | ->]; [|simpl; split; [lia|auto]].
      apply matches_cls in H1 as (c & -> & Hc). apply IH in H2 as [L F].
      simpl. rewrite Hc, F. split; [lia|auto].
    + intros [L F]. destruct s as [|c s]; [now right|]. left. simpl in *.
      apply andb_true_iff in F as [Hc F].
      exists [c], s. repeat split.
      * apply matches_cls. eauto.
      * apply IH. split; [lia | auto].
Qed.

Lemma matches_rep_range_cls (p : N -> bool) (lo hi : nat) (s : jsstring) :
  (lo <= hi)%nat ->
  matches (RepRange lo hi (Cls p)) s <->
  (lo <= length s <= hi)%nat /\ forallb p s = true.
Proof.
  intros Hlh. unfold RepRange. rewrite matches_cat. split.
  - intros (s1 & s2 & -> & H1 & H2).
    apply matches_rep_cls in H1 as [L1 F1].
    apply matches_rep_up_to_cls in H2 as [L2 F2].
    rewrite length_app, forallb_app, F1, F2. split; [lia | auto].
  - intros [L F]. exists (firstn lo s), (skipn lo s).
    rewrite firstn_skipn. split; [reflexivity|].
    rewrite <- (firstn_skipn lo s), forallb_app in F.
    apply andb_true_iff in F as [F1 F2]. split.
    + apply matches_rep_cls. rewrite length_firstn. split; [lia | auto].
    + apply matches_rep_up_to_cls. rewrite length_skipn. split; [lia | auto].
Qed.

(** Two bounded runs of the same class in a row are one bounded run. *)
Lemma matches_two_ranges (p : N -> bool) (a b c d : nat) (s : jsstring) :
  (a <= b)%nat -> (c <= d)%nat ->
  matches (Cat (RepRange a b (Cls p)) (RepRange c d (Cls p))) s <->
  (a + c <= length s <= b + d)%nat /\ forallb p s = true.
Proof.
  intros Hab Hcd. rewrite matches_cat. split.
  - intros (s1 & s2 & -> & H1 & H2).
    apply matches_rep_range_cls in H1 as [L1 F1]; auto.
    apply matches_rep_range_cls in H2 as [L2 F2]; auto.
    rewrite length_app, forallb_app, F1, F2. split; [lia | auto].
  - intros [L F].
    set (n := Nat.max a (length s - d)).
    exists (firstn n s), (skipn n s).
    rewrite firstn_skipn. split; [reflexivity|].
    rewrite <- (firstn_skipn n s), forallb_app in F.
    apply andb_true_iff in F as [F1 F2]. split.
    + apply matches_rep_range_cls; auto. rewrite length_firstn.
      split; [lia | auto].
    + apply matches_rep_range_cls; auto. rewrite length_skipn.
      split; [lia | auto].
Qed.

Lemma phoneRegex_shape (s : jsstring) :
  regex_test phoneRegex s = true <->
  french_international s \/ french_national s \/ international s.
Proof.
  rewrite regex_test_matches. unfold phoneRegex.
  rewrite !matches_alt.
  assert (Nine : forall s0,
    matches (Cat (Cls digit19) (Rep 8 (Cls digit))) s0 <->
    exists d ds, s0 = d :: ds /\ digit19 d = true
                 /\ length ds = 8%nat /\ forallb digit ds = true).
  { intros s0. rewrite matches_cat. split.
    - intros (s1 & s2 & -> & H1 & H2).
      apply matches_cls in H1 as (d & -> & Hd).
      apply matches_rep_cls in H2 as [L F]. now exists d, s2.
    - intros (d & ds & -> & Hd & L & F). exists [d], ds.
      repeat split; [apply matches_cls; eauto | now apply matches_rep_cls]. }
  assert (Pre : forall l s0,
    matches (Cat (Lit l) (Cat (Cls digit19) (Rep 8 (Cls digit)))) s0 <->
    exists d ds, s0 = l ++ d :: ds /\ digit19 d = true
                 /\ length ds = 8%nat /\ forallb digit ds = true).
  { intros l s0. rewrite matches_cat. split.
    - intros (s1 & s2 & -> & H1 & H2). apply matches_lit in H1. subst.
      apply Nine in H2 as (d & ds & -> & H). now exists d, ds.
    - intros (d & ds & -> & H). exists l, (d :: ds).
      repeat split; [now apply matches_lit | apply Nine; now exists d, ds]. }
  rewrite !Pre. unfold french_international, french_national, international.
  apply or_iff_compat_l, or_iff_compat_l.
  rewrite matches_cat. split.
  - intros (s1 & s2 & -> & H1 & H2). apply matches_chr in H1. subst.
    apply matches_cat in H2 as (s3 & s4 & -> & H3 & H4).
    apply matches_cls in H3 as (d & -> & Hd).
    apply matches_two_ranges in H4 as [L F]; [|lia|lia].
    exists d, s4. repeat split; auto; simpl in L; lia.
  - intros (d & ds & -> & Hd & L & F).
    exists [plus_sign], (d :: ds). repeat split; [now apply matches_chr|].
    apply matches_cat. exists [d], ds.
    repeat split; [apply matches_cls; eauto|].
    apply matches_two_ranges; [lia | lia |]. split; [simpl; lia | auto].
Qed.

Lemma isValidPhoneNumber_cleaned (p : jsstring) :
  isValidPhoneNumber (JStr p) = regex_test phoneRegex (cleaned p).
Proof.
  unfold isValidPhoneNumber, cleaned. destruct p as [|c p]; reflexivity.
Qed.

End FormatFacts.

(** X1.  [isValidEmail] accepts exactly the strings whose trimmed text
    is local@domain.tld with three non-empty parts free of white space
    and of the at sign; so an accepted address has exactly one at sign
    and no white space inside. *)
Theorem isValidEmail_characterised (v : value) :
  (isValidEmail v = true <->
   exists s local domain tld,
     v = JStr s /\ trim s = address local domain tld
     /\ run local /\ run domain /\ run tld)
  /\ (isValidEmail v = true ->
      exists s, v = JStr s
        /\ count_occ N.eq_dec (trim s) at_sign = 1%nat
        /\ forallb (fun c => negb (is_space c)) (trim s) = true).
Proof.
  assert (Char : isValidEmail v = true <->
    exists s local domain tld,
      v = JStr s /\ trim s = address local domain tld
      /\ run local /\ run domain /\ run tld).
  { unfold isValidEmail. destruct v as [| | [|c s]]; simpl.
    - split; [discriminate | intros (s & l & d & t & E & _); discriminate].
    - split; [discriminate | intros (s & l & d & t & E & _); discriminate].
    - split; [discriminate|].
      intros (s & l & d & t & E & T & [Hl _] & _). injection E as <-.
      change (trim []) with (@nil N) in T. unfold address in T.
      destruct l; [congruence | discriminate].
    - rewrite emailRegex_shape. split.
      + intros (l & d & t & E & H). exists (c :: s), l, d, t. auto.
      + intros (s0 & l & d & t & E & T & H). injection E as <-.
        now exists l, d, t. }
  split; [exact Char|].
  intros H. apply Char in H as (s & l & d & t & -> & T & Hl & Hd & Ht).
  exists s. split; [reflexivity|]. rewrite T. split.
  - assert (Z : forall x, forallb not_space_at x = true ->
                          count_occ N.eq_dec x at_sign = 0%nat).
    { induction x as [|a x IH]; simpl; auto. intros F.
      apply andb_true_iff in F as [Ha F]. unfold not_space_at in Ha.
      apply andb_true_iff in Ha as [_ Ha].
      apply negb_true_iff, N.eqb_neq in Ha.
      destruct (N.eq_dec a at_sign); [congruence | auto]. }
    unfold address. rewrite count_occ_app. simpl.
    destruct (N.eq_dec at_sign at_sign); [|congruence].
    rewrite count_occ_app. simpl.
    destruct (N.eq_dec dot at_sign); [discriminate|].
    destruct Hl as [_ Hl], Hd as [_ Hd], Ht as [_ Ht].
    now rewrite !Z.
  - now apply address_no_space.
Qed.

Lemma isValidEmail_characterised_witness :
  exists s,
    JStr (js " jo@mail.x.com ") = JStr s
    /\ count_occ N.eq_dec (trim s) at_sign = 1%nat
    /\ forallb (fun c => negb (is_space c)) (trim s) = true.
Proof.
  apply (isValidEmail_characterised (JStr (js " jo@mail.x.com "))).
  reflexivity.
Defined.

(** X2.  [isValidPhoneNumber] looks only at the text left after white
    space, dashes, dots and parentheses are removed, and accepts exactly
    three shapes of it: +33 and nine digits, 0 and nine digits (the
    first of the nine not 0 in both), or + and 8 to 17 digits of which
    the first is not 0.  An accepted number therefore has 9 to 18
    characters once cleaned, all digits after an optional leading plus
    sign. *)
Theorem isValidPhoneNumber_characterised (phone : jsstring) :
  (isValidPhoneNumber (JStr phone) = true <->
   french_international (cleaned phone) \/ french_national (cleaned phone)
   \/ international (cleaned phone))
  /\ (isValidPhoneNumber (JStr phone) = true ->
      (9 <= length (cleaned phone) <= 18)%nat
      /\ exists c rest,
           cleaned phone = c :: rest
           /\ (c = plus_sign \/ digit c = true)
           /\ forallb digit rest = true)
  /\ (forall other,
        cleaned other = cleaned phone ->
        isValidPhoneNumber (JStr other) = isValidPhoneNumber (JStr phone)).
Proof.
  pose proof isValidPhoneNumber_cleaned as Test.
  assert (Char : isValidPhoneNumber (JStr phone) = true <->
    french_international (cleaned phone) \/ french_national (cleaned phone)
    \/ international (cleaned phone))
    by (rewrite Test; apply phoneRegex_shape).
  assert (D19 : forall d, digit19 d = true -> digit d = true).
  { intros d. unfold digit19, digit.
    rewrite !andb_true_iff, !N.leb_le. lia. }
  split; [exact Char|]. split.
  - intros H. apply Char in H.
    destruct H as [(d & ds & E & Hd & L & F)
                  | [(d & ds & E & Hd & L & F) | (d & ds & E & Hd & L & F)]];
      rewrite E; simpl; (split; [lia|]).
    + exists plus_sign, (51 :: 51 :: d :: ds)%N. simpl.
      rewrite (D19 _ Hd), F. auto.
    + exists 48%N, (d :: ds). simpl. rewrite (D19 _ Hd), F. auto.
    + exists plus_sign, (d :: ds). simpl. rewrite (D19 _ Hd), F. auto.
  - intros other E. now rewrite !Test, E.
Qed.

Lemma isValidPhoneNumber_characterised_witness :
  (9 <= length (cleaned (js "+33 (0)6.12-34 56 78")) <= 18)%nat
  /\ isValidPhoneNumber (JStr (js "06 12 34 56 78"))
     = isValidPhoneNumber (JStr (js "0612345678")).
Proof.
  destruct (isValidPhoneNumber_characterised (js "+33 (0)6.12-34 56 78"))
    as (_ & Len & _).
  destruct (isValidPhoneNumber_characterised (js "0612345678"))
    as (_ & _ & Same).
  split.
  - apply Len. reflexivity.
  - apply Same. reflexivity.
Defined.

(** ** validation.js: what a returned submission guarantees *)

Section SubmissionFacts.

Lemma trimStart_nil_iff (s : jsstring) :
  trimStart s = [] <-> forallb is_space s = true.
Proof.
  induction s as [|c s IH]; simpl; [tauto|].
  destruct (is_space c); simpl; [exact IH | split; discriminate].
Qed.

Lemma trim_nil_iff (s : jsstring) :
  trim s = [] <-> forallb is_space s = true.
Proof.
  split.
  - intros H. unfold trim, trimEnd in H.
    apply (f_equal (@rev N)) in H. rewrite rev_involutive in H. simpl in H.
    apply trimStart_nil_iff in H. rewrite forallb_rev_eq in H.
    destruct (trimStart_head s) as [E | (c & t & E & Hc)].
    + now apply trimStart_nil_iff.
    + rewrite E in H. simpl in H. rewrite Hc in H. discriminate.
  - intros H. unfold trim, trimEnd.
    apply trimStart_nil_iff in H. now rewrite H.
Qed.

Lemma filter_trimStart (f : N -> bool) (s : jsstring) :
  (forall c, is_space c = true -> f c = false) ->
  filter f (trimStart s) = filter f s.
Proof.
  intros Hf. induction s as [|c s IH]; simpl; auto.
  destruct (is_space c) eqn:Hc; auto. now rewrite (Hf c Hc).
Qed.

Lemma filter_rev_eq (f : N -> bool) (s : jsstring) :
  filter f (rev s) = rev (filter f s).
Proof.
  induction s as [|c s IH]; simpl; auto.
  rewrite filter_app, IH. simpl. destruct (f c); simpl; auto.
  now rewrite app_nil_r.
Qed.

Lemma cleaned_trim (s : jsstring) : cleaned (trim s) = cleaned s.
Proof.
  assert (Hf : forall c, is_space c = true ->
                         negb (phone_separator c) = false).
  { intros c Hc. unfold phone_separator. now rewrite Hc. }
  unfold cleaned, trim, trimEnd.
  rewrite filter_rev_eq, filter_trimStart, filter_rev_eq, rev_involutive
    by exact Hf.
  now apply filter_trimStart.
Qed.

Lemma blank_string (s : jsstring) :
  blank (JStr s) = true <-> trim s = [].
Proof.
  unfold blank. destruct s as [|c s]; simpl.
  - split; reflexivity.
  - apply str_eqb_eq.
Qed.

End SubmissionFacts.

(** X3.  A submission that [validateContactForm] returns has a
    non-empty name and company and a comment that is not blank; at least
    one of its email and phoneNumber is non-empty; its email, when not
    empty, passes [isValidEmail] as it stands, and its phoneNumber, when
    not empty, passes [isValidPhoneNumber]. *)
Theorem submission_is_well_formed
    (name0 email0 phone0 company0 comment0 : value)
    (tr : list event) (sub : submission) :
  validateContactForm name0 email0 phone0 company0 comment0 = (tr, Some sub) ->
  name sub <> [] /\ company sub <> []
  /\ blank (JStr (finalComment sub)) = false
  /\ (email sub <> [] \/ phoneNumber sub <> [])
  /\ (email sub <> [] -> isValidEmail (JStr (email sub)) = true)
  /\ (phoneNumber sub <> [] ->
      isValidPhoneNumber (JStr (phoneNumber sub)) = true).
Proof.
  unfold validateContactForm.
  destruct (blank name0) eqn:Bn; [discriminate|].
  destruct (blank company0) eqn:Bc; [discriminate|].
  destruct (blank email0 && blank phone0) eqn:Bep; [discriminate|].
  destruct (negb (blank email0) && negb (isValidEmail email0)) eqn:Ve;
    [discriminate|].
  destruct (negb (blank phone0) && negb (isValidPhoneNumber phone0)) eqn:Vp;
    [discriminate|].
  intros E. injection E as <- <-. cbn [name company finalComment email
                                       phoneNumber].
  destruct (blank_false_string _ Bn) as (n & -> & Tn & _).
  destruct (blank_false_string _ Bc) as (c & -> & Tc & _).
  assert (Field : forall v,
    (if truthy v then trim_of v else []) <> [] ->
    exists s, v = JStr s /\ trim s <> [] /\ blank v = false
              /\ (if truthy v then trim_of v else []) = trim s).
  { intros v H. destruct v as [| | s]; simpl in H; try congruence.
    destruct s as [|a s]; simpl in H; [congruence|].
    exists (a :: s). repeat split; auto.
    unfold blank. simpl. now apply str_eqb_neq. }
  split; [exact Tn|]. split; [exact Tc|]. split; [|split; [|split]].
  - destruct (blank comment0) eqn:Bm; simpl.
    + destruct (blank (JStr (n ++ js " from " ++ c
                             ++ default_comment_tail))) eqn:B; auto.
      apply blank_string, trim_nil_iff in B.
      rewrite !forallb_app in B. simpl in B.
      rewrite !andb_false_r in B. discriminate.
    + destruct (blank_false_string _ Bm) as (m & -> & _). exact Bm.
  - destruct (blank email0) eqn:Be; destruct (blank phone0) eqn:Bp;
      try discriminate.
    + right. destruct (blank_false_string _ Bp) as (p & -> & Tp & Hp).
      now rewrite Hp.
    + left. destruct (blank_false_string _ Be) as (e & -> & Te & He).
      now rewrite He.
    + left. destruct (blank_false_string _ Be) as (e & -> & Te & He).
      now rewrite He.
  - intros H. destruct (Field _ H) as (e & -> & Te & Be & ->).
    rewrite Be in Ve. simpl in Ve. apply negb_false_iff in Ve.
    unfold isValidEmail in *. destruct e as [|a e]; [discriminate|].
    simpl in Ve. destruct (trim (a :: e)) as [|b t] eqn:T; [congruence|].
    simpl. rewrite <- T, trim_idem, T. exact Ve.
  - intros H. destruct (Field _ H) as (p & -> & Tp & Bp & ->).
    rewrite Bp in Vp. simpl in Vp. apply negb_false_iff in Vp.
    now rewrite isValidPhoneNumber_cleaned, cleaned_trim,
      <- isValidPhoneNumber_cleaned.
Qed.

Lemma submission_is_well_formed_witness :
  exists sub,
    validateContactForm (JStr (js " Jo ")) (JStr (js "  "))
                        (JStr (js " 06 12 34 56 78 ")) (JStr (js "Acme"))
                        JUndefined
    = ([], Some sub)
    /\ email sub = []
    /\ isValidPhoneNumber (JStr (phoneNumber sub)) = true.
Proof.
  eexists. split; [vm_compute; reflexivity|]. split; [reflexivity|].
  refine (proj2 (proj2 (proj2 (proj2 (proj2
    (submission_is_well_formed
       (JStr (js " Jo ")) (JStr (js "  ")) (JStr (js " 06 12 34 56 78 "))
       (JStr (js "Acme")) JUndefined [] _ eq_refl))))) _).
  discriminate.
Defined.

(** ** security.js: what [escapeHtml] keeps and what it loses *)

Section EscapeMore.

Lemma html_entity_inv (c : N) (e : jsstring) :
  html_entity c = Some e ->
  (c = amp /\ e = js "&amp;") \/ (c = lt /\ e = js "&lt;")
  \/ (c = gt /\ e = js "&gt;") \/ (c = quot /\ e = js "&quot;")
  \/ (c = apos /\ e = js "&#039;").
Proof.
  unfold html_entity.
  destruct (N.eqb_spec c amp); [intros E; injection E as <-; auto|].
  destruct (N.eqb_spec c lt); [intros E; injection E as <-; auto|].
  destruct (N.eqb_spec c gt); [intros E; injection E as <-; auto|].
  destruct (N.eqb_spec c quot); [intros E; injection E as <-; auto 6|].
  destruct (N.eqb_spec c apos); [intros E; injection E as <-; auto 6|].
  discriminate.
Qed.

(** No entity is the beginning of another one. *)
Lemma entities_prefix_free (c d : N) (e e' x y : jsstring) :
  html_entity c = Some e -> html_entity d = Some e' ->
  e ++ x = e' ++ y -> c = d /\ x = y.
Proof.
  intros Hc Hd E.
  apply html_entity_inv in Hc, Hd.
  destruct Hc as [[-> ->] | [[-> ->] | [[-> ->] | [[-> ->] | [-> ->]]]]];
    destruct Hd as [[-> ->] | [[-> ->] | [[-> ->] | [[-> ->] | [-> ->]]]]];
    simpl in E; try discriminate; injection E as ->; auto.
Qed.

Lemma replace_entities_injective (a b : jsstring) :
  replace_entities a = replace_entities b -> a = b.
Proof.
  revert b. induction a as [|c a IH]; intros [|d b]; simpl; auto.
  - destruct (html_entity d) as [e|] eqn:Hd; [|discriminate].
    apply html_entity_inv in Hd.
    destruct Hd as [[_ ->] | [[_ ->] | [[_ ->] | [[_ ->] | [_ ->]]]]];
      discriminate.
  - destruct (html_entity c) as [e|] eqn:Hc; [|discriminate].
    apply html_entity_inv in Hc.
    destruct Hc as [[_ ->] | [[_ ->] | [[_ ->] | [[_ ->] | [_ ->]]]]];
      discriminate.
  - destruct (html_entity c) as [e|] eqn:Hc;
      destruct (html_entity d) as [e'|] eqn:Hd; intros E.
    + destruct (entities_prefix_free _ _ _ _ _ _ Hc Hd E) as [-> E'].
      f_equal. now apply IH.
    + exfalso. apply html_entity_inv in Hc.
      assert (d = amp).
      { destruct Hc as [[_ ->] | [[_ ->] | [[_ ->] | [[_ ->] | [_ ->]]]]];
          simpl in E; now injection E. }
      subst d. discriminate.
    + exfalso. apply html_entity_inv in Hd.
      assert (c = amp).
      { destruct Hd as [[_ ->] | [[_ ->] | [[_ ->] | [[_ ->] | [_ ->]]]]];
          simpl in E; now injection E. }
      subst c. discriminate.
    + injection E as -> E. f_equal. now apply IH.
Qed.

Lemma replace_entities_plain (s : jsstring) :
  has_special s = false -> replace_entities s = s.
Proof.
  induction s as [|c s IH]; simpl; auto.
  destruct (html_entity c); simpl; [discriminate|].
  intros H. now rewrite IH.
Qed.

Lemma replace_entities_length (s : jsstring) :
  (length s <= length (replace_entities s))%nat
  /\ (has_special s = true ->
      (length s < length (replace_entities s))%nat).
Proof.
  induction s as [|c s [IH1 IH2]]; simpl; [split; [lia | discriminate]|].
  destruct (html_entity c) as [e|] eqn:Hc; simpl.
  - assert (L : (4 <= length e)%nat).
    { apply html_entity_inv in Hc.
      destruct Hc as [[_ ->] | [[_ ->] | [[_ ->] | [[_ ->] | [_ ->]]]]];
        simpl; lia. }
    rewrite length_app. split; [lia | intros _; lia].
  - split; [lia|]. intros H. apply IH2 in H. lia.
Qed.

Lemma replace_entities_special (s : jsstring) :
  has_special s = true -> has_special (replace_entities s) = true.
Proof.
  induction s as [|c s IH]; simpl; [discriminate|].
  destruct (html_entity c) as [e|] eqn:Hc; simpl.
  - intros _. apply html_entity_inv in Hc.
    destruct Hc as [[_ ->] | [[_ ->] | [[_ ->] | [[_ ->] | [_ ->]]]]];
      reflexivity.
  - rewrite Hc. exact IH.
Qed.

End EscapeMore.

(** X4.  [escapeHtml] loses nothing: two strings with the same escaped
    text are the same string. *)
Theorem escapeHtml_injective (a b : jsstring) :
  escapeHtml (JStr a) = escapeHtml (JStr b) -> a = b.
Proof. apply replace_entities_injective. Qed.

Lemma escapeHtml_injective_witness :
  replace_entities (js "a<b") = js "a&lt;b" /\ js "a<b" = 97%N :: js "<b".
Proof.
  split; [reflexivity|].
  apply (escapeHtml_injective (js "a<b") (97%N :: js "<b")). reflexivity.
Defined.

(** X5.  [escapeHtml] never shortens a text, returns a text without any
    of the five characters as it is, and is not idempotent on any other
    text: escaping a second time changes, and lengthens, the result
    exactly when the original contains one of the five characters. *)
Theorem escapeHtml_twice (s : jsstring) :
  (length s <= length (escapeHtml (JStr s)))%nat
  /\ (has_special s = false -> escapeHtml (JStr s) = s)
  /\ (escapeHtml (JStr (escapeHtml (JStr s))) = escapeHtml (JStr s)
      <-> has_special s = false)
  /\ (has_special s = true ->
      (length (escapeHtml (JStr s))
       < length (escapeHtml (JStr (escapeHtml (JStr s)))))%nat).
Proof.
  unfold escapeHtml. simpl.
  split; [apply replace_entities_length|].
  split; [apply replace_entities_plain|].
  assert (Longer : has_special s = true ->
    (length (replace_entities s)
     < length (replace_entities (replace_entities s)))%nat).
  { intros H. apply replace_entities_length.
    now apply replace_entities_special. }
  split; [|exact Longer].
  split.
  - intros E. destruct (has_special s) eqn:H; auto.
    specialize (Longer eq_refl). rewrite E in Longer. lia.
  - intros H. now rewrite !(replace_entities_plain s H).
Qed.

Lemma escapeHtml_twice_witness :
  escapeHtml (JStr (js "plain text")) = js "plain text"
  /\ (length (escapeHtml (JStr (js "R&D")))
      < length (escapeHtml (JStr (escapeHtml (JStr (js "R&D"))))))%nat.
Proof.
  split.
  - apply (escapeHtml_twice (js "plain text")). reflexivity.
  - apply (escapeHtml_twice (js "R&D")). reflexivity.
Defined.

(** ** email.js: the message that leaves the page *)

Section BodyFacts.

Lemma markup_free_app (a b : jsstring) :
  markup_free a -> markup_free b -> markup_free (a ++ b).
Proof.
  unfold markup_free. intros Ha Hb. now rewrite forallb_app, Ha, Hb.
Qed.

Lemma markup_free_join (sep : jsstring) (l : list jsstring) :
  markup_free sep -> (forall x, In x l -> markup_free x) ->
  markup_free (join sep l).
Proof.
  intros Hs. induction l as [|x l IH]; intros H; [reflexivity|].
  simpl. destruct l as [|y l].
  - apply H. now left.
  - apply markup_free_app; [apply H; now left|].
    apply markup_free_app; auto. apply IH. intros z Hz. apply H. now right.
Qed.

Lemma escapeHtml_markup_free (v : value) : markup_free (escapeHtml v).
Proof. apply replace_entities_no_markup. Qed.

Lemma emailContent_markup_free (content senderEmail senderPhone : value) :
  markup_free (emailContent content senderEmail senderPhone).
Proof.
  unfold emailContent. apply markup_free_join; [reflexivity|].
  intros x Hx. apply in_app_iff in Hx as [Hx | Hx].
  - destruct Hx as [<- | [<- | [<- | [<- | []]]]];
      try reflexivity. apply escapeHtml_markup_free.
  - apply in_app_iff in Hx as [Hx | Hx].
    + destruct (truthy senderEmail); [|contradiction].
      destruct Hx as [<- | []].
      apply markup_free_app; [reflexivity | apply escapeHtml_markup_free].
    + destruct (truthy senderPhone); [|contradiction].
      destruct Hx as [<- | []].
      apply markup_free_app; [reflexivity | apply escapeHtml_markup_free].
Qed.

Lemma no_delivery_filter (l : list event) :
  forallb (fun e => negb (is_delivery e)) l = true ->
  filter is_delivery l = [].
Proof.
  induction l as [|e l IH]; simpl; auto. intros H.
  apply andb_true_iff in H as [He Hl]. apply negb_true_iff in He.
  rewrite He. auto.
Qed.

(** The delivery events of one call. *)
Lemma sendEmail_delivery (env : emailEnv) (flag : bool)
    (target title content senderEmail senderPhone : value) :
  let r := sendEmail env flag target title content senderEmail senderPhone in
  (filter is_delivery (fst r) = [] /\ snd r = flag)
  \/ (exists p,
        filter is_delivery (fst r)
        = (if flag then [] else [EmailInit (publicKey env)])
          ++ [EmailSend (serviceID env) (templateID env) p]
        /\ snd r = true).
Proof.
  unfold sendEmail.
  destruct (emailjs_loaded env); cbn [negb]; [|now left].
  destruct (negb (truthy target) || negb (isValidEmail target));
    [now left|].
  destruct (isValidCredentials env); cbn [negb].
  - right. eexists. destruct flag; split; reflexivity.
  - left. cbn [fst snd]. split; [|reflexivity].
    apply no_delivery_filter. rewrite !forallb_app.
    destruct (credential_warnings_plain env) as (-> & _).
    now destruct (isLocalDev env).
Qed.

End BodyFacts.

(** X6.  Nothing [sendEmail] hands on as message text carries markup:
    the body and the subject given to [emailjs.send], and the body it
    logs in the local preview, contain no less-than, greater-than,
    double quote or apostrophe, whatever the content, sender email and
    sender phone are. *)
Theorem sendEmail_texts_markup_free
    (env : emailEnv) (flag : bool)
    (target title content senderEmail senderPhone : value)
    (e : event) (text : jsstring) :
  In e (fst (sendEmail env flag target title content
                       senderEmail senderPhone)) ->
  In text (outgoing_texts e) ->
  markup_free text.
Proof.
  unfold sendEmail.
  destruct (emailjs_loaded env); cbn [negb].
  - destruct (negb (truthy target) || negb (isValidEmail target)).
    + cbn [fst In]. intros [<- | [<- | []]]; simpl; tauto.
    + destruct (isValidCredentials env); cbn [negb fst].
      * intros He. apply in_app_iff in He as [He | [<- | []]].
        -- destruct flag; [contradiction|]. destruct He as [<- | []].
           contradiction.
        -- simpl. intros [<- | [<- | []]].
           ++ apply emailContent_markup_free.
           ++ apply escapeHtml_markup_free.
      * intros He. apply in_app_iff in He as [He | He].
        -- unfold credential_warnings in He.
           repeat (apply in_app_iff in He as [He | He]);
             repeat match type of He with
                    | In _ (if ?b then _ else _) => destruct b
                    end;
             repeat (destruct He as [<- | He]; [simpl; tauto|]);
             contradiction.
        -- apply in_app_iff in He as [He | [<- | []]]; [|contradiction].
           destruct (isLocalDev env); [|contradiction].
           destruct He as [<- | [<- | []]]; simpl; [tauto|].
           intros [<- | []]. apply emailContent_markup_free.
  - cbn [fst In]. intros [<- | [<- | []]]; simpl; tauto.
Qed.

Lemma sendEmail_texts_markup_free_witness :
  markup_free (emailContent (JStr (js "<script>x</script>"))
                            (JStr (js "jo@x.com")) (JStr [])).
Proof.
  apply (sendEmail_texts_markup_free
           (shipped_env true (js "localhost")) false
           (JStr (js "owner@example.org")) (JStr (js "<b>Jo</b>"))
           (JStr (js "<script>x</script>")) (JStr (js "jo@x.com"))
           JUndefined
           (Console LvLog
              [APayload (JStr (js "owner@example.org"))
                 (JStr (js "<b>Jo</b>"))
                 (emailContent (JStr (js "<script>x</script>"))
                               (JStr (js "jo@x.com")) (JStr []))])).
  - vm_compute. auto 10.
  - now left.
Defined.

(** X7.  However many times [sendEmail] is called, [emailjs.init] runs
    at most once, and it runs before the first [emailjs.send]: the
    delivery events of a sequence of calls that starts uninitialised are
    either none, or one init followed by sends only. *)
Theorem sendEmails_init_once (env : emailEnv) (calls : list sendCall) :
  let r := sendEmails env false calls in
  (filter is_delivery (fst r) = [] /\ snd r = false)
  \/ (exists sends,
        filter is_delivery (fst r) = EmailInit (publicKey env) :: sends
        /\ forallb is_send sends = true /\ snd r = true).
Proof.
  assert (Started : forall cs,
    let r := sendEmails env true cs in
    forallb is_send (filter is_delivery (fst r)) = true /\ snd r = true).
  { induction cs as [|c cs [IH1 IH2]]; [now split|]. simpl.
    pose proof (sendEmail_delivery env true (c_target c) (c_title c)
                  (c_content c) (c_senderEmail c) (c_senderPhone c)) as H.
    destruct (sendEmail env true (c_target c) (c_title c) (c_content c)
                        (c_senderEmail c) (c_senderPhone c)) as [tr fl].
    simpl in H. destruct H as [[H ->] | (p & H & ->)];
      destruct (sendEmails env true cs) as [tr' fl']; simpl in *;
      rewrite filter_app, H; simpl; auto. }
  induction calls as [|c cs IH]; [now left|]. simpl.
  pose proof (sendEmail_delivery env false (c_target c) (c_title c)
                (c_content c) (c_senderEmail c) (c_senderPhone c)) as H.
  destruct (sendEmail env false (c_target c) (c_title c) (c_content c)
                      (c_senderEmail c) (c_senderPhone c)) as [tr fl].
  simpl in H. destruct H as [[H ->] | (p & H & ->)].
  - destruct (sendEmails env false cs) as [tr' fl']. simpl in *.
    rewrite filter_app, H. exact IH.
  - right. destruct (Started cs) as [S1 S2].
    destruct (sendEmails env true cs) as [tr' fl']. simpl in *.
    rewrite filter_app, H. simpl. eexists. split; [reflexivity|].
    simpl. auto.
Qed.

(** ** From a validated form to the message *)

Section PipelineFacts.

Lemma submission_contact
    (name0 email0 phone0 company0 comment0 : value)
    (tr : list event) (sub : submission) :
  validateContactForm name0 email0 phone0 company0 comment0 = (tr, Some sub) ->
  (email sub <> [] \/ phoneNumber sub <> [])
  /\ (email sub = [] \/ isValidEmail email0 = true /\ blank email0 = false).
Proof.
  unfold validateContactForm.
  destruct (blank name0); [discriminate|].
  destruct (blank company0); [discriminate|].
  destruct (blank email0 && blank phone0) eqn:Bep; [discriminate|].
  destruct (negb (blank email0) && negb (isValidEmail email0)) eqn:Ve;
    [discriminate|].
  destruct (negb (blank phone0) && negb (isValidPhoneNumber phone0));
    [discriminate|].
  intros E. injection E as <- <-. cbn [email phoneNumber].
  destruct (blank email0) eqn:Be.
  - destruct (blank phone0) eqn:Bp; [discriminate|]. split.
    + right. destruct (blank_false_string _ Bp) as (p & -> & Tp & ->).
      exact Tp.
    + left. destruct email0 as [| | [|c e]]; auto. simpl.
      unfold blank in Be. simpl in Be. now apply str_eqb_eq in Be.
  - simpl in Ve. apply negb_false_iff in Ve. split; [|now right].
    left. destruct (blank_false_string _ Be) as (e & -> & Te & ->).
    exact Te.
Qed.

End PipelineFacts.

(** X8.  When the fields of a returned submission are handed to a
    configured [sendEmail] with a valid target, the one message it
    sends ends in a contact footer that is never empty: it lists the
    sender's email, phone or both, each escaped; and the reply address
    is the validated email (or empty when only a phone was given). *)
Theorem validated_message_names_contact
    (env : emailEnv) (flag : bool) (target title : value)
    (name0 email0 phone0 company0 comment0 : value)
    (tr : list event) (sub : submission) :
  validateContactForm name0 email0 phone0 company0 comment0 = (tr, Some sub) ->
  emailjs_loaded env = true -> isValidCredentials env = true ->
  isValidEmail target = true ->
  exists lines,
    lines <> []
    /\ (forall l, In l lines ->
          (email sub <> [] /\ l = js "Email: " ++ escapeHtml (JStr (email sub)))
          \/ (phoneNumber sub <> []
              /\ l = js "Phone: " ++ escapeHtml (JStr (phoneNumber sub))))
    /\ fst (sendEmail env flag target title (JStr (finalComment sub))
                      (JStr (email sub)) (JStr (phoneNumber sub)))
       = (if flag then [] else [EmailInit (publicKey env)])
         ++ [EmailSend (serviceID env) (templateID env)
               {| to_email := target;
                  from_name := escapeHtml title;
                  message :=
                    join [newline]
                         ([escapeHtml (JStr (finalComment sub)); [];
                           js "---"; js "Contact Information:"] ++ lines);
                  reply_to := JStr (email sub) |}].
Proof.
  intros V Hl Hc Ht.
  destruct (submission_contact _ _ _ _ _ _ _ V) as [Contact _].
  assert (Tt : truthy target = true).
  { unfold isValidEmail in Ht. destruct (truthy target); auto. }
  unfold sendEmail. rewrite Hl, Hc, Ht, Tt. cbn [negb orb fst param_default].
  unfold emailContent.
  exists ((if truthy (JStr (email sub))
           then [js "Email: " ++ escapeHtml (JStr (email sub))] else [])
          ++ (if truthy (JStr (phoneNumber sub))
              then [js "Phone: " ++ escapeHtml (JStr (phoneNumber sub))]
              else [])).
  split; [|split].
  - destruct (email sub) as [|a e]; simpl; [|discriminate].
    destruct (phoneNumber sub) as [|b p]; simpl; [|discriminate].
    destruct Contact; congruence.
  - intros l Hin. apply in_app_iff in Hin as [Hin | Hin].
    + left. destruct (email sub) as [|a e]; simpl in Hin; [contradiction|].
      destruct Hin as [<- | []]. split; [discriminate | reflexivity].
    + right. destruct (phoneNumber sub) as [|b p]; simpl in Hin;
        [contradiction|].
      destruct Hin as [<- | []]. split; [discriminate | reflexivity].
  - destruct flag; reflexivity.
Qed.

Lemma validated_message_names_contact_witness :
  let env := {| emailjs_loaded := true; hostname := js "example.org";
                serviceID := JStr (js "svc"); templateID := JStr (js "tpl");
                publicKey := JStr (js "key") |} in
  exists sub lines,
    validateContactForm (JStr (js "Jo")) (JStr []) (JStr (js "0612345678"))
                        (JStr (js "Acme")) (JStr []) = ([], Some sub)
    /\ lines <> []
    /\ fst (sendEmail env true (JStr (js "owner@example.org"))
                      (JStr (js "Jo - Acme")) (JStr (finalComment sub))
                      (JStr (email sub)) (JStr (phoneNumber sub)))
       = [EmailSend (JStr (js "svc")) (JStr (js "tpl"))
            {| to_email := JStr (js "owner@example.org");
               from_name := escapeHtml (JStr (js "Jo - Acme"));
               message :=
                 join [newline]
                      ([escapeHtml (JStr (finalComment sub)); [];
                        js "---"; js "Contact Information:"] ++ lines);
               reply_to := JStr (email sub) |}].
Proof.
  intros env. eexists.
  destruct (validated_message_names_contact env true
              (JStr (js "owner@example.org")) (JStr (js "Jo - Acme"))
              (JStr (js "Jo")) (JStr []) (JStr (js "0612345678"))
              (JStr (js "Acme")) (JStr []) [] _ eq_refl eq_refl eq_refl
              eq_refl) as (lines & Hne & _ & E).
  exists lines. split; [reflexivity|]. split; [exact Hne | exact E].
Defined.

(** ** projects.js: the rest of the toggle *)

Section ClassFacts.

Lemma contains_In (t : jsstring) (l : list jsstring) :
  contains t l = true <-> In t l.
Proof.
  unfold contains. rewrite existsb_exists. split.
  - intros (x & Hx & E). apply str_eqb_eq in E. now subst.
  - intros H. exists t. split; auto. apply str_eqb_refl.
Qed.

Lemma class_add_NoDup (t : jsstring) (l : list jsstring) :
  NoDup l -> NoDup (class_add t l).
Proof.
  intros H. unfold class_add. destruct (contains t l) eqn:E; auto.
  apply NoDup_app; auto.
  - repeat constructor. simpl. tauto.
  - intros x Hx [<- | []]. apply contains_In in Hx. congruence.
Qed.

Lemma class_remove_NoDup (t : jsstring) (l : list jsstring) :
  NoDup l -> NoDup (class_remove t l).
Proof. apply NoDup_filter. Qed.

Lemma class_toggle_NoDup (t : jsstring) (force : bool) (l : list jsstring) :
  NoDup l -> NoDup (class_toggle t force l).
Proof.
  destruct force; [apply class_add_NoDup | apply class_remove_NoDup].
Qed.

End ClassFacts.

(** X9.  [toggleProjectBox] touches nothing but the size: every class
    other than [project-large] and [project-small] is on the element
    after the call exactly when it was before, the [data-skill]
    attribute is unchanged, and a class list without repetitions stays
    without repetitions. *)
Theorem toggleProjectBox_keeps_other_classes (e e' : element) :
  toggleProjectBox (Some e) = Some e' ->
  (forall t, t <> project_large -> t <> project_small ->
     contains t (classList e') = contains t (classList e))
  /\ data_skill e' = data_skill e
  /\ (NoDup (classList e) -> NoDup (classList e')).
Proof.
  intros E. injection E as <-. cbn [classList data_skill].
  split; [|split]; auto.
  - intros t Hl Hs. rewrite toggled_classes.
    apply str_eqb_neq in Hl, Hs. now rewrite Hl, Hs.
  - intros H. now apply class_toggle_NoDup, class_toggle_NoDup.
Qed.

Lemma toggleProjectBox_keeps_other_classes_witness :
  exists e',
    toggleProjectBox (Some (card_element 1)) = Some e'
    /\ contains project_box (classList e')
       = contains project_box (classList (card_element 1)).
Proof.
  eexists. split; [reflexivity|].
  apply (toggleProjectBox_keeps_other_classes (card_element 1) _ eq_refl);
    discriminate.
Defined.

(** ** projects.js: rendering *)

Section RenderFacts.

Lemma js_injective (a b : string) : js a = js b -> a = b.
Proof.
  unfold js. intros H.
  assert (Inj : forall x y : list ascii,
             map N_of_ascii x = map N_of_ascii y -> x = y).
  { induction x as [|c x IH]; destruct y as [|d y]; simpl;
      try discriminate; auto.
    intros E. injection E as Ec E. f_equal; auto.
    now rewrite <- (ascii_N_embedding c), <- (ascii_N_embedding d), Ec. }
  apply Inj in H.
  now rewrite <- (string_of_list_ascii_of_string a),
    <- (string_of_list_ascii_of_string b), H.
Qed.

Lemma dec_injective (a b : N) : dec a = dec b -> a = b.
Proof.
  unfold dec. intros H. apply js_injective in H.
  assert (Nn : forall n, N.to_uint n <> Decimal.Nil).
  { intros [|p]; [discriminate | apply DecimalPos.Unsigned.to_uint_nonnil]. }
  apply (f_equal DecimalString.NilZero.uint_of_string) in H.
  rewrite !DecimalString.NilZero.usu in H by apply Nn.
  injection H as H. now apply DecimalN.Unsigned.to_uint_inj.
Qed.

Lemma dec_digits (n : N) : forallb digit (dec n) = true.
Proof.
  unfold dec.
  assert (D : forall d,
    forallb digit (js (DecimalString.NilEmpty.string_of_uint d)) = true).
  { induction d; simpl; auto. }
  destruct (N.to_uint n); try apply (D (Decimal.D0 _)); auto;
    match goal with
    | |- context [DecimalString.NilZero.string_of_uint ?d] => apply (D d)
    end.
Qed.

(** Two texts that agree up to a separator neither contains before it
    agree before and after it. *)
Lemma split_at_separator (sep : N) (x x' y y' : jsstring) :
  ~ In sep x -> ~ In sep x' ->
  x ++ sep :: y = x' ++ sep :: y' -> x = x' /\ y = y'.
Proof.
  revert x'. induction x as [|a x IH]; intros [|b x'] Hx Hx' E;
    simpl in *.
  - now injection E.
  - injection E as <- _. tauto.
  - injection E as -> _. tauto.
  - injection E as <- E. destruct (IH x') as [-> ->]; auto.
Qed.

Lemma digits_without (sep : N) (s : jsstring) :
  digit sep = false -> forallb digit s = true -> ~ In sep s.
Proof.
  intros Hs F Hin. rewrite forallb_forall in F. apply F in Hin. congruence.
Qed.

Lemma fallback_id_injective (t1 n1 t2 n2 : N) :
  fallback_id t1 n1 = fallback_id t2 n2 -> t1 = t2 /\ n1 = n2.
Proof.
  unfold fallback_id. intros E. apply app_inv_head in E.
  apply (split_at_separator 45%N) in E as [E1 E2];
    try (apply digits_without; [reflexivity | apply dec_digits]).
  split; now apply dec_injective.
Qed.

Lemma fallback_id_no_quote (t n : N) : ~ In quot (fallback_id t n).
Proof.
  unfold fallback_id. intros H.
  apply in_app_iff in H as [H | H];
    [vm_compute in H; intuition discriminate|].
  apply in_app_iff in H as [H | H];
    [revert H; apply digits_without; [reflexivity | apply dec_digits]|].
  destruct H as [H | H]; [discriminate|].
  revert H. apply digits_without; [reflexivity | apply dec_digits].
Qed.

Lemma card_html_open (projectId : jsstring) (big : Z)
    (escapedCategory typeLabel escapedContent skillsHtml : jsstring) :
  exists rest,
    card_html projectId big escapedCategory typeLabel escapedContent
              skillsHtml
    = card_open projectId ++ rest.
Proof.
  unfold card_html, card_open, attr. eexists.
  rewrite <- !app_assoc. simpl. reflexivity.
Qed.

(** What [developProject] returns when all checks pass and there is no
    [crypto.randomUUID]. *)
Lemma developProject_fallback (env : renderEnv) (counter : N) (big type : Z)
    (category shortInfo longInfo : value) (skillList : skillArg) :
  render_input_ok big type category shortInfo longInfo skillList = true ->
  randomUUID env = None ->
  developProject env counter big type category shortInfo longInfo skillList
  = ([], ThrewURIError, N.succ counter)
  \/ exists rest,
       developProject env counter big type category shortInfo longInfo
                      skillList
       = ([], Returned (card_open (fallback_id (dateNow env) (N.succ counter))
                        ++ rest),
          N.succ counter).
Proof.
  unfold render_input_ok, required_text, developProject. intros Ok Hu.
  repeat (apply andb_true_iff in Ok as [Ok ?]).
  replace (negb (big =? PROJECT_STATE_LARGE)%Z
           && negb (big =? PROJECT_STATE_SMALL)%Z) with false
    by (destruct (big =? PROJECT_STATE_LARGE)%Z,
          (big =? PROJECT_STATE_SMALL)%Z; auto; discriminate).
  replace (negb (type =? PROJECT_TYPE_PERSONAL)%Z
           && negb (type =? PROJECT_TYPE_SCHOOL)%Z) with false
    by (destruct (type =? PROJECT_TYPE_PERSONAL)%Z,
          (type =? PROJECT_TYPE_SCHOOL)%Z; auto; discriminate).
  repeat match goal with
         | H : truthy ?v && is_string ?v = true |- _ =>
             apply andb_true_iff in H as [? ?]
         end.
  repeat match goal with
         | H : truthy ?v = true |- _ => rewrite H; clear H
         | H : is_string ?v = true |- _ => rewrite H; clear H
         end.
  cbn [negb orb]. rewrite Hu. cbn [incrementProjectCounter].
  set (skills := match skillList with
                 | SkUndefined => SkArray []
                 | _ => skillList
                 end).
  destruct skillList as [| |l]; try discriminate; subst skills;
    cbn iota.
  - right. simpl render_skills. cbv iota.
    destruct (card_html_open
                (js "project-" ++ dec (dateNow env) ++ js "-"
                 ++ dec (N.succ counter)) big (escapeHtml category)
                (if (type =? PROJECT_TYPE_PERSONAL)%Z
                 then js "Personal Project" else js "School Project")
                (escapeHtml (if (big =? PROJECT_STATE_LARGE)%Z
                             then longInfo else shortInfo)) [])
      as (rest & E).
    exists rest. unfold fallback_id. now rewrite <- E.
  - destruct (render_skills l) as [tags|]; [right | now left].
    match goal with
    | |- context [card_html ?a ?b ?c ?d ?e ?f] =>
        destruct (card_html_open a b c d e f) as (rest & E)
    end.
    exists rest. unfold fallback_id. now rewrite <- E.
Qed.

End RenderFacts.

(** X10.  [developProject] returns the empty string exactly when one of
    its parameter checks fails, and then it logs exactly one console
    error and leaves the id counter alone.  When all checks pass it logs
    nothing and advances the counter by one if and only if the browser
    has no [crypto.randomUUID]; it then returns markup, never empty, if
    every skill of the list has a key, and ends with the URIError of the
    encoder, the counter already advanced, if some skill has none. *)
Theorem developProject_checks_parameters (env : renderEnv) (counter : N)
    (big type : Z) (category shortInfo longInfo : value)
    (skillList : skillArg) :
  (render_input_ok big type category shortInfo longInfo skillList = false ->
   exists msg,
     developProject env counter big type category shortInfo longInfo
                    skillList
     = ([Console LvError [AStr msg]], Returned [], counter))
  /\ (render_input_ok big type category shortInfo longInfo skillList = true ->
      exists out,
        developProject env counter big type category shortInfo longInfo
                       skillList
        = ([], out,
           match randomUUID env with
           | Some _ => counter
           | None => N.succ counter
           end)
        /\ ((forall s, In s (skills_of skillList) ->
               normalizeSkillKey (JStr s) <> None) ->
            exists html, out = Returned html /\ html <> [])
        /\ ((exists s, In s (skills_of skillList)
                       /\ normalizeSkillKey (JStr s) = None) ->
            out = ThrewURIError)).
Proof.
  split.
  - unfold render_input_ok, required_text, developProject, console_error.
    destruct ((big =? PROJECT_STATE_LARGE)%Z),
      ((big =? PROJECT_STATE_SMALL)%Z);
      cbn [negb andb orb];
      try (intros _; eexists; reflexivity);
      (destruct ((type =? PROJECT_TYPE_PERSONAL)%Z),
         ((type =? PROJECT_TYPE_SCHOOL)%Z);
       cbn [negb andb orb];
       try (intros _; eexists; reflexivity);
       (destruct (truthy category), (is_string category);
        cbn [negb andb orb];
        try (intros _; eexists; reflexivity);
        (destruct (truthy shortInfo), (is_string shortInfo);
         cbn [negb andb orb];
         try (intros _; eexists; reflexivity);
         (destruct (truthy longInfo), (is_string longInfo);
          cbn [negb andb orb];
          try (intros _; eexists; reflexivity);
          (destruct skillList as [| |l];
           try (intros _; eexists; reflexivity);
           discriminate))))).
  - intros Ok.
    destruct (developProject_passed env counter big type category shortInfo
                longInfo skillList Ok) as (pid & ec & tl & ect & E).
    rewrite E. eexists. split; [reflexivity|]. split.
    + intros All. destruct (render_skills_all _ All) as (tags & ->).
      eexists. split; [reflexivity | apply card_html_not_empty].
    + intros Bad. apply render_skills_none in Bad. now rewrite Bad.
Qed.

Lemma developProject_checks_parameters_witness :
  (exists msg,
     developProject {| randomUUID := None; dateNow := 5 |} 7 2 1
                    (JStr (js "Title")) (JStr (js "short")) (JStr (js "long"))
                    (SkArray [js "C++"])
     = ([Console LvError [AStr msg]], Returned [], 7%N))
  /\ (exists html,
        developProject {| randomUUID := None; dateNow := 5 |} 7 1 1
                       (JStr (js "Title")) (JStr (js "short"))
                       (JStr (js "long")) (SkArray [js "C++"])
        = ([], Returned html, 8%N) /\ html <> [])
  /\ developProject {| randomUUID := None; dateNow := 5 |} 7 1 1
                    (JStr (js "Title")) (JStr (js "short"))
                    (JStr (js "long")) (SkArray [[55296%N]])
     = ([], ThrewURIError, 8%N).
Proof.
  split; [|split].
  - apply (developProject_checks_parameters
             {| randomUUID := None; dateNow := 5 |} 7 2 1
             (JStr (js "Title")) (JStr (js "short")) (JStr (js "long"))
             (SkArray [js "C++"])).
    reflexivity.
  - destruct (developProject_checks_parameters
                {| randomUUID := None; dateNow := 5 |} 7 1 1
                (JStr (js "Title")) (JStr (js "short")) (JStr (js "long"))
                (SkArray [js "C++"])) as (_ & Ok).
    destruct (Ok eq_refl) as (out & E & All & _).
    destruct All as (html & -> & Hne).
    + intros s [<- | []]. discriminate.
    + exists html. split; [exact E | exact Hne].
  - destruct (developProject_checks_parameters
                {| randomUUID := None; dateNow := 5 |} 7 1 1
                (JStr (js "Title")) (JStr (js "short")) (JStr (js "long"))
                (SkArray [[55296%N]])) as (_ & Ok).
    destruct (Ok eq_refl) as (out & E & _ & Bad).
    rewrite E. rewrite Bad; [reflexivity|].
    exists [55296%N]. split; [now left | reflexivity].
Defined.

(** X11.  Without [crypto.randomUUID], two cards rendered from
    different values of the id counter get different ids, whatever the
    clock reads, and so different markup; and since every such
    rendering advances the counter, so do any two cards rendered one
    after the other. *)
Theorem developProject_fallback_ids_differ
    (env1 env2 : renderEnv) (c1 c2 : N)
    (big1 type1 big2 type2 : Z)
    (cat1 short1 long1 cat2 short2 long2 : value)
    (skills1 skills2 : skillArg)
    (html1 html2 : jsstring) (c1' c2' : N) :
  randomUUID env1 = None -> randomUUID env2 = None ->
  render_input_ok big1 type1 cat1 short1 long1 skills1 = true ->
  render_input_ok big2 type2 cat2 short2 long2 skills2 = true ->
  developProject env1 c1 big1 type1 cat1 short1 long1 skills1
  = ([], Returned html1, c1') ->
  developProject env2 c2 big2 type2 cat2 short2 long2 skills2
  = ([], Returned html2, c2') ->
  c1' = N.succ c1 /\ c2' = N.succ c2
  /\ (c1 <> c2 ->
      html1 <> html2
      /\ exists id1 id2 rest1 rest2,
           html1 = card_open id1 ++ rest1 /\ html2 = card_open id2 ++ rest2
           /\ id1 = fallback_id (dateNow env1) c1'
           /\ id2 = fallback_id (dateNow env2) c2'
           /\ id1 <> id2).
Proof.
  intros U1 U2 Ok1 Ok2 E1 E2.
  destruct (developProject_fallback env1 c1 big1 type1 cat1 short1 long1
              skills1 Ok1 U1) as [F1 | (rest1 & F1)];
    rewrite F1 in E1; [discriminate|].
  destruct (developProject_fallback env2 c2 big2 type2 cat2 short2 long2
              skills2 Ok2 U2) as [F2 | (rest2 & F2)];
    rewrite F2 in E2; [discriminate|].
  assert (H1 : html1 = card_open (fallback_id (dateNow env1) (N.succ c1))
                      ++ rest1 /\ c1' = N.succ c1) by (split; congruence).
  assert (H2 : html2 = card_open (fallback_id (dateNow env2) (N.succ c2))
                      ++ rest2 /\ c2' = N.succ c2) by (split; congruence).
  clear E1 E2 F1 F2. destruct H1 as [-> ->], H2 as [-> ->].
  split; [reflexivity|]. split; [reflexivity|]. intros Hne.
  assert (Hid : fallback_id (dateNow env1) (N.succ c1)
                <> fallback_id (dateNow env2) (N.succ c2)).
  { intros E. apply fallback_id_injective in E as [_ E]. lia. }
  split.
  - pose proof (fallback_id_no_quote (dateNow env1) (N.succ c1)) as Q1.
    pose proof (fallback_id_no_quote (dateNow env2) (N.succ c2)) as Q2.
    revert Hid Q1 Q2.
    generalize (fallback_id (dateNow env1) (N.succ c1)) as i1.
    generalize (fallback_id (dateNow env2) (N.succ c2)) as i2.
    intros i2 i1 Hid Q1 Q2 E. apply Hid. unfold card_open in E.
    rewrite <- !app_assoc in E. simpl in E. injection E as E.
    now apply (split_at_separator quot) in E as [E _].
  - now exists (fallback_id (dateNow env1) (N.succ c1)),
               (fallback_id (dateNow env2) (N.succ c2)), rest1, rest2.
Qed.

Lemma developProject_fallback_ids_differ_witness :
  let env := {| randomUUID := None; dateNow := 1700000000000 |} in
  exists html1 html2,
    developProject env 0 1 1 (JStr (js "A")) (JStr (js "s")) (JStr (js "l"))
                   (SkArray [js "C++"]) = ([], Returned html1, 1%N)
    /\ developProject env 1 1 1 (JStr (js "A")) (JStr (js "s"))
                      (JStr (js "l")) (SkArray [js "C++"])
       = ([], Returned html2, 2%N)
    /\ html1 <> html2.
Proof.
  intros env. do 2 eexists.
  split; [vm_compute; reflexivity|]. split; [vm_compute; reflexivity|].
  refine (proj1 (proj2 (proj2
    (developProject_fallback_ids_differ env env 0 1 1 1 1 1
       (JStr (js "A")) (JStr (js "s")) (JStr (js "l"))
       (JStr (js "A")) (JStr (js "s")) (JStr (js "l"))
       (SkArray [js "C++"]) (SkArray [js "C++"]) _ _ 1 2
       eq_refl eq_refl eq_refl eq_refl eq_refl eq_refl)) _)).
  discriminate.
Defined.

(** ** projects.js: highlighting a list of skills *)

Section HighlightMore.

Lemma class_add_idem (t : jsstring) (l : list jsstring) :
  class_add t (class_add t l) = class_add t l.
Proof.
  unfold class_add at 1. now rewrite contains_add_same.
Qed.

Lemma class_remove_fixed (t : jsstring) (l : list jsstring) :
  contains t l = false -> class_remove t l = l.
Proof.
  unfold contains, class_remove. induction l as [|a l IH]; simpl; auto.
  intros H. apply orb_false_iff in H as [Ha Hl].
  rewrite Ha. simpl. now rewrite IH.
Qed.

Lemma class_remove_idem (t : jsstring) (l : list jsstring) :
  class_remove t (class_remove t l) = class_remove t l.
Proof. apply class_remove_fixed, contains_remove_same. Qed.

Lemma class_remove_add (t : jsstring) (l : list jsstring) :
  class_remove t (class_add t l) = class_remove t l.
Proof.
  unfold class_add. destruct (contains t l); auto.
  unfold class_remove. rewrite filter_app. simpl.
  rewrite str_eqb_refl. simpl. apply app_nil_r.
Qed.

Lemma set_highlight_idem (h : bool) (e : element) :
  set_highlight h (set_highlight h e) = set_highlight h e.
Proof.
  unfold set_highlight. simpl. f_equal.
  destruct h; [apply class_add_idem | apply class_remove_idem].
Qed.

Lemma tagged_set_highlight (keys : list jsstring) (h : bool) (e : element) :
  tagged keys (set_highlight h e) = tagged keys e.
Proof. reflexivity. Qed.

Lemma mark_mark_all (h : bool) (k : jsstring) (keys : list jsstring)
    (d : document) :
  mark_all h keys (mark h k d) = mark_all h (k :: keys) d.
Proof.
  unfold mark_all, mark. rewrite map_map. apply map_ext. intros e.
  unfold tagged. simpl. destruct (has_skill k e) eqn:Hk; simpl; auto.
  change (existsb (fun k0 => has_skill k0 (set_highlight h e)) keys)
    with (existsb (fun k0 => has_skill k0 e) keys).
  destruct (existsb (fun k0 => has_skill k0 e) keys); auto.
  apply set_highlight_idem.
Qed.

Lemma fold_mark_all (h : bool) (keys : list jsstring) (d : document) :
  fold_left (fun acc k => mark h k acc) keys d = mark_all h keys d.
Proof.
  revert d. induction keys as [|k keys IH]; intros d; simpl.
  - unfold mark_all. simpl. symmetry. apply map_id.
  - rewrite IH. apply mark_mark_all.
Qed.

Lemma highlightSkill_mark_all (has_css_escape h : bool) (card : element)
    (skills keys : list jsstring) (d : document) :
  map (fun s => normalizeSkillKey (JStr s)) skills = map Some keys ->
  highlightSkill has_css_escape (Some card) (SkArray skills) h d
  = Done (mark_all h keys d).
Proof.
  intros E. destruct skills as [|s skills].
  - destruct keys; [|discriminate]. simpl. unfold mark_all. simpl.
    now rewrite map_id.
  - unfold highlightSkill.
    now rewrite (highlight_each_keys _ _ _ keys), fold_mark_all.
Qed.

Lemma contains_set_highlight (t : jsstring) (h : bool) (e : element) :
  contains t (classList (set_highlight h e))
  = if str_eqb t skill_highlighted then h else contains t (classList e).
Proof.
  unfold set_highlight. simpl. destruct (str_eqb t skill_highlighted) eqn:E.
  - apply str_eqb_eq in E. subst.
    destruct h; [apply contains_add_same | apply contains_remove_same].
  - apply str_eqb_neq in E.
    destruct h; [now apply contains_add_other
                | now apply contains_remove_other].
Qed.

End HighlightMore.

(** X12.  For a list of skills that all have keys, [highlightSkill]
    changes the document element by element: an element tagged with one
    of the keys gets the highlight class when hovering and loses it when
    leaving, an element tagged with none of them is left as it is; no
    other class and no attribute of any element changes.  Without an
    element, without a list or with an empty list the document is
    untouched. *)
Theorem highlightSkill_marks_tagged (has_css_escape isHovering : bool)
    (card : element) (skills keys : list jsstring) (d : document) :
  map (fun s => normalizeSkillKey (JStr s)) skills = map Some keys ->
  highlightSkill has_css_escape (Some card) (SkArray skills) isHovering d
  = Done (mark_all isHovering keys d)
  /\ length (mark_all isHovering keys d) = length d
  /\ (forall i e,
        nth_error d i = Some e ->
        exists e',
          nth_error (mark_all isHovering keys d) i = Some e'
          /\ data_skill e' = data_skill e
          /\ data_expanded e' = data_expanded e
          /\ (forall t, t <> skill_highlighted ->
                contains t (classList e') = contains t (classList e))
          /\ contains skill_highlighted (classList e')
             = if tagged keys e then isHovering
               else contains skill_highlighted (classList e))
  /\ highlightSkill has_css_escape None (SkArray skills) isHovering d = Done d
  /\ highlightSkill has_css_escape (Some card) SkUndefined isHovering d
     = Done d
  /\ highlightSkill has_css_escape (Some card) SkNull isHovering d = Done d
  /\ highlightSkill has_css_escape (Some card) (SkArray []) isHovering d
     = Done d.
Proof.
  intros E. split; [now apply highlightSkill_mark_all|].
  split; [unfold mark_all; apply length_map|].
  split; [|repeat split].
  intros i e Hi. unfold mark_all. rewrite nth_error_map, Hi. simpl.
  eexists. split; [reflexivity|].
  destruct (tagged keys e); repeat split; auto.
  - intros t Ht. rewrite contains_set_highlight.
    apply str_eqb_neq in Ht. now rewrite Ht.
  - rewrite contains_set_highlight. now rewrite str_eqb_refl.
Qed.

Lemma highlightSkill_marks_tagged_witness :
  let tag := {| data_expanded := None; data_skill := Some (js "C%2B%2B");
                classList := [js "skill-tag"] |} in
  highlightSkill true (Some (card_element 0)) (SkArray [js "C++"]) true
                 [card_element 0; tag]
  = Done (mark_all true [js "C%2B%2B"] [card_element 0; tag]).
Proof.
  intros tag.
  apply (highlightSkill_marks_tagged true true (card_element 0) [js "C++"]
           [js "C%2B%2B"] [card_element 0; tag] eq_refl).
Defined.

(** X13.  Entering twice is entering once, and leaving after entering
    is leaving: repeated hover events never pile up.  When none of the
    tagged elements carried the highlight class beforehand, entering and
    then leaving gives the document back exactly. *)
Theorem highlightSkill_enter_leave (has_css_escape : bool) (card : element)
    (skills keys : list jsstring) (d : document) :
  map (fun s => normalizeSkillKey (JStr s)) skills = map Some keys ->
  exists entered left,
    highlightSkill has_css_escape (Some card) (SkArray skills) true d
    = Done entered
    /\ highlightSkill has_css_escape (Some card) (SkArray skills) true entered
       = Done entered
    /\ highlightSkill has_css_escape (Some card) (SkArray skills) false
                      entered
       = Done left
    /\ highlightSkill has_css_escape (Some card) (SkArray skills) false d
       = Done left
    /\ ((forall e, In e d -> tagged keys e = true ->
           contains skill_highlighted (classList e) = false) ->
        left = d).
Proof.
  intros E. exists (mark_all true keys d), (mark_all false keys d).
  rewrite !(highlightSkill_mark_all _ _ _ skills keys) by assumption.
  split; [reflexivity|]. split; [|split; [|split; [reflexivity|]]].
  - f_equal. unfold mark_all. rewrite map_map. apply map_ext. intros e.
    destruct (tagged keys e) eqn:T; [|now rewrite T].
    rewrite tagged_set_highlight, T. apply set_highlight_idem.
  - f_equal. unfold mark_all. rewrite map_map. apply map_ext. intros e.
    destruct (tagged keys e) eqn:T; [|now rewrite T].
    rewrite tagged_set_highlight, T. unfold set_highlight. simpl.
    now rewrite class_remove_add.
  - intros H. unfold mark_all. rewrite <- (map_id d) at 2.
    apply map_ext_in. intros e He.
    destruct (tagged keys e) eqn:T; auto.
    unfold set_highlight. rewrite class_remove_fixed by now apply H.
    now destruct e.
Qed.

Lemma highlightSkill_enter_leave_witness :
  let tag := {| data_expanded := None; data_skill := Some (js "C%2B%2B");
                classList := [js "skill-tag"] |} in
  exists entered,
    highlightSkill true (Some tag) (SkArray [js "C++"]) true [tag]
    = Done entered
    /\ highlightSkill true (Some tag) (SkArray [js "C++"]) false entered
       = Done [tag].
Proof.
  intros tag.
  destruct (highlightSkill_enter_leave true tag [js "C++"] [js "C%2B%2B"]
              [tag] eq_refl)
    as (entered & left & E1 & _ & E2 & _ & Back).
  exists entered. split; [exact E1|]. rewrite E2. f_equal. apply Back.
  intros e [<- | []] _. reflexivity.
Defined.

(** ** projects.js: binding the hover listeners *)

Section HoverFacts.

Lemma dispatch_app (has_css_escape : bool) (id : jsstring) (ev : hoverEvent)
    (r1 r2 : list hoverListener) (d d1 : document) :
  dispatch has_css_escape id ev r1 d = Done d1 ->
  dispatch has_css_escape id ev (r1 ++ r2) d
  = dispatch has_css_escape id ev r2 d1.
Proof.
  revert d. induction r1 as [|l r1 IH]; simpl; intros d H.
  - now injection H as <-.
  - destruct (str_eqb (h_id l) id && hover_eqb (h_event l) ev); auto.
    destruct (run_listener_body has_css_escape l d); auto; try discriminate.
    destruct (dispatch has_css_escape id ev r1 d0); discriminate.
Qed.

End HoverFacts.

(** X14.  [attachHighlightListeners] binds nothing and logs nothing for
    a missing id or a missing or empty skill list, and logs one warning
    and binds nothing when no element has the id.  Otherwise it adds one
    listener for entering and one for leaving.  Binding the same card
    twice does no harm: the listeners of two bindings leave the document
    as those of one do, on entering and on leaving; and entering then
    leaving leaves no element tagged with one of the skills highlighted. *)
Theorem attachHighlightListeners_binds
    (has_css_escape : bool) (getElementById : jsstring -> option element)
    (projectId : jsstring) (skills keys : list jsstring) (d : document) :
  (forall sk, attachHighlightListeners getElementById JUndefined sk = ([], []))
  /\ (forall sk, attachHighlightListeners getElementById (JStr []) sk
                 = ([], []))
  /\ (forall id, attachHighlightListeners getElementById id (SkArray [])
                 = ([], [])
                 /\ attachHighlightListeners getElementById id SkNull
                    = ([], []))
  /\ (projectId <> [] -> skills <> [] ->
      getElementById projectId = None ->
      exists msg,
        attachHighlightListeners getElementById (JStr projectId)
                                 (SkArray skills)
        = ([Console LvWarn [AStr msg]], []))
  /\ (projectId <> [] -> skills <> [] ->
      map (fun s => normalizeSkillKey (JStr s)) skills = map Some keys ->
      forall card, getElementById projectId = Some card ->
      exists bound,
        attachHighlightListeners getElementById (JStr projectId)
                                 (SkArray skills)
        = ([], bound)
        /\ length bound = 2%nat
        /\ dispatch has_css_escape projectId MouseEnter bound d
           = Done (mark_all true keys d)
        /\ dispatch has_css_escape projectId MouseEnter (bound ++ bound) d
           = Done (mark_all true keys d)
        /\ dispatch has_css_escape projectId MouseLeave (bound ++ bound) d
           = Done (mark_all false keys d)
        /\ dispatch has_css_escape projectId MouseLeave bound
                    (mark_all true keys d)
           = Done (mark_all false keys d)
        /\ forall e, In e (mark_all false keys d) ->
             tagged keys e = true ->
             contains skill_highlighted (classList e) = false).
Proof.
  split; [reflexivity|]. split; [reflexivity|].
  split; [intros id; unfold attachHighlightListeners;
          destruct (truthy id); now split|].
  split.
  - intros Hid Hsk Hnone. unfold attachHighlightListeners.
    destruct projectId as [|c p]; [congruence|].
    destruct skills as [|s sk]; [congruence|]. simpl.
    rewrite Hnone. eexists. reflexivity.
  - intros Hid Hsk E card Hcard. unfold attachHighlightListeners.
    destruct projectId as [|c p]; [congruence|].
    destruct skills as [|s sk]; [congruence|].
    cbn [truthy negb orb skills_missing to_string]. rewrite Hcard.
    eexists. split; [reflexivity|]. split; [reflexivity|].
    assert (Enter : forall d0,
      dispatch has_css_escape (c :: p) MouseEnter
        [{| h_id := c :: p; h_event := MouseEnter; h_element := card;
            h_skills := SkArray (s :: sk) |};
         {| h_id := c :: p; h_event := MouseLeave; h_element := card;
            h_skills := SkArray (s :: sk) |}] d0
      = Done (mark_all true keys d0)).
    { intros d0. cbn [dispatch h_id h_event hover_eqb andb].
      rewrite str_eqb_refl. cbn [andb]. unfold run_listener_body.
      cbn [h_element h_skills h_event].
      now rewrite (highlightSkill_mark_all _ _ _ _ keys) by assumption. }
    assert (Leave : forall d0,
      dispatch has_css_escape (c :: p) MouseLeave
        [{| h_id := c :: p; h_event := MouseEnter; h_element := card;
            h_skills := SkArray (s :: sk) |};
         {| h_id := c :: p; h_event := MouseLeave; h_element := card;
            h_skills := SkArray (s :: sk) |}] d0
      = Done (mark_all false keys d0)).
    { intros d0. cbn [dispatch h_id h_event hover_eqb andb].
      rewrite str_eqb_refl, andb_false_r. cbn [andb].
      unfold run_listener_body. cbn [h_element h_skills h_event].
      now rewrite (highlightSkill_mark_all _ _ _ _ keys) by assumption. }
    assert (Idem : forall h d0,
      mark_all h keys (mark_all h keys d0) = mark_all h keys d0).
    { intros h d0. unfold mark_all. rewrite map_map. apply map_ext.
      intros e. destruct (tagged keys e) eqn:T; [|now rewrite T].
      rewrite tagged_set_highlight, T. apply set_highlight_idem. }
    split; [apply Enter|].
    split; [rewrite (dispatch_app _ _ _ _ _ _ _ (Enter d)), Enter;
            now rewrite Idem|].
    split; [rewrite (dispatch_app _ _ _ _ _ _ _ (Leave d)), Leave;
            now rewrite Idem|].
    split.
    + rewrite Leave. f_equal. unfold mark_all. rewrite map_map.
      apply map_ext. intros e.
      destruct (tagged keys e) eqn:T; [|now rewrite T].
      rewrite tagged_set_highlight, T. unfold set_highlight. simpl.
      now rewrite class_remove_add.
    + intros e He T. unfold mark_all in He.
      apply in_map_iff in He as (e0 & <- & _).
      destruct (tagged keys e0) eqn:T0.
      * rewrite contains_set_highlight. now rewrite str_eqb_refl.
      * congruence.
Qed.

Lemma attachHighlightListeners_binds_witness :
  let tag := {| data_expanded := None; data_skill := Some (js "C%2B%2B");
                classList := [js "skill-tag"] |} in
  let card := card_element 1 in
  let lookup := fun id => if str_eqb id (js "project-1") then Some card
                          else None in
  (exists msg,
     attachHighlightListeners lookup (JStr (js "project-2"))
                              (SkArray [js "C++"])
     = ([Console LvWarn [AStr msg]], []))
  /\ exists bound,
       attachHighlightListeners lookup (JStr (js "project-1"))
                                (SkArray [js "C++"]) = ([], bound)
       /\ dispatch true (js "project-1") MouseEnter (bound ++ bound)
                   [card; tag]
          = Done (mark_all true [js "C%2B%2B"] [card; tag]).
Proof.
  intros tag card lookup. split.
  - apply (attachHighlightListeners_binds true lookup (js "project-2")
             [js "C++"] [js "C%2B%2B"] [card; tag]);
      [discriminate | discriminate | reflexivity].
  - destruct (attachHighlightListeners_binds true lookup (js "project-1")
                [js "C++"] [js "C%2B%2B"] [card; tag])
      as (_ & _ & _ & _ & Bind).
    destruct (Bind ltac:(discriminate) ltac:(discriminate) eq_refl card
                eq_refl) as (bound & E & _ & _ & Twice & _).
    exists bound. split; [exact E | exact Twice].
Defined.

(** ** main.js: one click listener *)

Section MainFacts.

Lemma inits_initialized (k : nat) (s : mainState) :
  isInitialized s = true ->
  inits k s
  = (repeat (Console LvWarn [AStr (js "Project toggle already initialized")])
            k, s).
Proof.
  intros H. induction k as [|k IH]; simpl; auto.
  unfold init, initProjectToggle. rewrite H. now rewrite IH.
Qed.

Lemma update_at_nth (i : nat) (f : node -> node) (page : list node)
    (n : node) :
  nth_error page i = Some n ->
  nth_error (update_at i f page) i = Some (f n)
  /\ length (update_at i f page) = length page
  /\ forall j, j <> i ->
       nth_error (update_at i f page) j = nth_error page j.
Proof.
  revert i. induction page as [|m page IH]; intros [|i] H; simpl in *;
    try discriminate.
  - injection H as ->. split; [reflexivity|]. split; [reflexivity|].
    intros [|j] Hj; [congruence | reflexivity].
  - destruct (IH i H) as (H1 & H2 & H3). split; [exact H1|].
    split; [now rewrite H2|].
    intros [|j] Hj; [reflexivity|]. apply H3. congruence.
Qed.

End MainFacts.

(** X15.  However many times [init] runs, the document gets exactly one
    click listener; every call after the first only logs a warning.  So
    a click inside a card toggles that card once (two listeners would
    toggle it back) and calls [preventDefault]; no other node of the
    page changes; a click outside every card changes nothing. *)
Theorem init_binds_one_click_listener (k : nat) :
  let r := inits (S k) loaded_module in
  fst r
  = repeat (Console LvWarn [AStr (js "Project toggle already initialized")]) k
  /\ click_listeners (snd r) = 1%nat
  /\ (forall path page,
        closest page path = None ->
        click (snd r) path page = (page, false))
  /\ (forall path page i n,
        closest page path = Some i -> nth_error page i = Some n ->
        exists page',
          click (snd r) path page = (page', true)
          /\ nth_error page' i = Some (toggle_node n)
          /\ length page' = length page
          /\ (forall j, j <> i -> nth_error page' j = nth_error page j)
          /\ (data_expanded (n_element n) = Some (js "1") ->
              data_expanded (n_element (toggle_node n)) = Some (js "0"))
          /\ (data_expanded (n_element n) = Some (js "0") ->
              data_expanded (n_element (toggle_node n)) = Some (js "1"))).
Proof.
  cbn zeta. simpl inits.
  rewrite (inits_initialized k {| isInitialized := true;
                                  click_listeners := 1 |} eq_refl).
  simpl. split; [reflexivity|]. split; [reflexivity|]. split.
  - intros path page H. unfold click, click_listener. simpl. now rewrite H.
  - intros path page i n Hc Hn. unfold click, click_listener. simpl.
    rewrite Hc. eexists. split; [reflexivity|].
    destruct (update_at_nth i toggle_node page n Hn) as (H1 & H2 & H3).
    repeat split; auto.
    + intros E. unfold toggle_node. simpl. now rewrite E.
    + intros E. unfold toggle_node. simpl. now rewrite E.
Qed.

Lemma init_binds_one_click_listener_witness :
  let card := {| n_element := card_element 0;
                 data_toggle := Some (js "project") |} in
  let title := {| n_element := {| data_expanded := None; data_skill := None;
                                  classList := [js "project-title"] |};
                  data_toggle := None |} in
  exists page',
    click (snd (inits 3 loaded_module)) [1; 0]%nat [card; title]
    = (page', true)
    /\ nth_error page' 0 = Some (toggle_node card)
    /\ data_expanded (n_element (toggle_node card)) = Some (js "1").
Proof.
  intros card title.
  destruct (init_binds_one_click_listener 2) as (_ & _ & _ & Click).
  destruct (Click [1; 0]%nat [card; title] 0%nat card eq_refl eq_refl)
    as (page' & E & Hn & _ & _ & _ & H0).
  exists page'. split; [exact E|]. split; [exact Hn|]. now apply H0.
Defined.

(** ** language.js: where a switch lands *)

Section LandingFacts.

Lemma page_split (p : jsstring) :
  ends_with_ci ext_html p = true ->
  exists stem ext, p = stem ++ ext /\ all2 eq_ci ext_html ext = true.
Proof.
  intros H. destruct (ends_with_ci_split _ _ H) as (stem & ext & E & A & _).
  now exists stem, ext.
Qed.

Lemma fr_page_split (p : jsstring) :
  ends_with_ci fr_html p = true ->
  exists stem fr ext,
    p = stem ++ fr ++ ext /\ all2 eq_ci (js "-fr") fr = true
    /\ all2 eq_ci ext_html ext = true.
Proof.
  intros H. destruct (ends_with_ci_split _ _ H) as (stem & x & -> & A & _).
  change fr_html with (js "-fr" ++ ext_html) in A.
  destruct (all2_split _ _ _ _ A) as (fr & ext & -> & A1 & A2).
  now exists stem, fr, ext.
Qed.

Lemma newPath_french_is_french (p : jsstring) :
  ends_with_ci fr_html (newPath LANGUAGE_FRENCH p) = true.
Proof.
  unfold newPath. simpl.
  destruct (ends_with_ci fr_html (normalizePath p)) eqn:F; simpl; auto.
  destruct (page_split _ (normalizePath_is_page p)) as (stem & ext & -> & A).
  rewrite (addFr_app _ _ A). apply ends_with_ci_app.
  change fr_html with (js "-fr" ++ ext_html).
  apply all2_app; [apply all2_eq_ci_refl | exact A].
Qed.

Lemma newPath_french_fixed (p : jsstring) :
  ends_with_ci fr_html p = true -> newPath LANGUAGE_FRENCH p = p.
Proof.
  intros F. unfold newPath.
  rewrite (normalizePath_page _ (fr_page_is_page _ F)), F. reflexivity.
Qed.

End LandingFacts.

(** X16.  A call with a value that is neither language only logs an
    error.  Otherwise the computed path always names a page (it ends in
    .html, in any letter case), and for French a French page; so once a
    switch to French has navigated, a second one does nothing.  A switch
    to English on a French page removes exactly three code units; the
    page it lands on can still be a French one. *)
Theorem switchLanguage_lands_on_page :
  (forall lang u,
      lang <> LANGUAGE_ENGLISH -> lang <> LANGUAGE_FRENCH ->
      switchLanguage lang u
      = ([Console LvError [AStr msg_invalid_language]], None))
  /\ (forall lang p, ends_with_ci ext_html (newPath lang p) = true)
  /\ (forall p, ends_with_ci fr_html (newPath LANGUAGE_FRENCH p) = true)
  /\ (forall p,
        newPath LANGUAGE_FRENCH (newPath LANGUAGE_FRENCH p)
        = newPath LANGUAGE_FRENCH p)
  /\ (forall u target,
        switchLanguage LANGUAGE_FRENCH u = ([], Some target) ->
        switchLanguage LANGUAGE_FRENCH target = ([], None))
  /\ (forall p,
        ends_with_ci fr_html p = true ->
        (length (newPath LANGUAGE_ENGLISH p) + 3 = length p)%nat)
  /\ (exists p, ends_with_ci fr_html (newPath LANGUAGE_ENGLISH p) = true).
Proof.
  split; [|split; [|split; [|split; [|split; [|split]]]]].
  - intros lang u HE HF. unfold switchLanguage.
    apply Z.eqb_neq in HE, HF. now rewrite HE, HF.
  - intros lang p. unfold newPath.
    destruct (lang =? LANGUAGE_ENGLISH)%Z.
    + destruct (ends_with_ci fr_html (normalizePath p)) eqn:F.
      * destruct (fr_page_split _ F) as (stem & fr & ext & E & A1 & A2).
        rewrite E, (removeFr_app _ _ _ A1 A2).
        now apply ends_with_ci_app.
      * rewrite (removeFr_other _ F). apply normalizePath_is_page.
    + destruct (ends_with_ci fr_html (normalizePath p)) eqn:F; simpl.
      * apply normalizePath_is_page.
      * destruct (page_split _ (normalizePath_is_page p))
          as (stem & ext & E & A).
        rewrite E, (addFr_app _ _ A), app_assoc.
        now apply ends_with_ci_app.
  - apply newPath_french_is_french.
  - intros p. apply newPath_french_fixed, newPath_french_is_french.
  - intros u target. unfold switchLanguage. simpl.
    destruct (str_eqb (newPath LANGUAGE_FRENCH (pathname u)) (pathname u));
      simpl; [discriminate|].
    intros H. injection H as <-. simpl.
    rewrite (newPath_french_fixed _ (newPath_french_is_french (pathname u))).
    now rewrite str_eqb_refl.
  - intros p F. unfold newPath.
    rewrite (normalizePath_page _ (fr_page_is_page _ F)). simpl.
    destruct (fr_page_split _ F) as (stem & fr & ext & -> & A1 & A2).
    rewrite (removeFr_app _ _ _ A1 A2), !length_app.
    apply all2_length in A1. change (length (js "-fr")) with 3%nat in A1.
    lia.
  - exists (js "/cv-fr-fr.html"). reflexivity.
Qed.

Lemma switchLanguage_lands_on_page_witness :
  switchLanguage 2
    {| origin := js "https://example.org"; pathname := js "/";
       search := []; hash := [] |}
  = ([Console LvError [AStr msg_invalid_language]], None)
  /\ (length (newPath LANGUAGE_ENGLISH (js "/cv-FR.html")) + 3
      = length (js "/cv-FR.html"))%nat
  /\ switchLanguage LANGUAGE_FRENCH
       {| origin := js "https://example.org"; pathname := js "/index-fr.html";
          search := []; hash := [] |} = ([], None).
Proof.
  destruct switchLanguage_lands_on_page
    as (Bad & _ & _ & _ & Twice & Shorter & _).
  split; [|split].
  - apply Bad; discriminate.
  - apply Shorter. reflexivity.
  - apply (Twice {| origin := js "https://example.org"; pathname := js "/";
                    search := []; hash := [] |}).
    reflexivity.
Defined.

(** ** notifications.js: what an expiry and a call leave alone *)

Section ExpiryFacts.

Lemma kinds_cover {A : Type} (f : A -> kind) (l : list A) :
  length l
  = (length (filter (fun x => kind_eqb (f x) KError) l)
     + length (filter (fun x => kind_eqb (f x) KSuccess) l)
     + length (filter (fun x => kind_eqb (f x) KInfo) l))%nat.
Proof.
  induction l as [|a l IH]; simpl; auto.
  destruct (f a); simpl; lia.
Qed.

Lemma same_kind_same_timer (s : state) (x y : timer) :
  inv s -> In x (pending s) -> In y (pending s) ->
  (timer_id x = timer_id y <-> for_kind x = for_kind y).
Proof.
  intros I Hx Hy.
  pose proof (inv_slot _ _ I x Hx) as Sx.
  pose proof (inv_slot _ _ I y Hy) as Sy.
  split; intros E.
  - rewrite E in Sx. exact (inv_slot_inj _ _ I _ _ _ Sx Sy).
  - rewrite E in Sx. congruence.
Qed.

Lemma showMessage_pending_for (s : state) (k k' : kind) (m : jsstring)
    (d : N) :
  inv s -> has_body s = true \/ pending_for k s <> [] ->
  exists r,
    by_id (showMessage k m d s) (messageId k) = Some r
    /\ textContent (heap (showMessage k m d s) r) = m
    /\ style_display (heap (showMessage k m d s) r) = DisplayBlock
    /\ pending_for k' (showMessage k m d s)
       = if kind_eqb k' k
         then [{| timer_id := next_timer s; due := (now s + d)%N;
                  target := r; for_kind := k |}]
         else pending_for k' s.
Proof.
  intros I Hcase.
  destruct (showMessage_displayed k m d s I Hcase)
    as (r & Ep & Es & Er & Et & Ed).
  exists r. split; [exact Er|]. split; [exact Et|]. split; [exact Ed|].
  unfold pending_for at 1. rewrite Ep, filter_app.
  fold (of_kind k'). rewrite (cleared_pending_for s k k' I).
  simpl. unfold of_kind. simpl. rewrite (kind_eqb_sym k k').
  destruct (kind_eqb k' k); simpl; auto. apply app_nil_r.
Qed.

Lemma showMessage_other_message (s : state) (k k' : kind) (m : jsstring)
    (d : N) :
  inv s -> k' <> k ->
  message_of k' (showMessage k m d s) = message_of k' s.
Proof.
  intros I Hk.
  assert (Hid : str_eqb (messageId k') (messageId k) = false).
  { apply str_eqb_neq. intros E. apply Hk. now apply messageId_inj. }
  unfold message_of, showMessage.
  destruct (by_id s (messageId k)) as [r|] eqn:Er.
  - simpl. destruct (by_id s (messageId k')) as [r'|] eqn:Er'; auto.
    simpl. unfold upd_heap.
    destruct (Nat.eqb_spec r' r) as [E | E]; auto.
    exfalso. apply Hk. apply messageId_inj.
    apply (inv_ids _ _ I _ _ r); congruence.
  - destruct (has_body s); simpl.
    + unfold upd_id. rewrite Hid.
      destruct (by_id s (messageId k')) as [r'|] eqn:Er'; auto.
      simpl. unfold upd_heap.
      pose proof (inv_refs _ _ I _ _ Er') as Hr.
      destruct (Nat.eqb_spec r' (next_ref s)) as [E | E]; [lia|].
      reflexivity.
    + destruct (by_id s (messageId k')) as [r'|] eqn:Er'; auto.
      simpl. unfold upd_heap.
      pose proof (inv_refs _ _ I _ _ Er') as Hr.
      destruct (Nat.eqb_spec r' (next_ref s)) as [E | E]; [lia|].
      reflexivity.
Qed.

End ExpiryFacts.

(** X17.  When a pending expiry fires, the message of its kind is hidden
    with its text kept, no expiry of that kind is left, and the expiries
    of the other kinds stay as they were. *)
Theorem expiry_hides_its_message (s : state) (t : timer) :
  reachable s -> In t (pending s) ->
  exists dv,
    message_of (for_kind t) s = Some dv
    /\ message_of (for_kind t) (fire t s) = Some (hidden dv)
    /\ pending_for (for_kind t) (fire t s) = []
    /\ forall k', k' <> for_kind t ->
         pending_for k' (fire t s) = pending_for k' s.
Proof.
  intros R Hin. pose proof (reachable_inv _ R) as I.
  pose proof (inv_target _ _ I t Hin) as Ht.
  exists (heap s (target t)). unfold message_of.
  split; [now rewrite Ht|]. split; [|split].
  - simpl. rewrite Ht. simpl. unfold upd_heap. now rewrite Nat.eqb_refl.
  - unfold pending_for. simpl. apply filter_none. intros x Hx.
    apply in_clearTimeout in Hx as [Hx Hne].
    apply kind_eqb_neq. intros E. apply Hne.
    now apply (same_kind_same_timer s x t I Hx Hin).
  - intros k' Hk. unfold pending_for. simpl. unfold clearTimeout.
    apply filter_filter_keep. intros x Hx Px.
    apply kind_eqb_eq in Px. apply negb_true_iff, N.eqb_neq. intros E.
    apply Hk. rewrite <- Px.
    now apply (same_kind_same_timer s x t I Hx Hin).
Qed.

Lemma expiry_hides_its_message_witness :
  let s := show KError (js "x") fresh_page in
  let t := {| timer_id := 1; due := 5000; target := 0;
              for_kind := KError |} in
  exists dv,
    message_of KError (fire t s) = Some (hidden dv)
    /\ pending_for KError (fire t s) = [].
Proof.
  intros s t.
  assert (R : reachable s).
  { apply reach_step with fresh_page; [|constructor].
    apply reach_init, fresh_page_initial. }
  destruct (expiry_hides_its_message s t R (or_introl eq_refl))
    as (dv & _ & H1 & H2 & _).
  exists dv. split; [exact H1 | exact H2].
Defined.

(** X18.  The module never has more than three timeouts pending, one per
    message kind, however many messages have been shown. *)
Theorem at_most_three_pending (s : state) :
  reachable s -> (length (pending s) <= 3)%nat.
Proof.
  intros R. pose proof (reachable_inv _ R) as I.
  rewrite (kinds_cover for_kind).
  pose proof (at_most_one_pending s KError I) as H1.
  pose proof (at_most_one_pending s KSuccess I) as H2.
  pose proof (at_most_one_pending s KInfo I) as H3.
  unfold pending_for in H1, H2, H3. lia.
Qed.

Lemma at_most_three_pending_witness :
  (length (pending (show KError (js "c")
                      (show KError (js "b")
                         (show KInfo (js "a") fresh_page)))) <= 3)%nat.
Proof.
  apply at_most_three_pending.
  repeat (eapply reach_step; [|constructor]).
  apply reach_init, fresh_page_initial.
Defined.

(** X19.  A call of [showMessage] for one kind leaves the message of
    every other kind as it was: its text, its visibility and whether it
    exists. *)
Theorem showMessage_keeps_other_messages (s : state) (k k' : kind)
    (m : jsstring) (d : N) :
  reachable s -> k' <> k ->
  message_of k' (showMessage k m d s) = message_of k' s.
Proof.
  intros R Hk. apply showMessage_other_message; auto.
  now apply reachable_inv.
Qed.

Lemma showMessage_keeps_other_messages_witness :
  message_of KError
    (showMessage KSuccess (js "sent") 5000 (show KError (js "x") fresh_page))
  = message_of KError (show KError (js "x") fresh_page).
Proof.
  apply showMessage_keeps_other_messages; [|discriminate].
  apply reach_step with fresh_page; [|constructor].
  apply reach_init, fresh_page_initial.
Defined.

(** X20.  After a call of [showMessage] that shows its text, every
    pending timeout that would hide the element showing it is due
    exactly one duration after the call: an expiry set by an earlier
    call never cuts the new message short. *)
Theorem showMessage_full_duration (s : state) (k : kind) (m : jsstring)
    (d : N) (t : timer) :
  reachable s ->
  has_body s = true \/ pending_for k s <> [] ->
  In t (pending (showMessage k m d s)) ->
  by_id (showMessage k m d s) (messageId k) = Some (target t) ->
  due t = (now s + d)%N.
Proof.
  intros R Hcase Hin Ht.
  assert (R' : reachable (showMessage k m d s))
    by (apply reach_step with s; [exact R | constructor]).
  pose proof (reachable_inv _ R') as I'.
  pose proof (inv_target _ _ I' t Hin) as Ht'.
  assert (Ek : for_kind t = k)
    by (apply messageId_inj; apply (inv_ids _ _ I' _ _ _ Ht' Ht)).
  destruct (showMessage_pending_for s k k m d (reachable_inv _ R) Hcase)
    as (r & _ & _ & _ & Ep).
  rewrite kind_eqb_refl in Ep.
  assert (Hk : In t (pending_for k (showMessage k m d s))).
  { apply filter_In. split; [exact Hin|]. now apply kind_eqb_eq. }
  rewrite Ep in Hk. destruct Hk as [<- | []]. reflexivity.
Qed.

Lemma showMessage_full_duration_witness :
  due {| timer_id := 2; due := 6000; target := 0; for_kind := KError |}
  = (now (advance 1000 (show KError (js "x") fresh_page)) + 5000)%N.
Proof.
  apply (showMessage_full_duration
           (advance 1000 (show KError (js "x") fresh_page))
           KError (js "y") 5000).
  - repeat (eapply reach_step; [|constructor]).
    apply reach_init, fresh_page_initial.
  - left. reflexivity.
  - vm_compute. auto.
  - reflexivity.
Defined.

(** ** notifications.js: messages raised before the body exists *)

Section DeferredFacts.

Lemma run_listeners_other (k : kind) (n : nat) (ls : list listener)
    (s : state) :
  (forall l, In l ls -> l_kind l <> k /\ l_div l <> n) ->
  let s' := fold_left (fun acc l => run_listener l acc) ls s in
  by_id s' (messageId k) = by_id s (messageId k)
  /\ has_body s' = has_body s
  /\ heap s' n = heap s n
  /\ now s' = now s
  /\ pending_for k s' = pending_for k s.
Proof.
  revert s. induction ls as [|l ls IH]; intros s H; simpl.
  - repeat split.
  - destruct (H l (or_introl eq_refl)) as [Hk Hn].
    assert (H' : forall l0, In l0 ls -> l_kind l0 <> k /\ l_div l0 <> n)
      by (intros l0 Hl0; apply H; now right).
    destruct (IH (run_listener l s) H') as (E1 & E2 & E3 & E4 & E5).
    cbv zeta in *. rewrite E1, E2, E3, E4, E5. clear E1 E2 E3 E4 E5 IH.
    unfold run_listener.
    destruct (by_id s (messageId (l_kind l))); [repeat split|].
    destruct (has_body s) eqn:Hb; [|now rewrite ?Hb].
    unfold pending_for. simpl. unfold upd_id, upd_heap.
    assert (Hid : str_eqb (messageId k) (messageId (l_kind l)) = false).
    { apply str_eqb_neq. intros E. apply Hk. symmetry.
      now apply messageId_inj. }
    rewrite Hid.
    destruct (Nat.eqb_spec n (l_div l)) as [E | E]; [congruence|].
    rewrite filter_app. simpl.
    assert (Hkk : kind_eqb (l_kind l) k = false) by now apply kind_eqb_neq.
    rewrite Hkk, app_nil_r. repeat split.
Qed.

End DeferredFacts.

(** X21.  Messages raised while the document has no body yet are not
    shown and set no timeout; each call only leaves a listener for
    DOMContentLoaded.  When two calls of one kind were deferred, the
    event shows the message of the first, for its duration counted from
    the event, and the second is never shown. *)
Theorem deferred_first_message_wins (s : state) (k : kind)
    (m1 m2 : jsstring) (d1 d2 dt : N) :
  reachable s -> has_body s = false ->
  by_id s (messageId k) = None ->
  (forall l, In l (listeners s) -> l_kind l <> k) ->
  let s2 := showMessage k m2 d2 (showMessage k m1 d1 s) in
  let s3 := domContentLoaded (body_parsed (advance dt s2)) in
  pending s2 = pending s
  /\ message_of k s2 = None
  /\ length (listeners s2) = (length (listeners s) + 2)%nat
  /\ listeners s3 = []
  /\ exists dv t,
       message_of k s3 = Some dv
       /\ textContent dv = m1
       /\ style_display dv = DisplayBlock
       /\ pending_for k s3 = [t]
       /\ due t = (now s + dt + d1)%N.
Proof.
  intros R Hb Hid Hls s2 s3. pose proof (reachable_inv _ R) as I.
  assert (E2 : s2 =
    {| now := now s; has_body := false; loaded := loaded s;
       heap := upd_heap (upd_heap (heap s) (next_ref s) (new_div k))
                        (S (next_ref s)) (new_div k);
       next_ref := S (S (next_ref s));
       by_id := by_id s;
       messageTimers := messageTimers s;
       pending := pending s;
       next_timer := next_timer s;
       listeners :=
         (listeners s
          ++ [{| l_kind := k; l_message := m1; l_duration := d1;
                 l_div := next_ref s |}])
         ++ [{| l_kind := k; l_message := m2; l_duration := d2;
                l_div := S (next_ref s) |}] |}).
  { unfold s2, showMessage at 2. rewrite Hid, Hb.
    unfold showMessage. cbn [by_id has_body]. rewrite Hid.
    reflexivity. }
  clearbody s2. subst s2.
  split; [reflexivity|].
  split; [unfold message_of; cbn [by_id]; now rewrite Hid|].
  split; [cbn [listeners]; rewrite !length_app; simpl; lia|].
  split; [reflexivity|].
  assert (Hnone : pending_for k s = []).
  { apply filter_none. intros t Hin. apply kind_eqb_neq. intros E.
    pose proof (inv_target _ _ I t Hin) as Ht. rewrite E, Hid in Ht.
    discriminate. }
  assert (Hothers : forall l, In l (listeners s) ->
                      l_kind l <> k /\ l_div l <> next_ref s).
  { intros l Hl. split; [now apply Hls|].
    destruct (inv_listener_refs _ _ I l Hl) as [Hlt _]. lia. }
  unfold s3, domContentLoaded, message_of, pending_for.
  cbn [by_id heap pending now advance body_parsed listeners].
  rewrite !fold_left_app.
  match goal with |- context [fold_left ?f (listeners s) ?b] =>
    set (base := b); set (sA := fold_left f (listeners s) base)
  end.
  destruct (run_listeners_other k (next_ref s) (listeners s) base Hothers)
    as (A1 & A2 & A3 & A4 & A5).
  fold sA in A1, A2, A3, A4, A5.
  change (by_id base (messageId k)) with (by_id s (messageId k)) in A1.
  change (has_body base) with true in A2.
  change (heap base (next_ref s))
    with (upd_heap (upd_heap (heap s) (next_ref s) (new_div k))
                   (S (next_ref s)) (new_div k) (next_ref s)) in A3.
  change (now base) with (now s + dt)%N in A4.
  change (pending_for k base) with (pending_for k s) in A5.
  rewrite Hid in A1. rewrite Hnone in A5.
  assert (A3' : heap sA (next_ref s) = new_div k).
  { rewrite A3. unfold upd_heap. rewrite Nat.eqb_refl.
    destruct (Nat.eqb_spec (next_ref s) (S (next_ref s))); [lia|].
    reflexivity. }
  clearbody sA. clear base A3.
  cbn [fold_left].
  set (l1 := {| l_kind := k; l_message := m1; l_duration := d1;
                l_div := next_ref s |}).
  set (l2 := {| l_kind := k; l_message := m2; l_duration := d2;
                l_div := S (next_ref s) |}).
  assert (E4 : run_listener l1 sA =
    {| now := now sA; has_body := has_body sA; loaded := loaded sA;
       heap := upd_heap (heap sA) (next_ref s)
                 (with_text m1 (heap sA (next_ref s)));
       next_ref := next_ref sA;
       by_id := upd_id (by_id sA) (messageId k) (next_ref s);
       messageTimers := upd_timers (messageTimers sA) k (next_timer sA);
       pending :=
         pending sA
         ++ [{| timer_id := next_timer sA; due := (now sA + d1)%N;
                target := next_ref s; for_kind := k |}];
       next_timer := N.succ (next_timer sA);
       listeners := listeners sA |}).
  { unfold run_listener, l1. cbn [l_kind l_div l_message l_duration].
    now rewrite A1, A2. }
  assert (E5 : run_listener l2 (run_listener l1 sA) = run_listener l1 sA).
  { rewrite E4. unfold run_listener at 1, l2. cbn [by_id l_kind].
    now rewrite upd_id_same. }
  rewrite E5, E4. cbn [by_id heap pending]. rewrite upd_id_same.
  cbn [option_map].
  eexists. eexists. split; [reflexivity|].
  unfold upd_heap. rewrite Nat.eqb_refl, A3'.
  cbn [with_text textContent style_display].
  split; [reflexivity|]. split; [reflexivity|].
  rewrite filter_app. fold (pending_for k sA). rewrite A5.
  cbn [filter for_kind app]. rewrite kind_eqb_refl.
  split; [reflexivity|]. cbn [due]. now rewrite A4.
Qed.

Lemma deferred_first_message_wins_witness :
  let head_only :=
    {| now := 0; has_body := false; loaded := false;
       heap := fun _ => new_div KInfo; next_ref := 0;
       by_id := fun _ => None; messageTimers := fun _ => None;
       pending := []; next_timer := 1; listeners := [] |} in
  let s2 := showMessage KError (js "second") 5000
              (showMessage KError (js "first") 3000 head_only) in
  exists dv t,
    message_of KError (domContentLoaded (body_parsed (advance 40 s2)))
    = Some dv
    /\ textContent dv = js "first"
    /\ pending_for KError (domContentLoaded (body_parsed (advance 40 s2)))
       = [t]
    /\ due t = 3040%N.
Proof.
  intros head_only s2.
  assert (Hinit : initial head_only)
    by (constructor; simpl; auto; try discriminate; lia).
  destruct (deferred_first_message_wins head_only KError (js "first")
              (js "second") 3000 5000 40 (reach_init _ Hinit) eq_refl
              eq_refl (fun l (H : In l []) => False_ind _ H))
    as (_ & _ & _ & _ & dv & t & H1 & H2 & _ & H3 & H4).
  exists dv, t. repeat split; assumption.
Defined.

(** ** validation.js with notifications.js *)

Section DeliveryFacts.

Lemma validateContactForm_trace (name email phoneNumber company comment
    : value) :
  (exists sub,
     validateContactForm name email phoneNumber company comment
     = ([], Some sub))
  \/ exists m,
       In m validation_messages
       /\ validateContactForm name email phoneNumber company comment
          = ([showError m], None).
Proof.
  unfold validateContactForm, validation_messages.
  destruct (blank name); [right; eexists; split; [|reflexivity]; simpl; auto|].
  destruct (blank company);
    [right; eexists; split; [|reflexivity]; simpl; auto|].
  destruct (blank email && blank phoneNumber);
    [right; eexists; split; [|reflexivity]; simpl; auto|].
  destruct (negb (blank email) && negb (isValidEmail email));
    [right; eexists; split; [|reflexivity]; simpl; auto 6|].
  destruct (negb (blank phoneNumber)
            && negb (isValidPhoneNumber phoneNumber));
    [right; eexists; split; [|reflexivity]; simpl; auto 6|].
  left. eexists. reflexivity.
Qed.

End DeliveryFacts.

(** X22.  On a page with a body, a rejected form leaves exactly one
    error message on display, one of the five messages of the
    validator, with one expiry five seconds later; the success and info
    messages and their expiries are as they were.  An accepted form
    does not touch the notifications. *)
Theorem rejected_form_shows_one_error (s : state)
    (name email phoneNumber company comment : value) :
  reachable s -> has_body s = true ->
  let r := validateContactForm name email phoneNumber company comment in
  let s' := deliver (fst r) s in
  (forall sub, snd r = Some sub -> s' = s)
  /\ (snd r = None ->
      exists dv t,
        message_of KError s' = Some dv
        /\ In (textContent dv) validation_messages
        /\ style_display dv = DisplayBlock
        /\ pending_for KError s' = [t]
        /\ due t = (now s + 5000)%N
        /\ forall k, k <> KError ->
             message_of k s' = message_of k s
             /\ pending_for k s' = pending_for k s).
Proof.
  intros R Hb r s'. pose proof (reachable_inv _ R) as I.
  destruct (validateContactForm_trace name email phoneNumber company comment)
    as [(sub & E) | (m & Hm & E)]; unfold s', r; rewrite E; simpl.
  - split; [reflexivity | discriminate].
  - split; [discriminate|]. intros _. unfold show.
    destruct (showMessage_pending_for s KError KError m default_duration I
                (or_introl Hb)) as (rr & Er & Et & Ed & Ep).
    simpl in Ep.
    eexists. eexists. unfold message_of at 1. rewrite Er. simpl.
    split; [reflexivity|]. split; [now rewrite Et|].
    split; [exact Ed|]. split; [exact Ep|]. split; [reflexivity|].
    intros k Hk. split.
    + now apply showMessage_other_message.
    + destruct (showMessage_pending_for s KError k m default_duration I
                  (or_introl Hb)) as (r0 & _ & _ & _ & Ek).
      rewrite Ek. apply kind_eqb_neq in Hk. now rewrite Hk.
Qed.

Lemma rejected_form_shows_one_error_witness :
  exists dv t,
    message_of KError
      (deliver (fst (validateContactForm (JStr (js " ")) JUndefined
                       JUndefined (JStr (js "Acme")) JUndefined))
               fresh_page) = Some dv
    /\ textContent dv = msg_name_required
    /\ pending_for KError
         (deliver (fst (validateContactForm (JStr (js " ")) JUndefined
                          JUndefined (JStr (js "Acme")) JUndefined))
                  fresh_page) = [t]
    /\ due t = 5000%N.
Proof.
  destruct (rejected_form_shows_one_error fresh_page (JStr (js " "))
              JUndefined JUndefined (JStr (js "Acme")) JUndefined
              (reach_init _ fresh_page_initial) eq_refl) as (_ & Rej).
  destruct (Rej eq_refl) as (dv & t & H1 & _ & _ & H2 & H3 & _).
  exists dv, t. split; [exact H1|].
  split; [|split; [exact H2 | exact H3]].
  vm_compute in H1. injection H1 as <-. reflexivity.
Defined.

(** ** security.js: [safeCssEscape] on any string *)

Section EscapeAnyFacts.

Lemma ascii_cases (c : N) : (c < 128)%N -> In c ascii_range.
Proof.
  intros H. apply in_map_iff. exists (N.to_nat c).
  split; [apply N2Nat.id|]. apply in_seq. lia.
Qed.

Lemma plain_unit_reads_back (c : N) (tail : jsstring) :
  (128 <= c)%N ->
  consume_string TPlain (c :: tail)
  = with_value [c] (consume_string TPlain tail).
Proof.
  intros H. cbn [consume_string].
  rewrite (proj2 (N.eqb_neq c quot)) by (unfold quot; lia).
  rewrite (proj2 (N.eqb_neq c 10)) by lia.
  rewrite (proj2 (N.eqb_neq c backslash)) by (unfold backslash; lia).
  reflexivity.
Qed.

Lemma css_plain_high (c : N) :
  (128 <= c)%N -> is_surrogate c = false -> css_plain c = true.
Proof.
  intros H S. unfold css_plain. rewrite S.
  rewrite (proj2 (N.eqb_neq c 13)), (proj2 (N.eqb_neq c 12)),
    (proj2 (N.eqb_neq c 0)) by lia.
  reflexivity.
Qed.

Lemma css_escape_unit_any (c : N) :
  escapable c = true ->
  forall idx first len tail,
    consume_string TPlain (css_escape_unit idx first len c ++ tail)
    = with_value [c] (consume_string TPlain tail)
    /\ forallb css_plain (css_escape_unit idx first len c) = true.
Proof.
  intros H idx first len tail.
  destruct (N.ltb_spec c 128) as [Hlt | Hge].
  - apply ascii_cases in Hlt. vm_compute in Hlt.
    unfold css_escape_unit.
    repeat (destruct Hlt as [<- | Hlt]; [try discriminate H;
      destruct (idx =? 0)%nat, (idx =? 1)%nat, (len =? 1)%nat,
        (first =? 45)%N; split; reflexivity|]).
    contradiction.
  - unfold escapable in H. apply andb_true_iff in H as [_ S].
    apply negb_true_iff in S.
    assert (E : css_escape_unit idx first len c = [c]).
    { unfold css_escape_unit, digit.
      rewrite (proj2 (N.eqb_neq c 0)) by lia.
      rewrite (proj2 (N.leb_gt c 31)) by lia.
      rewrite (proj2 (N.eqb_neq c 127)) by lia.
      rewrite (proj2 (N.leb_gt c 57)) by lia.
      rewrite (proj2 (N.eqb_neq c 45)) by lia.
      rewrite (proj2 (N.leb_le 128 c)) by lia.
      now rewrite !andb_false_r. }
    rewrite E. simpl app. split; [now apply plain_unit_reads_back|].
    simpl. now rewrite css_plain_high.
Qed.

Lemma fallback_unit_any (c : N) :
  fallback_safe c = true ->
  forall tail,
    consume_string TPlain
      ((if css_special c then [backslash; c] else [c]) ++ tail)
    = with_value [c] (consume_string TPlain tail)
    /\ forallb css_plain (if css_special c then [backslash; c] else [c])
       = true.
Proof.
  intros H tail.
  destruct (N.ltb_spec c 128) as [Hlt | Hge].
  - apply ascii_cases in Hlt. vm_compute in Hlt.
    repeat (destruct Hlt as [<- | Hlt];
            [try discriminate H; split; reflexivity|]).
    contradiction.
  - unfold fallback_safe in H. apply andb_true_iff in H as [P _].
    assert (E : css_special c = false).
    { unfold css_special.
      rewrite (proj2 (N.leb_gt c 47)), (proj2 (N.leb_gt c 64)),
        (proj2 (N.leb_gt c 94)), (proj2 (N.eqb_neq c 96)),
        (proj2 (N.leb_gt c 126)) by lia.
      now rewrite !andb_false_r. }
    rewrite E. simpl app. split; [now apply plain_unit_reads_back|].
    simpl. now rewrite P.
Qed.

Lemma with_value_unit (c : N) (r : option (jsstring * jsstring)) :
  with_value [c] r
  = match r with Some (v, rest) => Some (c :: v, rest) | None => None end.
Proof. reflexivity. Qed.

Lemma CSS_escape_any (s : jsstring) :
  forallb escapable s = true ->
  forall idx first len tail,
    consume_string TPlain (css_escape_from idx first len s ++ tail)
    = match consume_string TPlain tail with
      | Some (v, rest) => Some (s ++ v, rest)
      | None => None
      end
    /\ forallb css_plain (css_escape_from idx first len s) = true.
Proof.
  induction s as [|c s IH]; simpl; intros H idx first len tail.
  - split; [|reflexivity]. now destruct (consume_string TPlain tail) as [[]|].
  - apply andb_true_iff in H as [Hc Hs].
    destruct (css_escape_unit_any c Hc idx first len
                (css_escape_from (S idx) first len s ++ tail)) as [E P].
    destruct (IH Hs (S idx) first len tail) as [E' P'].
    rewrite <- app_assoc, E, E', forallb_app, P, P', with_value_unit.
    split; [|reflexivity].
    now destruct (consume_string TPlain tail) as [[]|].
Qed.

Lemma fallback_escape_any (s : jsstring) :
  forallb fallback_safe s = true ->
  forall tail,
    consume_string TPlain (fallback_escape s ++ tail)
    = match consume_string TPlain tail with
      | Some (v, rest) => Some (s ++ v, rest)
      | None => None
      end
    /\ forallb css_plain (fallback_escape s) = true.
Proof.
  induction s as [|c s IH]; intros H tail.
  - split; [|reflexivity]. simpl.
    now destruct (consume_string TPlain tail) as [[]|].
  - simpl in H. apply andb_true_iff in H as [Hc Hs].
    rewrite fallback_escape_unfold.
    destruct (fallback_unit_any c Hc (fallback_escape s ++ tail)) as [E P].
    destruct (IH Hs tail) as [E' P'].
    rewrite <- app_assoc, E, E', forallb_app, P, P', with_value_unit.
    split; [|reflexivity].
    now destruct (consume_string TPlain tail) as [[]|].
Qed.

Lemma css_preprocess_plain_app (a b : jsstring) :
  forallb css_plain a = true ->
  css_preprocess (a ++ b) = a ++ css_preprocess b.
Proof.
  induction a as [|c a IH]; simpl; auto.
  intros H. apply andb_true_iff in H as [Hc Hs].
  unfold css_plain in Hc.
  repeat (apply andb_true_iff in Hc as [Hc ?]).
  repeat match goal with
         | H : negb _ = true |- _ => apply negb_true_iff in H
         end.
  assert (Hh : is_high_surrogate c = false /\ is_low_surrogate c = false).
  { unfold is_surrogate, is_high_surrogate, is_low_surrogate in *.
    apply andb_false_iff in H. rewrite !N.leb_gt in H.
    split; apply andb_false_iff; rewrite !N.leb_gt; lia. }
  destruct Hh as [-> ->]. rewrite Hc, H1, H0. now rewrite IH.
Qed.

Lemma fallback_escape_app (a b : jsstring) :
  fallback_escape (a ++ b) = fallback_escape a ++ fallback_escape b.
Proof.
  induction a as [|c a IH]; simpl; auto.
  destruct (css_special c); simpl; now rewrite IH.
Qed.

End EscapeAnyFacts.

(** X23.  The text [safeCssEscape] returns, put between double quotes in
    an attribute selector, is read by the style engine as the string it
    was given: with [CSS.escape] for every string without NUL and
    surrogates, with the fallback for every such string that also has no
    line break.  The fallback leaves a line feed as it is, and the
    selector is then not an attribute selector at all.  A nullish value
    is escaped as the empty string. *)
Theorem safeCssEscape_round_trip :
  (forall s, forallb escapable s = true ->
     attr_selector_value (skill_selector true s) = Some s)
  /\ (forall s, forallb fallback_safe s = true ->
        attr_selector_value (skill_selector false s) = Some s)
  /\ (forall s1 s2, forallb fallback_safe s1 = true ->
        attr_selector_value (skill_selector false (s1 ++ 10%N :: s2)) = None)
  /\ (forall has_css_escape,
        safeCssEscape has_css_escape JUndefined = []
        /\ safeCssEscape has_css_escape JNull = []).
Proof.
  split; [|split; [|split]].
  - intros s H. unfold attr_selector_value.
    destruct (CSS_escape_any s H 0%nat (hd 0%N s) (length s)
                (quot :: js "]")) as [E P].
    rewrite skill_selector_shape, css_preprocess_plain.
    + rewrite strip_prefix_app. unfold safeCssEscape, CSS_escape.
      cbn [nullish_or to_string]. rewrite E. simpl.
      now rewrite app_nil_r.
    + rewrite forallb_app, forallb_app. unfold safeCssEscape, CSS_escape.
      cbn [nullish_or to_string]. rewrite P. reflexivity.
  - intros s H. unfold attr_selector_value.
    destruct (fallback_escape_any s H (quot :: js "]")) as [E P].
    rewrite skill_selector_shape, css_preprocess_plain.
    + rewrite strip_prefix_app. unfold safeCssEscape.
      cbn [nullish_or to_string]. rewrite E. simpl.
      now rewrite app_nil_r.
    + rewrite forallb_app, forallb_app. unfold safeCssEscape.
      cbn [nullish_or to_string]. rewrite P. reflexivity.
  - intros s1 s2 H. unfold attr_selector_value.
    rewrite skill_selector_shape. unfold safeCssEscape.
    cbn [nullish_or to_string]. rewrite fallback_escape_app.
    destruct (fallback_escape_any s1 H
                (css_preprocess (fallback_escape (10%N :: s2)
                                 ++ quot :: js "]"))) as [E P].
    rewrite <- app_assoc, app_assoc, css_preprocess_plain_app
      by (rewrite forallb_app, P; reflexivity).
    rewrite <- app_assoc, strip_prefix_app, E.
    reflexivity.
  - intros h. destruct h; split; reflexivity.
Qed.

Lemma safeCssEscape_round_trip_witness :
  attr_selector_value (skill_selector true (js "7 a\b" ++ [233%N; 13%N]))
  = Some (js "7 a\b" ++ [233%N; 13%N])
  /\ attr_selector_value (skill_selector false (js "C# [x]"))
     = Some (js "C# [x]")
  /\ attr_selector_value (skill_selector false (js "a" ++ 10%N :: js "b"))
     = None.
Proof.
  destruct safeCssEscape_round_trip as (A & B & C & _).
  split; [|split].
  - apply A. reflexivity.
  - apply B. reflexivity.
  - apply C. reflexivity.
Defined.

(** X24.  The synchronous part of [sendEmail] either raises one
    notification and hands nothing to the service, or hands over one
    message and raises no notification.  In the second case a rejected
    promise raises the failure message, and a fulfilled one the success
    message followed by the call of [resetContactForm]; when that call
    throws, because the element found has no callable [reset], the
    failure continuation runs as well, so that the user is told of the
    success and then of a failure.  In every other case a call raises
    exactly one notification.  [resetContactForm] is called exactly when
    a message was handed over and the promise was fulfilled. *)
Theorem sendEmail_notifications (env : emailEnv) (emailJsInitialized : bool)
    (target title content senderEmail senderPhone : value) (r : settlement) :
  let sync := fst (sendEmail env emailJsInitialized target title content
                             senderEmail senderPhone) in
  (length (filter is_notify sync) + length (filter is_send sync) = 1)%nat
  /\ (existsb is_send sync = false ->
      length (filter is_notify (settled sync r)) = 1%nat)
  /\ (forall form, r = Fulfilled form -> resetContactForm form = None ->
      existsb is_send sync = true ->
      filter is_notify (settled sync r) = [showSuccess msg_sent])
  /\ (forall error, r = Rejected error ->
      existsb is_send sync = true ->
      filter is_notify (settled sync r) = [showError msg_failed])
  /\ (forall thrown, r = Fulfilled (NotResettable thrown) ->
      existsb is_send sync = true ->
      filter is_notify (settled sync r)
      = [showSuccess msg_sent; showError msg_failed]
      /\ In (Console LvError [AStr (js "Email error:"); AVal thrown])
            (settled sync r))
  /\ (In FormReset (settled sync r)
      <-> existsb is_send sync = true /\ exists form, r = Fulfilled form).
Proof.
  cbv zeta.
  set (sync := fst (sendEmail env emailJsInitialized target title content
                              senderEmail senderPhone)).
  assert (Shape :
    (filter is_notify sync = [] /\ existsb is_send sync = true
     /\ length (filter is_send sync) = 1%nat /\ ~ In FormReset sync)
    \/ (length (filter is_notify sync) = 1%nat
        /\ existsb is_send sync = false
        /\ filter is_send sync = [] /\ ~ In FormReset sync)).
  { unfold sync, sendEmail.
    destruct (negb (emailjs_loaded env)).
    { right. cbn. repeat split; try reflexivity.
      intros [H | [H | []]]; discriminate. }
    destruct (negb (truthy target) || negb (isValidEmail target)).
    { right. cbn. repeat split; try reflexivity.
      intros [H | [H | []]]; discriminate. }
    destruct (negb (isValidCredentials env)).
    - right. cbn [fst].
      destruct (credential_warnings_plain env) as (_ & _ & Wn).
      assert (Ws : existsb is_send (credential_warnings env) = false
                   /\ ~ In FormReset (credential_warnings env)).
      { unfold credential_warnings.
        destruct (is_literal (serviceID env) placeholder_service
                  || negb (truthy (serviceID env))),
          (is_literal (templateID env) placeholder_template
           || negb (truthy (templateID env))),
          (is_literal (publicKey env) placeholder_key
           || negb (truthy (publicKey env)));
          (split; [reflexivity | simpl; intuition discriminate]). }
      destruct Ws as [Ws Wr].
      assert (Wf : filter is_send (credential_warnings env) = []).
      { apply filter_none. intros x Hx.
        destruct (is_send x) eqn:E; auto.
        rewrite <- Ws. symmetry. apply existsb_exists. now exists x. }
      remember (credential_warnings env) as W eqn:EW. clear EW.
      rewrite !filter_app, !existsb_app, Wn, Wf, Ws.
      destruct (isLocalDev env); cbn;
        (split; [reflexivity|]); (split; [reflexivity|]);
        (split; [reflexivity|]);
        rewrite ?in_app_iff; simpl; intuition (try discriminate).
    - left. cbn [fst].
      destruct (negb emailJsInitialized); cbn;
        (split; [reflexivity|]); (split; [reflexivity|]);
        (split; [reflexivity|]); intuition (try discriminate). }
  clearbody sync.
  assert (Rej : forall error,
    filter is_notify (on_send_rejected error) = [showError msg_failed])
    by reflexivity.
  unfold settled.
  destruct Shape as [(Hn & Hs & Hl & Hr) | (Hn & Hs & Hl & Hr)];
    rewrite Hs.
  - split; [rewrite Hn, Hl; reflexivity|].
    split; [discriminate|].
    split.
    { intros form -> Hnone _. rewrite filter_app, Hn. unfold continuations.
      now rewrite Hnone. }
    split.
    { intros error -> _. now rewrite filter_app, Hn. }
    split.
    { intros thrown -> _. rewrite filter_app, Hn. split; [reflexivity|].
      apply in_or_app. right. simpl. auto. }
    rewrite in_app_iff. split.
    + intros [H | H]; [contradiction|]. split; [reflexivity|].
      destruct r as [form | error]; [now exists form|].
      simpl in H. destruct H as [H | [H | []]]; discriminate.
    + intros (_ & form & ->). right. simpl. auto.
  - split; [rewrite Hn, Hl; reflexivity|].
    split; [intros _; now rewrite app_nil_r|].
    split; [intros form _ _ H; discriminate|].
    split; [intros error _ H; discriminate|].
    split; [intros thrown _ H; discriminate|].
    rewrite app_nil_r. split; [contradiction | intros [H _]; discriminate].
Qed.

Lemma sendEmail_notifications_witness :
  let env := {| emailjs_loaded := true;
                serviceID := JStr (js "service_1");
                templateID := JStr (js "template_1");
                publicKey := JStr (js "key_1");
                hostname := js "example.org" |} in
  let sync := fst (sendEmail env false (JStr (js "a@b.co")) (JStr (js "Hi"))
                             (JStr (js "text")) JUndefined JUndefined) in
  filter is_notify (settled sync (Fulfilled Form)) = [showSuccess msg_sent]
  /\ filter is_notify (settled sync (Fulfilled (NotResettable JUndefined)))
     = [showSuccess msg_sent; showError msg_failed].
Proof.
  intros env sync. split.
  - destruct (sendEmail_notifications env false (JStr (js "a@b.co"))
                (JStr (js "Hi")) (JStr (js "text")) JUndefined JUndefined
                (Fulfilled Form)) as (_ & _ & Ok & _).
    apply (Ok Form); reflexivity.
  - destruct (sendEmail_notifications env false (JStr (js "a@b.co"))
                (JStr (js "Hi")) (JStr (js "text")) JUndefined JUndefined
                (Fulfilled (NotResettable JUndefined)))
      as (_ & _ & _ & _ & Twice & _).
    destruct (Twice JUndefined eq_refl eq_refl) as [Both _]. exact Both.
Defined.

(** ** security.js: distinct skills have distinct keys *)

Section KeyInjectivity.

Ltac divmod x n :=
  pose proof (N.div_mod' x n);
  pose proof (N.mod_lt x n ltac:(discriminate)).

(** Name each quotient and remainder, so that linear arithmetic sees
    them as unknowns of their own. *)
Ltac name_divmod :=
  repeat match goal with
         | H : context [N.modulo ?a ?b] |- _ =>
             let r := fresh "r" in set (r := N.modulo a b) in *; clearbody r
         | |- context [N.modulo ?a ?b] =>
             let r := fresh "r" in set (r := N.modulo a b) in *; clearbody r
         | H : context [N.div ?a ?b] |- _ =>
             let q := fresh "q" in set (q := N.div a b) in *; clearbody q
         | |- context [N.div ?a ?b] =>
             let q := fresh "q" in set (q := N.div a b) in *; clearbody q
         end.

Lemma hex_upper_digit_inj (a b : N) :
  (a < 16)%N -> (b < 16)%N -> hex_upper_digit a = hex_upper_digit b -> a = b.
Proof.
  unfold hex_upper_digit. intros Ha Hb.
  destruct (N.ltb_spec a 10), (N.ltb_spec b 10); lia.
Qed.

Lemma pct_app_inj (b1 b2 : N) (r1 r2 : jsstring) :
  (b1 < 256)%N -> (b2 < 256)%N ->
  pct b1 ++ r1 = pct b2 ++ r2 -> b1 = b2 /\ r1 = r2.
Proof.
  intros H1 H2 E. unfold pct in E. simpl in E.
  injection E as Eh El Er. split; [|exact Er].
  apply hex_upper_digit_inj in Eh; [|apply N.mod_lt; discriminate ..].
  apply hex_upper_digit_inj in El; [|apply N.mod_lt; discriminate ..].
  divmod b1 16%N. divmod b2 16%N.
  rewrite (N.mod_small (b1 / 16) 16) in Eh
    by (apply N.Div0.div_lt_upper_bound; lia).
  rewrite (N.mod_small (b2 / 16) 16) in Eh
    by (apply N.Div0.div_lt_upper_bound; lia).
  lia.
Qed.

Lemma pcts_unfold (b : N) (l : list N) (k : jsstring) :
  concat (map pct (b :: l)) ++ k = pct b ++ (concat (map pct l) ++ k).
Proof. reflexivity. Qed.

(** The encodings of two code points: neither is a proper prefix of the
    other, and equal encodings come from equal code points. *)
Lemma utf8_pcts_prefix (cp1 cp2 : N) (k1 k2 : jsstring) :
  (cp1 < 1114112)%N -> (cp2 < 1114112)%N ->
  concat (map pct (utf8 cp1)) ++ k1 = concat (map pct (utf8 cp2)) ++ k2 ->
  cp1 = cp2 /\ k1 = k2.
Proof.
  intros H1 H2.
  divmod cp1 64%N. divmod cp2 64%N.
  divmod (cp1 / 64)%N 64%N. divmod (cp2 / 64)%N 64%N.
  divmod (cp1 / 64 / 64)%N 64%N. divmod (cp2 / 64 / 64)%N 64%N.
  assert (D1 : (cp1 / 4096 = cp1 / 64 / 64)%N)
    by (rewrite N.Div0.div_div; reflexivity).
  assert (D2 : (cp2 / 4096 = cp2 / 64 / 64)%N)
    by (rewrite N.Div0.div_div; reflexivity).
  assert (D3 : (cp1 / 262144 = cp1 / 64 / 64 / 64)%N)
    by (rewrite !N.Div0.div_div; reflexivity).
  assert (D4 : (cp2 / 262144 = cp2 / 64 / 64 / 64)%N)
    by (rewrite !N.Div0.div_div; reflexivity).
  divmod (cp1 / 64 / 64 / 64)%N 8%N. divmod (cp2 / 64 / 64 / 64)%N 8%N.
  unfold utf8. rewrite D1, D2, D3, D4. clear D1 D2 D3 D4.
  name_divmod.
  destruct (N.ltb_spec cp1 128), (N.ltb_spec cp1 2048),
    (N.ltb_spec cp1 65536), (N.ltb_spec cp2 128), (N.ltb_spec cp2 2048),
    (N.ltb_spec cp2 65536); try lia;
    rewrite !pcts_unfold; intros E;
    (apply pct_app_inj in E; [|lia|lia]); destruct E as [E0 E]; try lia;
    repeat ((apply pct_app_inj in E; [|lia|lia]); destruct E as [? E]);
    (split; [lia | exact E]).
Qed.

Lemma utf8_pcts_head (cp : N) (k : jsstring) :
  exists rest, concat (map pct (utf8 cp)) ++ k = percent :: rest.
Proof.
  unfold utf8.
  destruct (cp <? 128)%N; [|destruct (cp <? 2048)%N;
                            [|destruct (cp <? 65536)%N]];
    simpl; eexists; reflexivity.
Qed.

Lemma unreserved_not_percent (c : N) :
  uri_unreserved c = true -> c <> percent.
Proof. intros H ->. discriminate. Qed.

Lemma code_point_range (hi lo : N) :
  is_high_surrogate hi = true -> is_low_surrogate lo = true ->
  (65536 <= code_point hi lo < 1114112)%N
  /\ utf16 (code_point hi lo) = [hi; lo].
Proof.
  unfold is_high_surrogate, is_low_surrogate, code_point, utf16.
  rewrite !andb_true_iff, !N.leb_le. intros [A B] [C D].
  split; [lia|].
  destruct (N.ltb_spec ((hi - 55296) * 1024 + (lo - 56320) + 65536) 65536);
    [lia|].
  replace ((hi - 55296) * 1024 + (lo - 56320) + 65536 - 65536)%N
    with ((lo - 56320) + (hi - 55296) * 1024)%N by lia.
  rewrite N.div_add by discriminate.
  rewrite N.Div0.mod_add.
  rewrite N.div_small, N.mod_small by lia.
  f_equal; [lia | f_equal; lia].
Qed.

(** How a key starts: with an unreserved character kept as it is, or
    with the escapes of one code point. *)
Lemma encodeURIComponent_head (s k : jsstring) :
  code_units s -> encodeURIComponent s = Some k ->
  (s = [] /\ k = [])
  \/ (exists c s' k',
        s = c :: s' /\ uri_unreserved c = true
        /\ encodeURIComponent s' = Some k' /\ k = c :: k')
  \/ (exists cp s' k',
        s = utf16 cp ++ s' /\ (cp < 1114112)%N
        /\ encodeURIComponent s' = Some k'
        /\ k = concat (map pct (utf8 cp)) ++ k').
Proof.
  intros U. destruct s as [|c s]; simpl.
  - intros E. injection E as <-. now left.
  - intros E. right. inversion U as [|? ? Hc Us]; subst.
    destruct (uri_unreserved c) eqn:Hu.
    + apply (prepend_some _ s) in E as (k' & E & ->).
      left. now exists c, s, k'.
    + right. destruct (is_high_surrogate c) eqn:Hh.
      * destruct s as [|c2 s]; [discriminate|].
        destruct (is_low_surrogate c2) eqn:Hl; [|discriminate].
        apply (prepend_some _ s) in E as (k' & E & ->).
        destruct (code_point_range c c2 Hh Hl) as [R E'].
        exists (code_point c c2), s, k'. rewrite E'. simpl.
        repeat split; auto; lia.
      * destruct (is_low_surrogate c); [discriminate|].
        apply (prepend_some _ s) in E as (k' & E & ->).
        exists c, s, k'. unfold utf16.
        destruct (N.ltb_spec c 65536); [|lia].
        repeat split; auto; lia.
Qed.

Lemma utf16_length (cp : N) : (1 <= length (utf16 cp))%nat.
Proof. unfold utf16. destruct (cp <? 65536)%N; simpl; lia. Qed.

Lemma encodeURIComponent_injective (s1 s2 k : jsstring) :
  code_units s1 -> code_units s2 ->
  encodeURIComponent s1 = Some k -> encodeURIComponent s2 = Some k ->
  s1 = s2.
Proof.
  remember (length s1) as n eqn:En. revert s1 s2 k En.
  induction n as [n IH] using lt_wf_ind. intros s1 s2 k En U1 U2 E1 E2.
  subst n.
  destruct (encodeURIComponent_head s1 k U1 E1)
    as [[-> ->] | [(c1 & t1 & k1 & -> & Hu1 & T1 & ->)
                  | (cp1 & t1 & k1 & -> & R1 & T1 & ->)]];
    destruct (encodeURIComponent_head s2 _ U2 E2)
      as [[-> K2] | [(c2 & t2 & k2 & -> & Hu2 & T2 & K2)
                    | (cp2 & t2 & k2 & -> & R2 & T2 & K2)]];
    try reflexivity; try discriminate.
  - destruct (utf8_pcts_head cp2 k2) as (rest & Hr). congruence.
  - injection K2 as -> ->. f_equal.
    inversion U1; inversion U2; subst.
    apply (IH (length t1)) with (k := k2); simpl; auto; lia.
  - destruct (utf8_pcts_head cp2 k2) as (rest & Hr). rewrite Hr in K2.
    injection K2 as -> _. now apply unreserved_not_percent in Hu1.
  - destruct (utf8_pcts_head cp1 k1) as (rest & Hr). congruence.
  - destruct (utf8_pcts_head cp1 k1) as (rest & Hr). rewrite Hr in K2.
    injection K2 as <- _. now apply unreserved_not_percent in Hu2.
  - apply utf8_pcts_prefix in K2 as [-> ->]; auto. f_equal.
    apply Forall_app in U1 as [_ U1]. apply Forall_app in U2 as [_ U2].
    pose proof (utf16_length cp2) as L.
    apply (IH (length t1)) with (k := k2); auto.
    rewrite length_app. lia.
Qed.

End KeyInjectivity.

(** X25.  Two skill names with the same key are the same name: distinct
    skills never share a key, so the selector built for one skill never
    reaches the tags of another.  The key is taken of the string form of
    the value, so the values null and undefined share the keys of the
    names spelled that way. *)
Theorem normalizeSkillKey_injective :
  (forall s1 s2 k,
      code_units s1 -> code_units s2 ->
      normalizeSkillKey (JStr s1) = Some k ->
      normalizeSkillKey (JStr s2) = Some k ->
      s1 = s2)
  /\ (forall s1 s2 k1 k2 e,
        code_units s1 -> code_units s2 -> s1 <> s2 ->
        normalizeSkillKey (JStr s1) = Some k1 ->
        normalizeSkillKey (JStr s2) = Some k2 ->
        has_skill k1 e = true -> has_skill k2 e = false)
  /\ normalizeSkillKey JNull = normalizeSkillKey (JStr (js "null"))
  /\ normalizeSkillKey JUndefined = normalizeSkillKey (JStr (js "undefined")).
Proof.
  split; [|split; [|split; reflexivity]].
  - intros s1 s2 k U1 U2 E1 E2.
    now apply (encodeURIComponent_injective s1 s2 k).
  - intros s1 s2 k1 k2 e U1 U2 Hne E1 E2 H1.
    destruct (has_skill k2 e) eqn:H2; [|reflexivity].
    apply has_skill_iff in H1, H2. exfalso. apply Hne.
    apply (encodeURIComponent_injective s1 s2 k1); auto.
    unfold normalizeSkillKey in *. simpl in *. congruence.
Qed.

Lemma normalizeSkillKey_injective_witness :
  has_skill (js "C%23")
    {| data_expanded := None; data_skill := Some (js "C%2B%2B");
       classList := [js "skill-tag"] |} = false.
Proof.
  destruct normalizeSkillKey_injective as (_ & Other & _).
  apply (Other (js "C++") (js "C#") (js "C%2B%2B") (js "C%23"));
    try reflexivity; try discriminate; repeat constructor.
Defined.
